(** * MiniGrid engine (envpool/minigrid/impl/minigrid_env.cc)

    A shallow embedding of the stepping, placement and observation code of
    [MiniGridEnv], and the properties of it that the specification states.

    Conventions.
    - C++ [int] values are integers of [Z]; the development assumes they stay
      away from the limits of [int] (signed overflow has no defined result).
    - [std::vector] is a [list]; a read or write outside a vector has no
      defined behaviour and is the outcome [Undef].
    - A failed [CHECK] terminates the process: the outcome [Abort].
    - [float] and [double] values are IEEE-754 binary32 and binary64 numbers,
      given by [spec_float] and its operations (round to nearest, ties to
      even); what they are worth is stated in the real numbers of the
      Standard Library. *)

From Stdlib Require Import ZArith Lia Bool List.
From Stdlib Require Import Floats.SpecFloat.
From Stdlib Require Import Rbase Rbasic_fun Rfunctions Lra.
From stdpp Require Import base decidable option list numbers.

Local Open Scope Z_scope.

(** * World objects *)

(** Modelled from the spec: the header declaring [WorldObj] is not part of
    the sources. The spec gives its attributes: a type among Empty, Wall,
    Floor, Door, Key, Ball, Box, Goal, Lava, Agent; a color, a small index;
    for doors a pair of booleans (locked, open); and an optional nested
    object owned by a Box. *)
Inductive ObjType :=
  | kEmpty | kWall | kFloor | kDoor | kKey | kBall | kBox | kGoal | kLava
  | kAgent.

#[global] Instance ObjType_eq_dec : EqDecision ObjType.
Proof. solve_decision. Defined.

Definition Color := Z.

#[warnings="-register-all"]
Inductive WorldObj := mkWorldObj {
  type_ : ObjType;
  color_ : Color;
  door_locked_ : bool;
  door_open_ : bool;
  contains_ : option WorldObj
}.

Definition GetType (o : WorldObj) : ObjType := type_ o.
Definition GetColor (o : WorldObj) : Color := color_ o.
Definition GetDoorLocked (o : WorldObj) : bool := door_locked_ o.
Definition GetDoorOpen (o : WorldObj) : bool := door_open_ o.
Definition GetContains (o : WorldObj) : option WorldObj := contains_ o.

(** Modelled from the spec: [SetDoorOpen] is declared in the absent header.
    The engine calls it at two places, and the spec words both: on a locked
    door, with the matching key, the toggle unlocks and opens the door, it
    sets open = true and clears locked (the call [SetDoorOpen(true)] is all
    that the engine does there); on an unlocked door it flips open/closed.
    So [SetDoorOpen(flag)] writes the open flag, and opening the door clears
    its locked flag. *)
Definition SetDoorOpen (flag : bool) (o : WorldObj) : WorldObj :=
  mkWorldObj (type_ o) (color_ o) (if flag then false else door_locked_ o)
    flag (contains_ o).

(** Modelled from the spec: [SetContains] is the setter of the contents slot
    of a Box; it writes that attribute and no other. *)

Definition SetContains (c : option WorldObj) (o : WorldObj) : WorldObj :=
  mkWorldObj (type_ o) (color_ o) (door_locked_ o) (door_open_ o) c.

(** The remaining members of [WorldObj] that the engine calls are declared in
    the same absent header and stay parameters of the development: the
    constructor [WorldObj(type)] with its defaults for the other attributes,
    the three capability predicates, the state code, and the integer value
    of each [ObjType] enumerator. *)
Class WorldObjApi := {
  NewObj : ObjType -> WorldObj;
  CanOverlap : WorldObj -> bool;
  CanPickup : WorldObj -> bool;
  CanSeeBehind : WorldObj -> bool;
  GetState : WorldObj -> Z;
  type_code : ObjType -> Z
}.

(** What the engine relies on: the constructor builds an object of the type
    it is given, and what can be picked up is an object, never the Empty
    filler of a free cell. *)
Class WorldObjLaws `{WorldObjApi} : Prop := {
  GetType_NewObj : forall t, GetType (NewObj t) = t;
  CanPickup_not_Empty : forall o, CanPickup o = true -> GetType o <> kEmpty
}.

(** * Actions *)

(** The enumerators of [Act]; [kOtherAct] stands for any other integer
    converted to [Act]. *)
Inductive Act :=
  | kLeft | kRight | kForward | kPickup | kDrop | kToggle | kDone
  | kOtherAct.

#[global] Instance Act_eq_dec : EqDecision Act.
Proof. solve_decision. Defined.

(** * Floating point *)

Definition float := spec_float.

Definition float_of_int (z : Z) : spec_float := binary_normalize 24 128 z 0 false.
Definition double_of_int (z : Z) : spec_float := binary_normalize 53 1024 z 0 false.

(** Conversion of a [double] to [float]: the value is rounded to 24 bits. *)
Definition float_of_double (x : spec_float) : spec_float :=
  match x with
  | S754_finite s m e => binary_round 24 128 s m e
  | _ => x
  end.

(** The [double] literal [0.9], 0x3FECCCCCCCCCCCCD. *)
Definition double_0_9 : spec_float := S754_finite false 8106479329266893 (-53).

Definition float_zero : float := S754_zero false.

(** [1 - 0.9 * (static_cast<float>(step_count_) / max_steps_)]: the quotient
    is a [float] division, the product and the difference are [double]
    operations, and the assignment to [reward] rounds to [float]. *)
Definition goal_reward (step_count max_steps : Z) : float :=
  float_of_double
    (SFsub 53 1024 (double_of_int 1)
       (SFmul 53 1024 double_0_9
          (SFdiv 24 128 (float_of_int step_count) (float_of_int max_steps)))).

(** * Environment state *)

Abbreviation Grid := (list (list WorldObj)).

Record MiniGridEnv := mkEnv {
  width_ : Z;
  height_ : Z;
  max_steps_ : Z;
  agent_view_size_ : Z;
  see_through_walls_ : bool;
  agent_start_dir_ : Z;
  grid_ : Grid;
  agent_pos_ : Z * Z;
  agent_dir_ : Z;
  carrying_ : WorldObj;
  step_count_ : Z;
  done_ : bool
}.

Definition set_grid (g : Grid) (s : MiniGridEnv) : MiniGridEnv :=
  mkEnv (width_ s) (height_ s) (max_steps_ s) (agent_view_size_ s)
    (see_through_walls_ s) (agent_start_dir_ s) g (agent_pos_ s)
    (agent_dir_ s) (carrying_ s) (step_count_ s) (done_ s).

Definition set_agent_pos (p : Z * Z) (s : MiniGridEnv) : MiniGridEnv :=
  mkEnv (width_ s) (height_ s) (max_steps_ s) (agent_view_size_ s)
    (see_through_walls_ s) (agent_start_dir_ s) (grid_ s) p
    (agent_dir_ s) (carrying_ s) (step_count_ s) (done_ s).

Definition set_agent_dir (d : Z) (s : MiniGridEnv) : MiniGridEnv :=
  mkEnv (width_ s) (height_ s) (max_steps_ s) (agent_view_size_ s)
    (see_through_walls_ s) (agent_start_dir_ s) (grid_ s) (agent_pos_ s)
    d (carrying_ s) (step_count_ s) (done_ s).

Definition set_carrying (o : WorldObj) (s : MiniGridEnv) : MiniGridEnv :=
  mkEnv (width_ s) (height_ s) (max_steps_ s) (agent_view_size_ s)
    (see_through_walls_ s) (agent_start_dir_ s) (grid_ s) (agent_pos_ s)
    (agent_dir_ s) o (step_count_ s) (done_ s).

Definition set_step_count (n : Z) (s : MiniGridEnv) : MiniGridEnv :=
  mkEnv (width_ s) (height_ s) (max_steps_ s) (agent_view_size_ s)
    (see_through_walls_ s) (agent_start_dir_ s) (grid_ s) (agent_pos_ s)
    (agent_dir_ s) (carrying_ s) n (done_ s).

Definition set_done (b : bool) (s : MiniGridEnv) : MiniGridEnv :=
  mkEnv (width_ s) (height_ s) (max_steps_ s) (agent_view_size_ s)
    (see_through_walls_ s) (agent_start_dir_ s) (grid_ s) (agent_pos_ s)
    (agent_dir_ s) (carrying_ s) (step_count_ s) b.

(** [grid_[y][x]]: defined when both indices are inside the vectors. *)
Definition grid_get (g : Grid) (x y : Z) : option WorldObj :=
  if (0 <=? x) && (0 <=? y)
  then match g !! Z.to_nat y with
       | Some row => row !! Z.to_nat x
       | None => None
       end
  else None.

(** [grid_[y][x] = v], for indices at which [grid_get] is defined. *)
Definition grid_set (g : Grid) (x y : Z) (v : WorldObj) : Grid :=
  match g !! Z.to_nat y with
  | Some row => <[Z.to_nat y := <[Z.to_nat x := v]> row]> g
  | None => g
  end.

(** * Outcomes and the method monad *)

Inductive outcome (A : Type) :=
  | Ok (a : A)
  | Abort
  | Undef.
Arguments Ok {A} a.
Arguments Abort {A}.
Arguments Undef {A}.

(** A member function of [MiniGridEnv] returning [A]. *)
Definition Method (A : Type) := MiniGridEnv -> outcome (A * MiniGridEnv).

Definition ret {A} (a : A) : Method A := fun s => Ok (a, s).

Definition bind {A B} (m : Method A) (k : A -> Method B) : Method B :=
  fun s =>
    match m s with
    | Ok (a, s') => k a s'
    | Abort => Abort
    | Undef => Undef
    end.

Declare Scope method_scope.
Delimit Scope method_scope with method.
Notation "x <- m ;; k" := (bind m (fun x => k))
  (at level 100, m at next level, right associativity) : method_scope.
Notation "m ;;; k" := (bind m (fun _ => k))
  (at level 100, right associativity) : method_scope.

(** Reading a member, assigning members, [CHECK], and the undefined read. *)
Definition member {A} (f : MiniGridEnv -> A) : Method A := fun s => Ok (f s, s).
Definition assign (f : MiniGridEnv -> MiniGridEnv) : Method unit :=
  fun s => Ok (tt, f s).
Definition CHECK (b : bool) : Method unit :=
  fun s => if b then Ok (tt, s) else Abort.
Definition undefined {A} : Method A := fun _ => Undef.

Definition when (b : bool) (m : Method unit) : Method unit :=
  if b then m else ret tt.

(** [grid_[y][x]] as an rvalue, and the assignment [grid_[y][x] = v]. *)
Definition read_cell (x y : Z) : Method WorldObj :=
  fun s =>
    match grid_get (grid_ s) x y with
    | Some o => Ok (o, s)
    | None => Undef
    end.

Definition write_cell (x y : Z) (v : WorldObj) : Method unit :=
  fun s =>
    match grid_get (grid_ s) x y with
    | Some _ => Ok (tt, set_grid (grid_set (grid_ s) x y v) s)
    | None => Undef
    end.

(** * Reset and Step *)

Section Stepper.
Context `{WorldObjApi}.
Local Open Scope method_scope.

(** [GenGrid] is supplied by the mission; it is a parameter here. *)
Definition MiniGridReset (GenGrid : Method unit) : Method unit :=
  GenGrid ;;;
  assign (set_step_count 0) ;;;
  assign (set_done false) ;;;
  pos <- member agent_pos_ ;;
  dir <- member agent_dir_ ;;
  CHECK (0 <=? fst pos) ;;;
  CHECK (0 <=? snd pos) ;;;
  CHECK (0 <=? dir) ;;;
  cell <- read_cell (fst pos) (snd pos) ;;
  CHECK (CanOverlap cell) ;;;
  assign (set_carrying (NewObj kEmpty)).

(** The position in front of the agent; [None] is the [default:] label of
    the [switch]. *)
Definition forward_pos (pos : Z * Z) (dir : Z) : option (Z * Z) :=
  match dir with
  | 0 => Some (fst pos + 1, snd pos)
  | 1 => Some (fst pos, snd pos + 1)
  | 2 => Some (fst pos - 1, snd pos)
  | 3 => Some (fst pos, snd pos - 1)
  | _ => None
  end.

Definition toggle_door (fx fy : Z) (obj : WorldObj) : Method unit :=
  if GetDoorLocked obj then
    carried <- member carrying_ ;;
    when (bool_decide (GetType carried = kKey)
          && (GetColor carried =? GetColor obj))
      (cell <- read_cell fx fy ;;
       write_cell fx fy (SetDoorOpen true cell))
  else
    cell <- read_cell fx fy ;;
    write_cell fx fy (SetDoorOpen (negb (GetDoorOpen obj)) cell).

Definition toggle_box (fx fy : Z) : Method unit :=
  cell <- read_cell fx fy ;;
  match GetContains cell with
  | Some inner =>
      write_cell fx fy inner ;;;
      cell' <- read_cell fx fy ;;
      write_cell fx fy (SetContains (GetContains inner) cell')
  | None => write_cell fx fy (NewObj kEmpty)
  end.

(** The branch of [MiniGridStep] selected by [act], for the forward
    position [fwd]; its result is the reward. *)
Definition step_action (act : Act) (fwd : Z * Z) : Method float :=
  let fx := fst fwd in
  let fy := snd fwd in
  match act with
  | kLeft =>
      dir <- member agent_dir_ ;;
      assign (set_agent_dir (dir - 1)) ;;;
      dir <- member agent_dir_ ;;
      when (dir <? 0) (assign (set_agent_dir (dir + 4))) ;;;
      ret float_zero
  | kRight =>
      dir <- member agent_dir_ ;;
      assign (set_agent_dir (Z.rem (dir + 1) 4)) ;;;
      ret float_zero
  | kForward =>
      cell <- read_cell fx fy ;;
      when (CanOverlap cell) (assign (set_agent_pos fwd)) ;;;
      cell <- read_cell fx fy ;;
      if bool_decide (GetType cell = kGoal) then
        assign (set_done true) ;;;
        step_count <- member step_count_ ;;
        max_steps <- member max_steps_ ;;
        ret (goal_reward step_count max_steps)
      else if bool_decide (GetType cell = kLava) then
        assign (set_done true) ;;;
        ret float_zero
      else ret float_zero
  | kPickup =>
      carried <- member carrying_ ;;
      cell <- read_cell fx fy ;;
      when (bool_decide (GetType carried = kEmpty) && CanPickup cell)
        (assign (set_carrying cell) ;;;
         write_cell fx fy (NewObj kEmpty)) ;;;
      ret float_zero
  | kDrop =>
      carried <- member carrying_ ;;
      cell <- read_cell fx fy ;;
      when (negb (bool_decide (GetType carried = kEmpty))
            && bool_decide (GetType cell = kEmpty))
        (write_cell fx fy carried ;;;
         assign (set_carrying (NewObj kEmpty))) ;;;
      ret float_zero
  | kToggle =>
      obj <- read_cell fx fy ;;
      (if bool_decide (GetType obj = kDoor) then toggle_door fx fy obj
       else if bool_decide (GetType obj = kBox) then toggle_box fx fy
       else ret tt) ;;;
      ret float_zero
  | kDone => ret float_zero
  | kOtherAct => CHECK false ;;; ret float_zero
  end.

Definition MiniGridStep (act : Act) : Method float :=
  step_count <- member step_count_ ;;
  assign (set_step_count (step_count + 1)) ;;;
  pos <- member agent_pos_ ;;
  dir <- member agent_dir_ ;;
  fwd_pos <- match forward_pos pos dir with
             | Some p => ret p
             | None => CHECK false ;;; ret pos
             end ;;
  width <- member width_ ;;
  height <- member height_ ;;
  CHECK (0 <=? fst fwd_pos) ;;;
  CHECK (fst fwd_pos <? width) ;;;
  CHECK (0 <=? snd fwd_pos) ;;;
  CHECK (snd fwd_pos <? height) ;;;
  reward <- step_action act fwd_pos ;;
  step_count <- member step_count_ ;;
  max_steps <- member max_steps_ ;;
  when (max_steps <=? step_count) (assign (set_done true)) ;;;
  ret reward.

End Stepper.

(** * Placement *)

Section Placement.
(** The random engine behind [gen_ref_] lives outside the environment; a
    [std::uniform_int_distribution<>(a, b)] applied to it yields a number
    and the next engine state. Constructing the distribution with [b < a]
    has no defined behaviour. *)
Context {Rng : Type}.
Variable uniform_int_distribution : Z -> Z -> Rng -> Z * Rng.

(** One iteration of the [while (true)] loop of [PlaceObject]: [inl] is
    [continue], [inr] leaves the loop with the result. *)
Definition PlaceObject_iter (start_x start_y end_x end_y : Z)
    (s : MiniGridEnv) (gen : Rng) : outcome ((Rng + (Z * Z) * Rng)) :=
  let '(x, gen1) := uniform_int_distribution start_x end_x gen in
  let '(y, gen2) := uniform_int_distribution start_y end_y gen1 in
  match grid_get (grid_ s) x y with
  | None => Undef
  | Some cell =>
      if negb (bool_decide (GetType cell = kEmpty)) then Ok (inl gen2)
      else if (fst (agent_pos_ s) =? x) && (snd (agent_pos_ s) =? y)
           then Ok (inl gen2)
           else Ok (inr ((x, y), gen2))
  end.

(** The loop, run for at most [fuel] iterations; [None] when the fuel is
    used up before the loop is left. *)
Fixpoint PlaceObject_loop (fuel : nat) (start_x start_y end_x end_y : Z)
    (s : MiniGridEnv) (gen : Rng) : option (outcome ((Z * Z) * Rng)) :=
  match fuel with
  | O => None
  | S fuel' =>
      match PlaceObject_iter start_x start_y end_x end_y s gen with
      | Ok (inl gen') =>
          PlaceObject_loop fuel' start_x start_y end_x end_y s gen'
      | Ok (inr res) => Some (Ok res)
      | Abort => Some Abort
      | Undef => Some Undef
      end
  end.

Definition PlaceObject (fuel : nat) (start_x start_y end_x end_y : Z)
    (s : MiniGridEnv) (gen : Rng) : option (outcome ((Z * Z) * Rng)) :=
  if (end_x <? start_x) || (end_y <? start_y) then Some Undef
  else PlaceObject_loop fuel start_x start_y end_x end_y s gen.

Definition PlaceAgent (fuel : nat) (start_x start_y end_x end_y : Z)
    (s : MiniGridEnv) (gen : Rng)
    : option (outcome (MiniGridEnv * Rng)) :=
  let end_x := if end_x =? -1 then width_ s - 1 else end_x in
  let end_y := if end_y =? -1 then height_ s - 1 else end_y in
  if negb ((start_x <=? end_x) && (start_y <=? end_y)) then Some Abort
  else
    let s1 := set_agent_pos (-1, -1) s in
    match PlaceObject fuel start_x start_y end_x end_y s1 gen with
    | None => None
    | Some Abort => Some Abort
    | Some Undef => Some Undef
    | Some (Ok (pos, gen1)) =>
        let s2 := set_agent_pos pos s1 in
        if agent_start_dir_ s2 =? -1 then
          let '(d, gen2) := uniform_int_distribution 0 3 gen1 in
          Some (Ok (set_agent_dir d s2, gen2))
        else Some (Ok (s2, gen1))
    end.

End Placement.

(** * Observation *)

(** The caller's tensor [obs(x, y, channel)] of bytes. *)
Definition Array := Z -> Z -> Z -> Z.

Definition array_set (obs : Array) (x y c : Z) (v : Z) : Array :=
  fun x' y' c' =>
    if (x' =? x) && (y' =? y) && (c' =? c) then v else obs x' y' c'.

(** [static_cast<uint8_t>]. *)
Definition uint8 (z : Z) : Z := z mod 256.

(** [for] loops over a range of indices, the loop variable taking the
    elements of [range] in order. *)
Definition for_each {S : Type} (range : list nat) (body : nat -> S -> S)
    (s : S) : S :=
  fold_left (fun acc i => body i acc) range s.

(** The local vectors of vectors of [GenImage] have [agent_view_size_] rows
    of [agent_view_size_] elements, and the loops below index them inside
    these bounds only; [view_put] with an absent value and [view_set]
    outside the vector leave it as it is. *)
Definition view_get {A} (g : list (list A)) (r c : nat) : option A :=
  match g !! r with
  | Some row => row !! c
  | None => None
  end.

Definition view_set {A} (g : list (list A)) (r c : nat) (v : A)
    : list (list A) :=
  match g !! r with
  | Some row => <[r := <[c := v]> row]> g
  | None => g
  end.

Definition view_put {A} (g : list (list A)) (r c : nat) (v : option A)
    : list (list A) :=
  match v with
  | Some a => view_set g r c a
  | None => g
  end.

Definition mask_get (m : list (list bool)) (r c : nat) : bool :=
  match view_get m r c with
  | Some b => b
  | None => false
  end.

(** One counter-clockwise rotation:
    [copy_grid[size - 1 - x][y] = agent_view_grid[y][x]]. *)
Definition rotate_ccw {A} (size : nat) (agent_view_grid : list (list A))
    : list (list A) :=
  for_each (seq 0 size) (fun y copy_grid =>
    for_each (seq 0 size) (fun x copy_grid =>
      view_put copy_grid (size - 1 - x) y (view_get agent_view_grid y x))
      copy_grid)
    agent_view_grid.

(** The top-left corner of the viewport; [None] is the final [else]. *)
Definition view_top (pos : Z * Z) (dir size : Z) : option (Z * Z) :=
  if dir =? 0 then Some (fst pos, snd pos - Z.quot size 2)
  else if dir =? 1 then Some (fst pos - Z.quot size 2, snd pos)
  else if dir =? 2 then Some (fst pos - size + 1, snd pos - Z.quot size 2)
  else if dir =? 3 then Some (fst pos - Z.quot size 2, snd pos - size + 1)
  else None.

Section Renderer.
Context `{WorldObjApi}.

(** The element placed at column [j] of row [i] of the sub-grid; [None]
    when [grid_] is smaller than [width_] x [height_] says. *)
Definition gen_view_cell (s : MiniGridEnv) (x y : Z) : option WorldObj :=
  if (0 <=? x) && (x <? width_ s) && (0 <=? y) && (y <? height_ s)
  then match grid_get (grid_ s) x y with
       | Some cell => Some (NewObj (GetType cell))
       | None => None
       end
  else Some (NewObj kWall).

Definition gen_view (s : MiniGridEnv) (top_x top_y : Z) (size : nat)
    : option (list (list WorldObj)) :=
  mapM (fun i =>
    mapM (fun j => gen_view_cell s (top_x + Z.of_nat j) (top_y + Z.of_nat i))
      (seq 0 size))
    (seq 0 size).

Definition see_behind (view : list (list WorldObj)) (j i : nat) : bool :=
  match view_get view j i with
  | Some o => CanSeeBehind o
  | None => false
  end.

(** The bodies of the two sweeps over row [j]. *)
Definition sweep_right (view : list (list WorldObj)) (j i : nat)
    (vis_mask : list (list bool)) : list (list bool) :=
  if negb (mask_get vis_mask j i) then vis_mask
  else if negb (see_behind view j i) then vis_mask
  else
    let vis_mask := view_set vis_mask j (i + 1) true in
    if (0 <? j)%nat then
      let vis_mask := view_set vis_mask (j - 1) (i + 1) true in
      view_set vis_mask (j - 1) i true
    else vis_mask.

Definition sweep_left (view : list (list WorldObj)) (j i : nat)
    (vis_mask : list (list bool)) : list (list bool) :=
  if negb (mask_get vis_mask j i) then vis_mask
  else if negb (see_behind view j i) then vis_mask
  else
    let vis_mask := view_set vis_mask j (i - 1) true in
    if (0 <? j)%nat then
      let vis_mask := view_set vis_mask (j - 1) (i - 1) true in
      view_set vis_mask (j - 1) i true
    else vis_mask.

(** The visibility mask: all true under [see_through_walls_], else the
    seed at the agent's cell propagated row by row from the bottom. *)
Definition process_vis (see_through : bool) (size : nat)
    (view : list (list WorldObj)) : list (list bool) :=
  let vis_mask := replicate size (replicate size false) in
  if negb see_through then
    let vis_mask := view_set vis_mask (size - 1) (size / 2) true in
    for_each (rev (seq 0 size)) (fun j vis_mask =>
      let vis_mask :=
        for_each (seq 0 (size - 1)) (sweep_right view j) vis_mask in
      for_each (rev (seq 1 (size - 1))) (sweep_left view j) vis_mask)
      vis_mask
  else map (map (fun _ => true)) vis_mask.

(** Cells that are not visible become [WorldObj(kEmpty)]; the loop is
    inside the [if (!see_through_walls_)]. *)
Definition hide_invisible (see_through : bool) (size : nat)
    (vis_mask : list (list bool)) (view : list (list WorldObj))
    : list (list WorldObj) :=
  if negb see_through then
    for_each (seq 0 size) (fun j view =>
      for_each (seq 0 size) (fun i view =>
        if negb (mask_get vis_mask j i)
        then view_set view j i (NewObj kEmpty)
        else view)
        view)
      view
  else view.

(** "Let the agent see what it's carrying". *)
Definition show_carrying (size : nat) (carrying : WorldObj)
    (view : list (list WorldObj)) : list (list WorldObj) :=
  if negb (bool_decide (GetType carrying = kEmpty))
  then view_set view (size - 1) (size / 2) carrying
  else view_set view (size - 1) (size / 2) (NewObj kEmpty).

Definition write_obs_cell (o : WorldObj) (x y : nat) (obs : Array) : Array :=
  let obs := array_set obs (Z.of_nat x) (Z.of_nat y) 0
               (uint8 (type_code (GetType o))) in
  let obs := array_set obs (Z.of_nat x) (Z.of_nat y) 1
               (uint8 (GetColor o)) in
  array_set obs (Z.of_nat x) (Z.of_nat y) 2 (uint8 (GetState o)).

Definition write_obs (size : nat) (vis_mask : list (list bool))
    (view : list (list WorldObj)) (obs : Array) : Array :=
  for_each (seq 0 size) (fun y obs =>
    for_each (seq 0 size) (fun x obs =>
      if mask_get vis_mask y x then
        match view_get view y x with
        | Some o => write_obs_cell o x y obs
        | None => obs
        end
      else obs)
      obs)
    obs.

(** The loop that fills [agent_view_grid], as a read of the state. *)
Definition read_view (top_x top_y : Z) (size : nat)
    : Method (list (list WorldObj)) :=
  fun s =>
    match gen_view s top_x top_y size with
    | Some view => Ok (view, s)
    | None => Undef
    end.

Local Open Scope method_scope.

(** [GenImage]. With [agent_view_size_] below 1 the construction of
    [vis_mask] or the access at row [agent_view_size_ - 1] has no defined
    result. *)
Definition GenImage (obs : Array) : Method Array :=
  dir <- member agent_dir_ ;;
  pos <- member agent_pos_ ;;
  vs <- member agent_view_size_ ;;
  top <- match view_top pos dir vs with
         | Some t => ret t
         | None => CHECK false ;;; ret pos
         end ;;
  let size := Z.to_nat vs in
  extracted <- read_view (fst top) (snd top) size ;;
  if vs <? 1 then undefined
  else
    let view := Nat.iter (Z.to_nat (dir + 1)) (rotate_ccw size) extracted in
    see_through <- member see_through_walls_ ;;
    let vis_mask := process_vis see_through size view in
    let view := hide_invisible see_through size vis_mask view in
    carried <- member carrying_ ;;
    let view := show_carrying size carried view in
    ret (write_obs size vis_mask view obs).

End Renderer.

(** * An instance of the object interface, and small worlds

    The engine is run on concrete worlds with this instance: solid objects
    (walls, closed doors, keys, balls, boxes) cannot be overlapped; keys,
    balls and boxes can be picked up; walls and closed doors hide what is
    behind them; the state code of a door is 0 open, 1 closed, 2 locked. *)
Module Sample.

Definition new_obj (t : ObjType) : WorldObj := mkWorldObj t 0 false false None.

Definition can_overlap (o : WorldObj) : bool :=
  match GetType o with
  | kEmpty | kFloor | kGoal | kLava => true
  | kDoor => GetDoorOpen o
  | _ => false
  end.

Definition can_pickup (o : WorldObj) : bool :=
  match GetType o with
  | kKey | kBall | kBox => true
  | _ => false
  end.

Definition can_see_behind (o : WorldObj) : bool :=
  match GetType o with
  | kWall => false
  | kDoor => GetDoorOpen o
  | _ => true
  end.

Definition get_state (o : WorldObj) : Z :=
  match GetType o with
  | kDoor => if GetDoorOpen o then 0 else if GetDoorLocked o then 2 else 1
  | _ => 0
  end.

Definition code (t : ObjType) : Z :=
  match t with
  | kEmpty => 1 | kWall => 2 | kFloor => 3 | kDoor => 4 | kKey => 5
  | kBall => 6 | kBox => 7 | kGoal => 8 | kLava => 9 | kAgent => 10
  end.

#[global] Instance api : WorldObjApi :=
  Build_WorldObjApi new_obj can_overlap can_pickup can_see_behind get_state
    code.

Definition E : WorldObj := new_obj kEmpty.
Definition W : WorldObj := new_obj kWall.
Definition F : WorldObj := new_obj kFloor.
Definition G : WorldObj := new_obj kGoal.
Definition key (c : Color) : WorldObj := mkWorldObj kKey c false false None.
Definition door (c : Color) (locked open : bool) : WorldObj :=
  mkWorldObj kDoor c locked open None.

(** A 5 x 5 room inside a ring of walls; [a], [b], [c] fill the cells
    (1,1), (2,1) and (3,1) of the row the agent walks along. *)
Definition room (a b c : WorldObj) : Grid :=
  [ [W; W; W; W; W];
    [W; a; b; c; W];
    [W; E; E; E; W];
    [W; E; E; E; W];
    [W; W; W; W; W] ].

Definition env (g : Grid) (pos : Z * Z) (dir : Z) (carrying : WorldObj)
    (step_count : Z) (done : bool) : MiniGridEnv :=
  mkEnv 5 5 10 3 false (-1) g pos dir carrying step_count done.

(** The episode is over and the agent faces the goal. *)
Definition done_facing_goal : MiniGridEnv :=
  env (room E E G) (2, 1) 0 E 3 true.

(** The agent holds the red key (color 0) in front of a locked red door. *)
Definition key_at_locked_door : MiniGridEnv :=
  env (room E (door 0 true false) E) (1, 1) 0 (key 0) 0 false.

(** The agent holds a key of color 1 in front of the locked door of
    color 0. *)
Definition wrong_key_at_locked_door : MiniGridEnv :=
  env (room E (door 0 true false) E) (1, 1) 0 (key 1) 0 false.

(** Empty-handed in front of a key of color 4. *)
Definition facing_key : MiniGridEnv :=
  env (room E (key 4) E) (1, 1) 0 E 0 false.

(** A generated layout that leaves the direction at 4. *)
Definition dir_four : MiniGridEnv :=
  env (room E E E) (1, 1) 4 E 7 true.

(** The agent stands on a floor tile, facing North, holding nothing. *)
Definition on_floor : MiniGridEnv :=
  env (room F E E) (1, 1) 3 E 0 false.

(** A key of color 4 lies ahead of the agent, which faces East. *)
Definition sees_key : MiniGridEnv :=
  env (room E (key 4) E) (1, 1) 0 E 0 false.

(** A key of color 4 in hand, and a free cell ahead. *)
Definition holding_key : MiniGridEnv :=
  env (room E E E) (1, 1) 0 (key 4) 0 false.

(** In front of an unlocked, closed door of color 2. *)
Definition at_unlocked_door : MiniGridEnv :=
  env (room E (door 2 false false) E) (1, 1) 0 E 0 false.

(** In front of a box of color 3 that holds a key of color 1. *)
Definition at_box : MiniGridEnv :=
  env (room E (mkWorldObj kBox 3 false false (Some (key 1))) E) (1, 1) 0 E
    0 false.

(** The world of [sees_key] with a wall in place of the key, for an agent
    that sees through walls. *)
Definition sees_through : MiniGridEnv :=
  mkEnv 5 5 10 3 true (-1) (room E W E) (1, 1) 0 E 0 false.

(** The first step of an episode is done, and the agent faces the goal. *)
Definition facing_goal : MiniGridEnv :=
  env (room E E G) (2, 1) 0 E 1 false.

(** The same place in an episode of 2^25 steps, after [step_count] of
    them. *)
Definition long_episode (step_count : Z) : MiniGridEnv :=
  mkEnv 5 5 33554432 3 false (-1) (room E E G) (2, 1) 0 E step_count false.

(** A deterministic stand-in for the random engine: the state is a
    counter, and a draw from [a, b] is [a] plus the counter reduced
    modulo the width of the interval. *)
Definition draw (a b : Z) (gen : Z) : Z * Z :=
  (a + gen mod (b - a + 1), gen + 1).

End Sample.

(** * Vocabulary of the statements *)

(** A method keeps the observation [f] of the state when every run of it
    that returns leaves [f] as it was. *)
Definition keeps {A B} (f : MiniGridEnv -> B) (m : Method A) : Prop :=
  forall s a s', m s = Ok (a, s') -> f s' = f s.

(** A method preserves the state predicate [P] when every run of it that
    starts in [P] and returns ends in [P]. *)
Definition preserves {A} (P : MiniGridEnv -> Prop) (m : Method A) : Prop :=
  forall s a s', P s -> m s = Ok (a, s') -> P s'.

(** A method is safe under the state invariant [I] when, started in [I],
    it never reads or writes outside of a vector, and ends in [I] when it
    returns. *)
Definition safe {A} (I : MiniGridEnv -> Prop) (m : Method A) : Prop :=
  forall s, I s ->
    m s <> Undef /\ forall a s', m s = Ok (a, s') -> I s'.

(** The state after the last statements of [MiniGridStep]:
    [if (step_count_ >= max_steps_) done_ = true]. *)
Definition step_epilogue (s : MiniGridEnv) : MiniGridEnv :=
  if max_steps_ s <=? step_count_ s then set_done true s else s.

(** A grid of [h] rows of [w] cells. *)
Definition grid_shape {A} (h w : nat) (g : list (list A)) : Prop :=
  length g = h /\ Forall (fun row => length row = w) g.

(** The grid matches [width_] and [height_]. *)
Definition well_formed (s : MiniGridEnv) : Prop :=
  0 <= width_ s /\ 0 <= height_ s /\
  grid_shape (Z.to_nat (height_ s)) (Z.to_nat (width_ s)) (grid_ s).

(** The world position shown at row [r], column [c] of the rendered
    viewport of an agent at [pos] facing [dir]: the sub-grid cut out at
    [view_top] and turned [dir + 1] times. *)
Definition view_to_world (pos : Z * Z) (dir size : Z) (r c : Z) : Z * Z :=
  if dir =? 0 then
    (fst pos + (size - 1 - r), snd pos - Z.quot size 2 + c)
  else if dir =? 1 then
    (fst pos - Z.quot size 2 + (size - 1 - c), snd pos + (size - 1 - r))
  else if dir =? 2 then
    (fst pos - size + 1 + r, snd pos - Z.quot size 2 + (size - 1 - c))
  else
    (fst pos - Z.quot size 2 + c, snd pos - size + 1 + r).

(** The visibility mask that [GenImage] computes in state [s]; [None] when
    [GenImage] does not get as far. *)
Definition vis_mask_of `{WorldObjApi} (s : MiniGridEnv)
    : option (list (list bool)) :=
  let size := Z.to_nat (agent_view_size_ s) in
  match view_top (agent_pos_ s) (agent_dir_ s) (agent_view_size_ s) with
  | None => None
  | Some top =>
      match gen_view s (fst top) (snd top) size with
      | None => None
      | Some extracted =>
          Some (process_vis (see_through_walls_ s) size
                  (Nat.iter (Z.to_nat (agent_dir_ s + 1)) (rotate_ccw size)
                     extracted))
      end
  end.

(** The type that [GenImage] reads for the world position [(x, y)]: the
    type of the grid cell, or Wall outside of the grid. *)
Definition world_type (s : MiniGridEnv) (x y : Z) : option ObjType :=
  if (0 <=? x) && (x <? width_ s) && (0 <=? y) && (y <? height_ s)
  then match grid_get (grid_ s) x y with
       | Some cell => Some (GetType cell)
       | None => None
       end
  else Some kWall.

(** Cell [(r, c)] of the mask has a marked neighbour whose object can be
    seen behind: next to it in its row, or in the row below it (the row
    nearer to the agent) at most one column away. *)
Definition lit_from `{WorldObjApi} (view : list (list WorldObj))
    (m : list (list bool)) (r c : nat) : Prop :=
  exists r' c',
    mask_get m r' c' = true /\ see_behind view r' c' = true /\
    ((r' = r /\ (c' + 1 = c \/ c + 1 = c')) \/
     (r' = r + 1 /\ (c' = c \/ c' + 1 = c \/ c + 1 = c')))%nat.

(** The object whose codes [write_obs] writes for the cell at row
    [fst p], column [snd p]; [None] for a cell that it skips. *)
Definition written (mask : list (list bool)) (view : list (list WorldObj))
    (p : nat * nat) : option WorldObj :=
  if mask_get mask (fst p) (snd p) then view_get view (fst p) (snd p)
  else None.

(** A cell on which [PlaceObject] leaves its loop: of type Empty, and not
    under the agent. *)
Definition free_cell (s : MiniGridEnv) (x y : Z) : Prop :=
  (exists cell, grid_get (grid_ s) x y = Some cell /\ GetType cell = kEmpty)
  /\ agent_pos_ s <> (x, y).

(** The one path of [MiniGridStep] that assigns [reward]: the action is
    [kForward] and the forward cell [(fx, fy)] holds a Goal. *)
Definition goal_ahead (act : Act) (s : MiniGridEnv) (fx fy : Z) : Prop :=
  act = kForward /\
  exists cell, grid_get (grid_ s) fx fy = Some cell /\ GetType cell = kGoal.

(** The value of a finite [float] as a quotient of integers
    [(numerator, denominator)]. *)
Definition float_ratio (x : float) : option (Z * Z) :=
  match x with
  | S754_zero _ => Some (0, 1)
  | S754_finite s m e =>
      let sm := if s then Z.neg m else Z.pos m in
      if 0 <=? e then Some (sm * 2 ^ e, 1) else Some (sm, 2 ^ (- e))
  | _ => None
  end.

(** * Vocabulary of rounding *)

(** The power [2 ^ e] as a real number; the real number [m * 2 ^ e] of a
    mantissa and an exponent; the real value of a finite float. *)
Definition bpow (e : Z) : R := powerRZ 2 e.

Definition F2R (m e : Z) : R := (IZR m * bpow e)%R.

Definition SF2R (x : spec_float) : R :=
  match x with
  | S754_finite s m e => F2R (cond_Zopp s (Z.pos m)) e
  | _ => 0%R
  end.

(** The position of a real [y] between the integers [m] and [m + 1] that a
    location records. *)
Definition inbetween (m : Z) (l : location) (y : R) : Prop :=
  match l with
  | loc_Exact => y = IZR m
  | loc_Inexact Lt => (IZR m < y < IZR m + / 2)%R
  | loc_Inexact Eq => y = (IZR m + / 2)%R
  | loc_Inexact Gt => (IZR m + / 2 < y < IZR m + 1)%R
  end.

(** The same for the mantissa and the two bits of a shift record. *)
Definition shr_repr (mrs : shr_record) (y : R) : Prop :=
  0 <= shr_m mrs /\ inbetween (shr_m mrs) (loc_of_shr_record mrs) y.

(** A mantissa of exactly [prec] digits. *)
Definition canonic (prec : Z) (m : Z) : Prop :=
  2 ^ (prec - 1) <= m < 2 ^ prec.

(** The positive numbers with a mantissa of [prec] digits, at any
    exponent. *)
Definition in_format (prec : Z) (g : R) : Prop :=
  exists m e, canonic prec m /\ g = F2R m e.

(** [f] is a number of the format that is as near to [x] as any. *)
Definition nearest (prec : Z) (x f : R) : Prop :=
  in_format prec f /\
  forall g, in_format prec g -> (Rabs (x - f) <= Rabs (x - g))%R.

(** A positive number of the format of [prec] digits. *)
Definition good (prec : Z) (f : spec_float) : Prop :=
  exists m e, f = S754_finite false m e /\ canonic prec (Z.pos m).

(** One stage of the computation: [op] rounds [g] to [p'] digits on the
    numbers of [p] digits in [dom]. *)
Definition rounds (p p' : Z) (dom : R -> Prop) (g : R -> R)
    (op : spec_float -> spec_float) : Prop :=
  forall f, good p f -> dom (SF2R f) ->
    good p' (op f) /\ nearest p' (g (SF2R f)) (SF2R (op f)).

(** The reward as a function of the two converted counts. *)
Definition reward_of (a b : spec_float) : spec_float :=
  float_of_double
    (SFsub 53 1024 (double_of_int 1)
       (SFmul 53 1024 double_0_9 (SFdiv 24 128 a b))).

(** The least reward: the [float] nearest to [1 - 0.9], a little above one
    tenth. *)
Definition least_reward : spec_float := S754_finite false 13421773 (-27).


(** * Facts about methods *)

Section MethodFacts.
Context {A B : Type}.

Lemma bind_Ok (m : Method A) (k : A -> Method B) s b s' :
  bind m k s = Ok (b, s') <->
  exists a s1, m s = Ok (a, s1) /\ k a s1 = Ok (b, s').
Proof.
  unfold bind. split.
  - destruct (m s) as [[a s1]| |]; [|discriminate..].
    intros Hk. by exists a, s1.
  - intros (a & s1 & -> & Hk). exact Hk.
Qed.

Lemma bind_Abort (m : Method A) (k : A -> Method B) s :
  bind m k s = Abort <->
  m s = Abort \/ exists a s1, m s = Ok (a, s1) /\ k a s1 = Abort.
Proof.
  unfold bind. split.
  - destruct (m s) as [[a s1]| |]; [|by left|discriminate].
    intros Hk. right. by exists a, s1.
  - intros [-> | (a & s1 & -> & Hk)]; done.
Qed.

Lemma ret_Ok (a : A) s a' s' : ret a s = Ok (a', s') <-> a' = a /\ s' = s.
Proof. unfold ret. split; [by intros [= <- <-]|by intros [-> ->]]. Qed.

Lemma member_Ok (f : MiniGridEnv -> A) s a s' :
  member f s = Ok (a, s') <-> a = f s /\ s' = s.
Proof. unfold member. split; [by intros [= <- <-]|by intros [-> ->]]. Qed.
End MethodFacts.

Lemma assign_Ok f s u s' : assign f s = Ok (u, s') <-> s' = f s.
Proof.
  unfold assign. split; [by intros [= _ <-]|intros ->; by destruct u].
Qed.

Lemma CHECK_Ok b s u s' : CHECK b s = Ok (u, s') <-> b = true /\ s' = s.
Proof.
  unfold CHECK. destruct u, b.
  - split; [by intros [= <-]|by intros [_ ->]].
  - split; [done|by intros [? _]].
Qed.

Lemma read_cell_Ok x y s o s' :
  read_cell x y s = Ok (o, s') <->
  grid_get (grid_ s) x y = Some o /\ s' = s.
Proof.
  unfold read_cell. destruct (grid_get _ _ _).
  - split; [by intros [= <- <-]|by intros [[= <-] ->]].
  - split; [done|by intros [? _]].
Qed.

Lemma write_cell_Ok x y v s u s' :
  write_cell x y v s = Ok (u, s') <->
  is_Some (grid_get (grid_ s) x y) /\
  s' = set_grid (grid_set (grid_ s) x y v) s.
Proof.
  unfold write_cell. destruct u, (grid_get _ _ _).
  - split; [by intros [= <-]|by intros [_ ->]].
  - split; [done|by intros [[? ?] _]].
Qed.

(** Reduction of the record projections and setters, and nothing else. *)
Ltac env_simpl :=
  cbn [fst snd width_ height_ max_steps_ agent_view_size_ see_through_walls_
       agent_start_dir_ grid_ agent_pos_ agent_dir_ carrying_ step_count_
       done_ set_grid set_agent_pos set_agent_dir set_carrying set_step_count
       set_done andb orb negb] in *.

(** Inversion of a run that returned, one statement at a time. *)
Ltac inv_method_step :=
  match goal with
  | H : bind _ _ _ = Ok _ |- _ =>
      apply bind_Ok in H as (? & ? & ? & H); cbv beta in H
  | H : ret _ _ = Ok _ |- _ => apply ret_Ok in H as [? ?]
  | H : member _ _ = Ok _ |- _ => apply member_Ok in H as [? ?]
  | H : assign _ _ = Ok _ |- _ => apply assign_Ok in H
  | H : CHECK _ _ = Ok _ |- _ => apply CHECK_Ok in H as [? ?]
  | H : read_cell _ _ _ = Ok _ |- _ => apply read_cell_Ok in H as [? ?]
  | H : write_cell _ _ _ _ = Ok _ |- _ => apply write_cell_Ok in H as [? ?]
  | H : undefined _ = Ok _ |- _ => discriminate H
  | H : when ?b _ _ = Ok _ |- _ => unfold when in H
  | H : (if ?b then _ else _) _ = Ok _ |- _ => destruct b eqn:?
  | H : (match ?x with Some _ => _ | None => _ end) _ = Ok _ |- _ =>
      destruct x eqn:?
  end.

Ltac inv_method := repeat (inv_method_step; subst).

Section KeepsFacts.
Context {B : Type} (f : MiniGridEnv -> B).

Lemma keeps_ret {A} (a : A) : keeps f (ret a).
Proof. intros s a' s' [_ ->]%ret_Ok. done. Qed.

Lemma keeps_bind {A C} (m : Method A) (k : A -> Method C) :
  keeps f m -> (forall a, keeps f (k a)) -> keeps f (bind m k).
Proof.
  intros Hm Hk s c s' (a & s1 & H1 & H2)%bind_Ok.
  rewrite (Hk a _ _ _ H2). eauto.
Qed.

Lemma keeps_member {A} (g : MiniGridEnv -> A) : keeps f (member g).
Proof. intros s a s' [_ ->]%member_Ok. done. Qed.

Lemma keeps_CHECK b : keeps f (CHECK b).
Proof. intros s a s' [_ ->]%CHECK_Ok. done. Qed.

Lemma keeps_undefined {A} : keeps f (@undefined A).
Proof. intros s a s'. done. Qed.

Lemma keeps_assign (g : MiniGridEnv -> MiniGridEnv) :
  (forall s, f (g s) = f s) -> keeps f (assign g).
Proof. intros Hg s a s' ->%assign_Ok. apply Hg. Qed.

Lemma keeps_when b (m : Method unit) : keeps f m -> keeps f (when b m).
Proof. intros Hm. destruct b; [done|]. apply keeps_ret. Qed.

Lemma keeps_read_cell x y : keeps f (read_cell x y).
Proof. intros s a s' [_ ->]%read_cell_Ok. done. Qed.

Lemma keeps_write_cell x y v :
  (forall g s, f (set_grid g s) = f s) -> keeps f (write_cell x y v).
Proof. intros Hg s a s' [_ ->]%write_cell_Ok. apply Hg. Qed.
End KeepsFacts.

Ltac keeps_step :=
  match goal with
  | |- keeps _ (bind _ _) => apply keeps_bind; [|intros ?]
  | |- keeps _ (ret _) => apply keeps_ret
  | |- keeps _ (member _) => apply keeps_member
  | |- keeps _ (CHECK _) => apply keeps_CHECK
  | |- keeps _ undefined => apply keeps_undefined
  | |- keeps _ (when _ _) => apply keeps_when
  | |- keeps _ (read_cell _ _) => apply keeps_read_cell
  | |- keeps _ (write_cell _ _ _) => apply keeps_write_cell; intros; reflexivity
  | |- keeps _ (assign _) => apply keeps_assign; intros; reflexivity
  | |- keeps _ (if ?b then _ else _) => destruct b
  | |- keeps _ (match ?x with _ => _ end) => destruct x
  end.

(** * Facts about the grid *)

Lemma grid_get_Some (g : Grid) x y o :
  grid_get g x y = Some o <->
  0 <= x /\ 0 <= y /\
  exists row, g !! Z.to_nat y = Some row /\ row !! Z.to_nat x = Some o.
Proof.
  unfold grid_get. split.
  - destruct (0 <=? x) eqn:Ex, (0 <=? y) eqn:Ey; try done.
    cbn [andb]. destruct (g !! Z.to_nat y) as [row|] eqn:Hr; [|done].
    intros Ho. repeat split; [lia..|]. by exists row.
  - intros (Hx & Hy & row & -> & Ho).
    assert ((0 <=? x) = true /\ (0 <=? y) = true) as [-> ->] by lia. done.
Qed.

Lemma grid_get_set_eq (g : Grid) x y o v :
  grid_get g x y = Some o -> grid_get (grid_set g x y v) x y = Some v.
Proof.
  intros (Hx & Hy & row & Hr & Ho)%grid_get_Some.
  apply grid_get_Some. repeat split; [done..|].
  unfold grid_set. rewrite Hr. exists (<[Z.to_nat x := v]> row). split.
  - apply list_lookup_insert_eq. by eapply lookup_lt_Some.
  - apply list_lookup_insert_eq. by eapply lookup_lt_Some.
Qed.

Lemma grid_get_set_ne (g : Grid) x y x' y' v :
  0 <= x -> 0 <= y -> 0 <= x' -> 0 <= y' -> (x', y') <> (x, y) ->
  grid_get (grid_set g x y v) x' y' = grid_get g x' y'.
Proof.
  intros Hx Hy Hx' Hy' Hne. unfold grid_get, grid_set.
  destruct ((0 <=? x') && (0 <=? y')); [|done].
  destruct (g !! Z.to_nat y) as [row|] eqn:Hr; [|done].
  destruct (decide (Z.to_nat y = Z.to_nat y')) as [Heq|Hney].
  - rewrite <- Heq. rewrite list_lookup_insert_eq by (by eapply lookup_lt_Some).
    rewrite Hr. apply list_lookup_insert_ne.
    intros Hxx. apply Hne. f_equal; lia.
  - by rewrite list_lookup_insert_ne.
Qed.

Lemma grid_set_set_id (g : Grid) x y o v :
  grid_get g x y = Some o -> grid_set (grid_set g x y v) x y o = g.
Proof.
  intros (Hx & Hy & row & Hr & Ho)%grid_get_Some.
  unfold grid_set. rewrite Hr.
  rewrite list_lookup_insert_eq by (by eapply lookup_lt_Some).
  rewrite !list_insert_insert_eq.
  rewrite (list_insert_id row) by done. by apply list_insert_id.
Qed.

Lemma grid_set_shape (g : Grid) h w x y v :
  grid_shape h w g -> grid_shape h w (grid_set g x y v).
Proof.
  intros [Hh Hw]. unfold grid_set.
  destruct (g !! Z.to_nat y) as [row|] eqn:Hr; [|done].
  split; [by rewrite length_insert|].
  apply Forall_insert; [done|]. rewrite length_insert.
  by eapply (Forall_lookup_1 _ _ _ _ Hw).
Qed.

Lemma grid_get_in_shape (g : Grid) h w x y :
  grid_shape h w g -> 0 <= x < Z.of_nat w -> 0 <= y < Z.of_nat h ->
  is_Some (grid_get g x y).
Proof.
  intros [Hh Hw] Hx Hy.
  destruct (lookup_lt_is_Some_2 g (Z.to_nat y)) as [row Hr]; [lia|].
  pose proof (Forall_lookup_1 _ _ _ _ Hw Hr) as Hlen. cbv beta in Hlen.
  destruct (lookup_lt_is_Some_2 row (Z.to_nat x)) as [o Ho]; [lia|].
  exists o. apply grid_get_Some. repeat split; [lia..|]. by exists row.
Qed.

(** * The stepper *)

#[global] Instance Sample_laws : @WorldObjLaws Sample.api.
Proof.
  split.
  - done.
  - intros [t c l o x]. by destruct t.
Qed.

Section StepFacts.
Context `{WorldObjApi}.

(** [MiniGridStep] on a state whose forward cell lies in the grid bounds:
    the selected branch runs after the increment, the epilogue after it. *)
Lemma step_run act s fx fy :
  forward_pos (agent_pos_ s) (agent_dir_ s) = Some (fx, fy) ->
  0 <= fx < width_ s -> 0 <= fy < height_ s ->
  MiniGridStep act s =
    match step_action act (fx, fy) (set_step_count (step_count_ s + 1) s) with
    | Ok (r, s1) => Ok (r, step_epilogue s1)
    | Abort => Abort
    | Undef => Undef
    end.
Proof.
  intros Hf Hx Hy.
  unfold MiniGridStep, bind, member, assign, CHECK, when, ret, step_epilogue.
  env_simpl. rewrite Hf. env_simpl.
  assert (Hb : (0 <=? fx) = true /\ (fx <? width_ s) = true /\
               (0 <=? fy) = true /\ (fy <? height_ s) = true) by lia.
  destruct Hb as (-> & -> & -> & ->).
  destruct (step_action act (fx, fy) _) as [[r s1]| |]; [|done..].
  by destruct (max_steps_ s1 <=? step_count_ s1).
Qed.

Lemma step_inv act s r s' :
  MiniGridStep act s = Ok (r, s') ->
  exists fx fy s1,
    forward_pos (agent_pos_ s) (agent_dir_ s) = Some (fx, fy) /\
    (0 <= fx < width_ s /\ 0 <= fy < height_ s) /\
    step_action act (fx, fy) (set_step_count (step_count_ s + 1) s)
      = Ok (r, s1) /\
    s' = step_epilogue s1.
Proof.
  intros Hs.
  destruct (forward_pos (agent_pos_ s) (agent_dir_ s)) as [[fx fy]|] eqn:Hf.
  - revert Hs.
    unfold MiniGridStep, bind, member, assign, CHECK, when, ret, step_epilogue.
    env_simpl. rewrite Hf. env_simpl.
    destruct (0 <=? fx) eqn:E1; [|done].
    destruct (fx <? width_ s) eqn:E2; [|done].
    destruct (0 <=? fy) eqn:E3; [|done].
    destruct (fy <? height_ s) eqn:E4; [|done].
    destruct (step_action act (fx, fy) _) as [[r1 s1]| |] eqn:Ha; [|done..].
    intros Hs. exists fx, fy, s1. split; [done|]. split; [lia|].
    destruct (max_steps_ s1 <=? step_count_ s1); by simplify_eq.
  - revert Hs.
    unfold MiniGridStep, bind, member, assign, CHECK, when, ret.
    env_simpl. by rewrite Hf.
Qed.

Lemma step_epilogue_fields s :
  grid_ (step_epilogue s) = grid_ s /\
  carrying_ (step_epilogue s) = carrying_ s /\
  agent_pos_ (step_epilogue s) = agent_pos_ s /\
  agent_dir_ (step_epilogue s) = agent_dir_ s /\
  width_ (step_epilogue s) = width_ s /\
  height_ (step_epilogue s) = height_ s /\
  step_count_ (step_epilogue s) = step_count_ s /\
  max_steps_ (step_epilogue s) = max_steps_ s.
Proof. unfold step_epilogue. by destruct (_ <=? _). Qed.

Lemma step_action_toggle_keeps_carrying fwd :
  keeps carrying_ (step_action kToggle fwd).
Proof.
  unfold step_action, toggle_door, toggle_box. cbv zeta.
  repeat keeps_step.
Qed.

(** ** C10: Toggle leaves the carried object alone *)

(** C10. Every run of [MiniGridStep(kToggle)] that returns leaves
    [carrying_] as it was; a key that unlocks a door stays in the agent's
    hand. *)
Theorem toggle_keeps_carrying s r s' :
  MiniGridStep kToggle s = Ok (r, s') -> carrying_ s' = carrying_ s.
Proof.
  intros (fx & fy & s1 & _ & _ & Ha & ->)%step_inv.
  apply step_action_toggle_keeps_carrying in Ha.
  by destruct (step_epilogue_fields s1) as (_ & -> & _).
Qed.

(** ** C2: toggling a locked door *)

(** C2. In front of a locked door, [kToggle] with a key of the door's color
    in hand opens the door: the open flag of the door is set and its locked
    flag is cleared, its type and color staying as they were. With anything
    else in hand (no key, or a key of another color) the door, and the whole
    grid, is left as it was: an open flag that is false stays false. *)
Theorem toggle_locked_door s fx fy door :
  forward_pos (agent_pos_ s) (agent_dir_ s) = Some (fx, fy) ->
  0 <= fx < width_ s -> 0 <= fy < height_ s ->
  grid_get (grid_ s) fx fy = Some door ->
  GetType door = kDoor ->
  GetDoorLocked door = true ->
  exists s' door',
    MiniGridStep kToggle s = Ok (float_zero, s') /\
    grid_get (grid_ s') fx fy = Some door' /\
    (GetType (carrying_ s) = kKey /\
     GetColor (carrying_ s) = GetColor door ->
     GetDoorOpen door' = true /\ GetDoorLocked door' = false /\
     GetType door' = kDoor /\ GetColor door' = GetColor door) /\
    (GetType (carrying_ s) <> kKey \/
     GetColor (carrying_ s) <> GetColor door ->
     door' = door /\ grid_ s' = grid_ s /\
     (GetDoorOpen door = false -> GetDoorOpen door' = false)).
Proof.
  intros Hf Hx Hy Hc Hdoor Hlocked.
  rewrite (step_run _ _ _ _ Hf Hx Hy).
  unfold step_action, toggle_door, bind, member, when, ret, read_cell,
    write_cell.
  env_simpl. rewrite Hc. env_simpl.
  rewrite (bool_decide_eq_true_2 _ Hdoor), Hlocked. env_simpl.
  destruct (bool_decide (GetType (carrying_ s) = kKey)
            && (GetColor (carrying_ s) =? GetColor door)) eqn:Hkey.
  - env_simpl. rewrite Hc. env_simpl. rewrite Hc.
    eexists. exists (SetDoorOpen true door). split; [reflexivity|].
    apply andb_true_iff in Hkey as [Hk%bool_decide_eq_true Hcol%Z.eqb_eq].
    split; [|split; [|intros [? | ?]; done]].
    + destruct (step_epilogue_fields
        (set_grid (grid_set (grid_ s) fx fy (SetDoorOpen true door))
           (set_step_count (step_count_ s + 1) s))) as (-> & _).
      env_simpl. by eapply grid_get_set_eq.
    + intros _. by destruct door.
  - eexists. exists door. split; [reflexivity|].
    destruct (step_epilogue_fields (set_step_count (step_count_ s + 1) s))
      as (-> & _). env_simpl. split; [done|].
    apply andb_false_iff in Hkey as [Hk%bool_decide_eq_false | Hcol%Z.eqb_neq].
    + split; [intros [? _]; done|done].
    + split; [intros [_ ?]; done|done].
Qed.

(** ** C3: the checks of Reset *)

(** C3, as the code has it. Take a layout, generated by [GenGrid], whose
    grid has [height_] rows of [width_] cells and whose agent position is not
    beyond them ([x < width_], [y < height_]), so that line 40 reads a cell
    of the grid whenever it is reached. Then [MiniGridReset] fails a [CHECK]
    exactly when a coordinate of the agent or its direction is negative, or
    the agent's cell cannot be overlapped; the upper bound of the direction
    is not checked. Otherwise it returns with [step_count_] 0, [done_]
    false and [carrying_] a fresh Empty object, and the layout as
    generated. *)
Theorem reset_checks GenGrid s s1 :
  GenGrid s = Ok (tt, s1) ->
  let x := fst (agent_pos_ s1) in
  let y := snd (agent_pos_ s1) in
  well_formed s1 -> x < width_ s1 -> y < height_ s1 ->
  (MiniGridReset GenGrid s = Abort <->
     x < 0 \/ y < 0 \/ agent_dir_ s1 < 0 \/
     exists cell,
       grid_get (grid_ s1) x y = Some cell /\ CanOverlap cell = false) /\
  (MiniGridReset GenGrid s <> Abort ->
     exists s',
       MiniGridReset GenGrid s = Ok (tt, s') /\
       step_count_ s' = 0 /\ done_ s' = false /\
       carrying_ s' = NewObj kEmpty /\
       grid_ s' = grid_ s1 /\ agent_pos_ s' = agent_pos_ s1 /\
       agent_dir_ s' = agent_dir_ s1).
Proof.
  intros Hgen x y (Hw & Hh & Hshape) Hxw Hyh.
  unfold MiniGridReset, bind, member, assign, CHECK, ret, read_cell.
  rewrite Hgen. env_simpl. fold x y.
  destruct (0 <=? x) eqn:Ex; env_simpl.
  2: { split; [split; [intros _; left; lia|done]|done]. }
  destruct (0 <=? y) eqn:Ey; env_simpl.
  2: { split; [split; [intros _; right; left; lia|done]|done]. }
  destruct (0 <=? agent_dir_ s1) eqn:Ed; env_simpl.
  2: { split; [split; [intros _; do 2 right; left; lia|done]|done]. }
  fold x y.
  destruct (grid_get_in_shape _ _ _ x y Hshape) as [cell Hc]; [lia..|].
  rewrite Hc. env_simpl.
  destruct (CanOverlap cell) eqn:Ho; env_simpl.
  - split.
    + split; [done|]. intros [|[|[|(c & ? & ?)]]]; [lia..|congruence].
    + intros _. eexists. split; [reflexivity|done].
  - split.
    + split; [|done]. intros _. do 3 right. by exists cell.
    + done.
Qed.

End StepFacts.

Section StepClaims.
Context `{WorldObjApi}.

(** [MiniGridStep] assigns [true] to [done_] and nothing else. *)
Lemma step_action_done_latch act fwd :
  preserves (fun s => done_ s = true) (step_action act fwd).
Proof.
  intros s r s' Hd Ha. destruct fwd as [fx fy].
  unfold step_action, toggle_door, toggle_box in Ha.
  destruct act; cbv zeta in Ha; inv_method; env_simpl; done.
Qed.

(** The reward is the literal [0.0] on every path but one. *)
Lemma step_action_reward act fx fy s r s' :
  step_action act (fx, fy) s = Ok (r, s') ->
  r = float_zero \/
  act = kForward /\
  exists cell,
    grid_get (grid_ s) fx fy = Some cell /\ GetType cell = kGoal /\
    r = goal_reward (step_count_ s) (max_steps_ s).
Proof.
  intros Ha. unfold step_action, toggle_door, toggle_box in Ha.
  destruct act; cbv zeta in Ha; inv_method; env_simpl; auto.
  all: right; split; [done|]; eexists; split; [eassumption|].
  all: split; [by eapply bool_decide_eq_true_1|done].
Qed.

(** The path through line 84: a step forward towards a Goal returns the
    goal reward. *)
Lemma step_action_goal_reward fx fy s r s' cell :
  step_action kForward (fx, fy) s = Ok (r, s') ->
  grid_get (grid_ s) fx fy = Some cell -> GetType cell = kGoal ->
  r = goal_reward (step_count_ s) (max_steps_ s).
Proof.
  intros Ha Hcell Hgoal. unfold step_action in Ha. cbv zeta in Ha.
  inv_method; env_simpl;
    repeat match goal with
    | Hc : grid_get (grid_ s) fx fy = Some ?c |- _ =>
        rewrite Hcell in Hc; injection Hc as <-
    end;
    try done;
    match goal with
    | Hb : bool_decide (GetType cell = kGoal) = false |- _ =>
        by rewrite (bool_decide_eq_true_2 _ Hgoal) in Hb
    end.
Qed.

(** ** C5: stepping after the end of the episode *)

(** C5, as the code has it. [MiniGridStep] does not read [done_]. Called
    with [done_] set it leaves it set; it returns the goal reward of the
    incremented step count when the action is [kForward] and the forward
    cell holds a Goal, as in a running episode, and the reward 0 in every
    other case. *)
Theorem step_when_done act s r s' :
  done_ s = true ->
  MiniGridStep act s = Ok (r, s') ->
  done_ s' = true /\
  exists fx fy,
    forward_pos (agent_pos_ s) (agent_dir_ s) = Some (fx, fy) /\
    (goal_ahead act s fx fy ->
     r = goal_reward (step_count_ s + 1) (max_steps_ s)) /\
    (~ goal_ahead act s fx fy -> r = float_zero).
Proof.
  intros Hdone (fx & fy & s1 & Hf & _ & Ha & ->)%step_inv. split.
  - apply step_action_done_latch in Ha; [|done].
    unfold step_epilogue. by destruct (_ <=? _).
  - exists fx, fy. split; [done|]. split.
    + intros [-> (cell & Hcell & Hgoal)].
      exact (step_action_goal_reward _ _ _ _ _ _ Ha Hcell Hgoal).
    + intros Hno.
      apply step_action_reward in Ha as [?|(? & cell & ? & ? & ?)]; [done|].
      exfalso. apply Hno. split; [done|]. by exists cell.
Qed.

(** ** C7: Pickup, then Drop *)

(** C7. For an agent that carries an Empty object and faces a cell whose
    object can be picked up, [kPickup] moves the object into [carrying_]
    and leaves a fresh Empty object in the cell; [kDrop] then puts the
    object back: the grid is the one before the two steps, and
    [carrying_] is a fresh Empty object. *)
Theorem pickup_then_drop `{!WorldObjLaws} s fx fy cell :
  forward_pos (agent_pos_ s) (agent_dir_ s) = Some (fx, fy) ->
  0 <= fx < width_ s -> 0 <= fy < height_ s ->
  grid_get (grid_ s) fx fy = Some cell ->
  GetType (carrying_ s) = kEmpty ->
  CanPickup cell = true ->
  exists s1 s2,
    MiniGridStep kPickup s = Ok (float_zero, s1) /\
    carrying_ s1 = cell /\
    grid_get (grid_ s1) fx fy = Some (NewObj kEmpty) /\
    MiniGridStep kDrop s1 = Ok (float_zero, s2) /\
    grid_get (grid_ s2) fx fy = Some cell /\
    grid_ s2 = grid_ s /\
    carrying_ s2 = NewObj kEmpty /\ GetType (carrying_ s2) = kEmpty.
Proof.
  intros Hf Hx Hy Hc Hcar Hpick.
  pose proof (CanPickup_not_Empty _ Hpick) as Hne.
  pose proof (GetType_NewObj kEmpty) as Hnew.
  assert (exists s1, MiniGridStep kPickup s = Ok (float_zero, s1) /\
            grid_ s1 = grid_set (grid_ s) fx fy (NewObj kEmpty) /\
            carrying_ s1 = cell /\
            agent_pos_ s1 = agent_pos_ s /\ agent_dir_ s1 = agent_dir_ s /\
            width_ s1 = width_ s /\ height_ s1 = height_ s)
    as (s1 & Hs1 & Hg1 & Hc1 & Hp & Hd & Hw & Hh).
  { eexists. split.
    - rewrite (step_run _ _ _ _ Hf Hx Hy).
      unfold step_action, bind, member, assign, when, ret, read_cell,
        write_cell.
      env_simpl. rewrite Hc. env_simpl. rewrite Hcar, Hpick.
      rewrite bool_decide_eq_true_2 by done. env_simpl. rewrite Hc.
      reflexivity.
    - unfold step_epilogue. by destruct (_ <=? _). }
  assert (Hget1 : grid_get (grid_ s1) fx fy = Some (NewObj kEmpty))
    by (rewrite Hg1; by eapply grid_get_set_eq).
  exists s1. eexists. do 3 (split; [done|]). split.
  { rewrite (step_run kDrop s1 fx fy) by (rewrite ?Hp, ?Hd, ?Hw, ?Hh; done).
    unfold step_action, bind, member, assign, when, ret, read_cell,
      write_cell.
    env_simpl. rewrite Hget1. env_simpl. rewrite Hc1, Hnew.
    rewrite (bool_decide_eq_false_2 _ Hne),
      (bool_decide_eq_true_2 (kEmpty = kEmpty)) by done.
    env_simpl. rewrite Hget1.
    rewrite Hg1, (grid_set_set_id _ _ _ _ _ Hc). reflexivity. }
  unfold step_epilogue. destruct (_ <=? _); env_simpl; by rewrite ?Hc, ?Hnew.
Qed.

End StepClaims.

(** ** Runs on the sample worlds *)

(** C10 at a world: the key that opens the door is still in hand. *)
Lemma toggle_keeps_carrying_witness :
  exists r s',
    MiniGridStep kToggle Sample.key_at_locked_door = Ok (r, s') /\
    carrying_ s' = Sample.key 0.
Proof.
  destruct (MiniGridStep kToggle Sample.key_at_locked_door)
    as [[r s']| |] eqn:Hstep; [|by vm_compute in Hstep..].
  exists r, s'. split; [reflexivity|].
  exact (toggle_keeps_carrying Sample.key_at_locked_door r s' Hstep).
Defined.

(** C2 at the two worlds with a key in hand: the matching key opens and
    unlocks the door, the other key leaves it closed. *)
Lemma toggle_locked_door_witness :
  (exists s' door',
     MiniGridStep kToggle Sample.key_at_locked_door = Ok (float_zero, s') /\
     grid_get (grid_ s') 2 1 = Some door' /\
     GetDoorOpen door' = true /\ GetDoorLocked door' = false) /\
  (exists s' door',
     MiniGridStep kToggle Sample.wrong_key_at_locked_door
       = Ok (float_zero, s') /\
     grid_get (grid_ s') 2 1 = Some door' /\
     GetDoorOpen door' = false /\
     grid_ s' = grid_ Sample.wrong_key_at_locked_door).
Proof.
  split.
  - destruct (toggle_locked_door Sample.key_at_locked_door 2 1
                (Sample.door 0 true false))
      as (s' & door' & Hs' & Hd' & Hkey & _);
      [reflexivity|vm_compute; by split..| | | |].
    + reflexivity.
    + reflexivity.
    + reflexivity.
    + exists s', door'. split; [exact Hs'|]. split; [exact Hd'|].
      destruct Hkey as (Ho & Hl & _); [by split|]. by split.
  - destruct (toggle_locked_door Sample.wrong_key_at_locked_door 2 1
                (Sample.door 0 true false))
      as (s' & door' & Hs' & Hd' & _ & Hwrong);
      [reflexivity|vm_compute; by split..| | | |].
    + reflexivity.
    + reflexivity.
    + reflexivity.
    + exists s', door'. split; [exact Hs'|]. split; [exact Hd'|].
      destruct Hwrong as (_ & Hg & Ho); [by right|].
      split; [by apply Ho|exact Hg].
Defined.

(** C3 at a world: a well-placed agent passes the checks. *)
Lemma reset_checks_witness :
  exists s',
    MiniGridReset (ret tt) Sample.facing_key = Ok (tt, s') /\
    step_count_ s' = 0 /\ done_ s' = false /\ carrying_ s' = Sample.E.
Proof.
  pose proof (reset_checks (ret tt) Sample.facing_key Sample.facing_key
                eq_refl) as Hr.
  cbv zeta in Hr. destruct Hr as [_ Hok].
  - split; [done|]. split; [done|]. split; [done|]. by repeat constructor.
  - reflexivity.
  - reflexivity.
  - destruct Hok as (s' & Hs' & Hsc & Hd & Hc & _); [done|].
    exists s'. by repeat split.
Defined.

(** The claim C3 fails on the direction: a layout that leaves the direction
    at 4, outside of 0..3, with the agent on a free cell of the grid, passes
    every check. *)
Lemma reset_accepts_direction_four :
  agent_dir_ Sample.dir_four = 4 /\
  MiniGridReset (ret tt) Sample.dir_four <> Abort /\
  exists s', MiniGridReset (ret tt) Sample.dir_four = Ok (tt, s').
Proof. split; [done|]. split; [done|]. by eexists. Qed.

(** C5 at a world: the episode is over, and the step forward onto the goal
    is rewarded. *)
Lemma step_when_done_witness :
  exists r s',
    MiniGridStep kForward Sample.done_facing_goal = Ok (r, s') /\
    done_ s' = true /\ r = goal_reward 4 10.
Proof.
  destruct (MiniGridStep kForward Sample.done_facing_goal)
    as [[r s']| |] eqn:Hstep; [|by vm_compute in Hstep..].
  exists r, s'. split; [reflexivity|].
  destruct (step_when_done kForward Sample.done_facing_goal r s' eq_refl
              Hstep) as (Hd & fx & fy & Hf & Hgoal & _).
  split; [exact Hd|]. apply Hgoal.
  vm_compute in Hf. injection Hf as <- <-.
  split; [reflexivity|]. exists Sample.G. by split.
Defined.

(** The claim C5 fails: with [done_] set, a step forward onto the goal
    returns the goal reward, 10737418 / 2^24, about 0.64. *)
Lemma step_when_done_rewarded :
  done_ Sample.done_facing_goal = true /\
  exists s',
    MiniGridStep kForward Sample.done_facing_goal
      = Ok (S754_finite false 10737418 (-24), s') /\
    S754_finite false 10737418 (-24) <> float_zero.
Proof. split; [done|]. eexists. split; [by vm_compute|done]. Qed.

(** C7 at a world. *)
Lemma pickup_then_drop_witness :
  exists s1 s2,
    MiniGridStep kPickup Sample.facing_key = Ok (float_zero, s1) /\
    carrying_ s1 = Sample.key 4 /\
    MiniGridStep kDrop s1 = Ok (float_zero, s2) /\
    grid_ s2 = grid_ Sample.facing_key /\
    carrying_ s2 = Sample.E.
Proof.
  destruct (pickup_then_drop Sample.facing_key 2 1 (Sample.key 4))
    as (s1 & s2 & H1 & H2 & _ & H3 & _ & H4 & H5 & _);
    [reflexivity|vm_compute; by split..|reflexivity|reflexivity|reflexivity|].
  exists s1, s2. by repeat split.
Defined.

(** * Vectors of vectors *)

Section ViewFacts.
Context {A : Type}.
Implicit Types (g : list (list A)) (row : list A).

Lemma view_get_Some g r c a :
  view_get g r c = Some a <->
  exists row, g !! r = Some row /\ row !! c = Some a.
Proof.
  unfold view_get. destruct (g !! r) as [row|]; split.
  - intros Hc. by exists row.
  - by intros (row' & [= <-] & Hc).
  - done.
  - by intros (row' & ? & _).
Qed.

Lemma view_get_in_shape g h w r c :
  grid_shape h w g -> (r < h)%nat -> (c < w)%nat ->
  is_Some (view_get g r c).
Proof.
  intros [Hh Hw] Hr Hc.
  destruct (lookup_lt_is_Some_2 g r) as [row Hrow]; [lia|].
  pose proof (Forall_lookup_1 _ _ _ _ Hw Hrow) as Hlen. cbv beta in Hlen.
  destruct (lookup_lt_is_Some_2 row c) as [a Ha]; [lia|].
  exists a. apply view_get_Some. by exists row.
Qed.

Lemma view_set_shape g h w r c v :
  grid_shape h w g -> grid_shape h w (view_set g r c v).
Proof.
  intros [Hh Hw]. unfold view_set.
  destruct (g !! r) as [row|] eqn:Hr; [|done].
  split; [by rewrite length_insert|].
  apply Forall_insert; [done|]. rewrite length_insert.
  by eapply (Forall_lookup_1 _ _ _ _ Hw).
Qed.

Lemma view_put_shape g h w r c ov :
  grid_shape h w g -> grid_shape h w (view_put g r c ov).
Proof. destruct ov; [apply view_set_shape|done]. Qed.

Lemma view_get_set_eq g h w r c v :
  grid_shape h w g -> (r < h)%nat -> (c < w)%nat ->
  view_get (view_set g r c v) r c = Some v.
Proof.
  intros [Hh Hw] Hr Hc. unfold view_set.
  destruct (lookup_lt_is_Some_2 g r) as [row Hrow]; [lia|]. rewrite Hrow.
  pose proof (Forall_lookup_1 _ _ _ _ Hw Hrow) as Hlen. cbv beta in Hlen.
  apply view_get_Some. exists (<[c := v]> row). split.
  - apply list_lookup_insert_eq. lia.
  - apply list_lookup_insert_eq. lia.
Qed.

Lemma view_get_set_ne g r c r' c' v :
  (r', c') <> (r, c) ->
  view_get (view_set g r c v) r' c' = view_get g r' c'.
Proof.
  intros Hne. unfold view_set, view_get.
  destruct (g !! r) as [row|] eqn:Hr; [|done].
  destruct (decide (r = r')) as [<-|Hr'].
  - rewrite list_lookup_insert_eq by (by eapply lookup_lt_Some).
    rewrite Hr. apply list_lookup_insert_ne. congruence.
  - by rewrite list_lookup_insert_ne.
Qed.

(** Two grids of one shape with the same elements are equal. *)
Lemma view_ext g1 g2 h w :
  grid_shape h w g1 -> grid_shape h w g2 ->
  (forall r c, (r < h)%nat -> (c < w)%nat ->
     view_get g1 r c = view_get g2 r c) ->
  g1 = g2.
Proof.
  intros [Hh1 Hw1] [Hh2 Hw2] Heq.
  apply (list_eq_same_length _ _ h); [done..|].
  intros r row1 row2 Hr H1 H2.
  pose proof (Forall_lookup_1 _ _ _ _ Hw1 H1) as Hl1.
  pose proof (Forall_lookup_1 _ _ _ _ Hw2 H2) as Hl2. cbv beta in Hl1, Hl2.
  apply (list_eq_same_length _ _ w); [done..|].
  intros c a1 a2 Hc Ha1 Ha2.
  specialize (Heq r c Hr Hc). unfold view_get in Heq.
  rewrite H1, H2, Ha1, Ha2 in Heq. by injection Heq.
Qed.

(** ** Loops that write one element per iteration *)

Context {P : Type} (dst : P -> nat * nat) (val : P -> option A).

Let step (acc : list (list A)) (p : P) : list (list A) :=
  view_put acc (fst (dst p)) (snd (dst p)) (val p).

Lemma scatter_shape l g h w :
  grid_shape h w g -> grid_shape h w (fold_left step l g).
Proof.
  revert g. induction l as [|p l IH]; intros g Hg; [done|].
  cbn [fold_left]. apply IH. by apply view_put_shape.
Qed.

Lemma scatter_miss l g r c :
  (forall p, p ∈ l -> dst p <> (r, c) \/ val p = None) ->
  view_get (fold_left step l g) r c = view_get g r c.
Proof.
  revert g. induction l as [|p l IH]; intros g Hl; [done|].
  cbn [fold_left]. rewrite IH by (intros; apply Hl; by right).
  unfold step. destruct (Hl p) as [Hne| ->]; [by left| |done].
  destruct (val p); [|done]. cbn [view_put].
  apply view_get_set_ne. intros [= -> ->]. apply Hne. by destruct (dst p).
Qed.

Lemma scatter_hit l g h w r c v :
  grid_shape h w g -> (r < h)%nat -> (c < w)%nat ->
  (exists p, p ∈ l /\ dst p = (r, c)) ->
  (forall p, p ∈ l -> dst p = (r, c) -> val p = Some v) ->
  view_get (fold_left step l g) r c = Some v.
Proof.
  intros Hg Hr Hc. revert g Hg.
  induction l as [|p l IH]; intros g Hg (p0 & Hin & Hp0) Hval.
  { by apply elem_of_nil in Hin. }
  cbn [fold_left].
  destruct (decide (Exists (fun q => dst q = (r, c)) l)) as [Hex|Hnex].
  - apply IH.
    + by apply view_put_shape.
    + apply Exists_exists in Hex as (q & ?%list_elem_of_In & ?).
      exists q. by split.
    + intros q Hq. apply Hval. by right.
  - rewrite scatter_miss.
    2: { intros q Hq%list_elem_of_In. left. intros Hd.
         apply Hnex, Exists_exists. eauto. }
    assert (dst p = (r, c)) as Hp.
    { apply elem_of_cons in Hin as [<-|Hin]; [done|].
      apply list_elem_of_In in Hin.
      exfalso. apply Hnex, Exists_exists. eauto. }
    unfold step. rewrite (Hval p) by (done || by left). rewrite Hp.
    by eapply view_get_set_eq.
Qed.
End ViewFacts.

Lemma fold_left_ext {S P} (f g : S -> P -> S) l s :
  (forall acc p, f acc p = g acc p) -> fold_left f l s = fold_left g l s.
Proof.
  intros Hfg. revert s. induction l as [|p l IH]; intros s; [done|].
  cbn [fold_left]. by rewrite Hfg, IH.
Qed.

(** Nested [for] loops run their body on the pairs of indices in order. *)
Lemma for_each_nested {S} (l1 l2 : list nat) (body : nat -> nat -> S -> S) s :
  for_each l1 (fun y acc => for_each l2 (body y) acc) s =
  fold_left (fun acc p => body (fst p) (snd p) acc) (list_prod l1 l2) s.
Proof.
  unfold for_each. revert s. induction l1 as [|y l1 IH]; intros s; [done|].
  cbn [fold_left list_prod]. rewrite fold_left_app, <- IH. f_equal.
  generalize s. clear. induction l2 as [|x l2 IH2]; intros s; [done|].
  cbn [map fold_left fst snd]. apply IH2.
Qed.

Lemma elem_of_index_pairs (n m y x : nat) :
  (y, x) ∈ list_prod (seq 0 n) (seq 0 m) <-> (y < n)%nat /\ (x < m)%nat.
Proof.
  rewrite list_elem_of_In, in_prod_iff, !in_seq. lia.
Qed.

(** * The rotation *)

Section Rotation.
Context {A : Type}.
Implicit Types (g : list (list A)).

Lemma rotate_ccw_fold n g :
  rotate_ccw n g =
  fold_left (fun acc p =>
    view_put acc (fst (n - 1 - snd p, fst p)%nat)
      (snd (n - 1 - snd p, fst p)%nat)
      (view_get g (fst p) (snd p)))
    (list_prod (seq 0 n) (seq 0 n)) g.
Proof. unfold rotate_ccw. by rewrite for_each_nested. Qed.

Lemma rotate_ccw_shape n g :
  grid_shape n n g -> grid_shape n n (rotate_ccw n g).
Proof.
  intros Hg. rewrite rotate_ccw_fold.
  by apply (scatter_shape (fun p => (n - 1 - snd p, fst p)%nat)
              (fun p => view_get g (fst p) (snd p))).
Qed.

(** The element at row [r], column [c] after a rotation is the one that
    was at row [c], column [size - 1 - r]. *)
Lemma rotate_ccw_get n g r c :
  grid_shape n n g -> (r < n)%nat -> (c < n)%nat ->
  view_get (rotate_ccw n g) r c = view_get g c (n - 1 - r).
Proof.
  intros Hg Hr Hc. rewrite rotate_ccw_fold.
  destruct (view_get_in_shape g n n c (n - 1 - r) Hg) as [v Hv]; [lia..|].
  rewrite Hv.
  apply (scatter_hit (fun p => (n - 1 - snd p, fst p)%nat)
           (fun p => view_get g (fst p) (snd p)) _ _ n n); [done..| |].
  - exists (c, (n - 1 - r)%nat). split.
    + apply elem_of_index_pairs. lia.
    + cbn [fst snd]. f_equal. lia.
  - intros [y x] [Hy Hx]%elem_of_index_pairs [= Hyr <-]. cbn [fst snd].
    replace x with (n - 1 - r)%nat by lia. done.
Qed.

Lemma iter_rotate_shape k n g :
  grid_shape n n g -> grid_shape n n (Nat.iter k (rotate_ccw n) g).
Proof.
  intros Hg. induction k as [|k IH]; [done|].
  cbn [Nat.iter nat_rect]. by apply rotate_ccw_shape.
Qed.

(** ** C6: four rotations *)

(** C6. Four applications of the rotation step
    [new[size - 1 - x][y] = old[y][x]] to a [size] x [size] grid give the
    grid back. *)
Theorem rotate_four_times n g :
  grid_shape n n g -> Nat.iter 4 (rotate_ccw n) g = g.
Proof.
  intros Hg. apply (view_ext _ _ n n); [by apply iter_rotate_shape|done|].
  intros r c Hr Hc. cbn [Nat.iter nat_rect].
  pose proof (rotate_ccw_shape n g Hg) as H1.
  pose proof (rotate_ccw_shape n _ H1) as H2.
  pose proof (rotate_ccw_shape n _ H2) as H3.
  rewrite rotate_ccw_get by (done || lia).
  rewrite rotate_ccw_get by (done || lia).
  rewrite rotate_ccw_get by (done || lia).
  rewrite rotate_ccw_get by (done || lia).
  f_equal; lia.
Qed.
End Rotation.

(** C6 on a 3 x 3 grid of numbers. *)
Lemma rotate_four_times_witness :
  grid_shape 3 3 [[1; 2; 3]; [4; 5; 6]; [7; 8; 9]]%nat /\
  rotate_ccw 3 [[1; 2; 3]; [4; 5; 6]; [7; 8; 9]]%nat
    = [[3; 6; 9]; [2; 5; 8]; [1; 4; 7]]%nat /\
  Nat.iter 4 (rotate_ccw 3) [[1; 2; 3]; [4; 5; 6]; [7; 8; 9]]%nat
    = [[1; 2; 3]; [4; 5; 6]; [7; 8; 9]]%nat.
Proof.
  assert (Hshape : grid_shape 3 3 [[1; 2; 3]; [4; 5; 6]; [7; 8; 9]]%nat).
  { split; [reflexivity|]. repeat constructor. }
  split; [exact Hshape|]. split; [reflexivity|].
  exact (rotate_four_times 3 _ Hshape).
Defined.

(** * Placement *)

Lemma Sample_draw_range a b gen :
  a <= b -> a <= fst (Sample.draw a b gen) <= b.
Proof.
  intros Hab. unfold Sample.draw. cbn [fst].
  pose proof (Z.mod_pos_bound gen (b - a + 1)). lia.
Qed.

Section PlacementFacts.
Context {Rng : Type} (draw : Z -> Z -> Rng -> Z * Rng).

(** What a [uniform_int_distribution] guarantees: a number of the closed
    interval it was built with. *)
Hypothesis draw_range :
  forall a b gen, a <= b -> a <= fst (draw a b gen) <= b.

Lemma PlaceObject_iter_result sx sy ex ey s gen x y gen' :
  sx <= ex -> sy <= ey ->
  PlaceObject_iter draw sx sy ex ey s gen = Ok (inr ((x, y), gen')) ->
  sx <= x <= ex /\ sy <= y <= ey /\ free_cell s x y.
Proof.
  intros Hx Hy. unfold PlaceObject_iter.
  pose proof (draw_range sx ex gen Hx) as Hdx.
  destruct (draw sx ex gen) as [x0 gen1]. cbn [fst] in Hdx.
  pose proof (draw_range sy ey gen1 Hy) as Hdy.
  destruct (draw sy ey gen1) as [y0 gen2]. cbn [fst] in Hdy.
  destruct (grid_get (grid_ s) x0 y0) as [cell|] eqn:Hc; [|done].
  destruct (bool_decide (GetType cell = kEmpty)) eqn:Ht; [|done].
  cbn [negb].
  destruct ((fst (agent_pos_ s) =? x0) && (snd (agent_pos_ s) =? y0))
    eqn:Ha; [done|].
  intros [= <- <- <-]. repeat split; [lia..| |].
  - exists cell. split; [done|]. by apply bool_decide_eq_true in Ht.
  - intros Hpos. rewrite Hpos in Ha. cbn [fst snd] in Ha.
    by rewrite !Z.eqb_refl in Ha.
Qed.

Lemma PlaceObject_loop_result fuel sx sy ex ey s gen x y gen' :
  sx <= ex -> sy <= ey ->
  PlaceObject_loop draw fuel sx sy ex ey s gen = Some (Ok ((x, y), gen')) ->
  sx <= x <= ex /\ sy <= y <= ey /\ free_cell s x y.
Proof.
  intros Hx Hy. revert gen.
  induction fuel as [|fuel IH]; intros gen; [done|].
  cbn [PlaceObject_loop].
  destruct (PlaceObject_iter draw sx sy ex ey s gen)
    as [[gen1|[[x1 y1] gen1]]| |] eqn:Hiter; [apply IH| |done..].
  intros [= <- <- <-]. by eapply PlaceObject_iter_result.
Qed.

(** ** C8: the cell that PlaceObject returns *)

(** C8. Whenever [PlaceObject] returns a position, the position lies in
    the rectangle [start_x, end_x] x [start_y, end_y], the grid cell there
    has type Empty, and it is not the agent's position. *)
Theorem PlaceObject_result fuel sx sy ex ey s gen x y gen' :
  PlaceObject draw fuel sx sy ex ey s gen = Some (Ok ((x, y), gen')) ->
  (sx <= x <= ex /\ sy <= y <= ey) /\
  (exists cell, grid_get (grid_ s) x y = Some cell /\ GetType cell = kEmpty)
  /\ agent_pos_ s <> (x, y).
Proof.
  unfold PlaceObject.
  destruct (ex <? sx) eqn:Ex; [done|].
  destruct (ey <? sy) eqn:Ey; [done|]. cbn [orb].
  intros Hloop.
  apply PlaceObject_loop_result in Hloop as (? & ? & ? & ?); [|lia..].
  done.
Qed.

End PlacementFacts.

(** C8 on a world: in the room with the agent at (1,1), the draw (1,1) is
    rejected and the draw (3,1) is returned. *)
Lemma PlaceObject_result_witness :
  PlaceObject Sample.draw 5 1 1 3 1 Sample.facing_key 0
    = Some (Ok ((3, 1), 4)) /\
  (1 <= 3 <= 3 /\ 1 <= 1 <= 1) /\
  (exists cell,
     grid_get (grid_ Sample.facing_key) 3 1 = Some cell /\
     GetType cell = kEmpty) /\
  agent_pos_ Sample.facing_key <> (3, 1).
Proof.
  split; [reflexivity|].
  exact (PlaceObject_result Sample.draw Sample_draw_range 5 1 1 3 1
           Sample.facing_key 0 3 1 4 eq_refl).
Defined.

(** * The observation *)

Section RenderFrame.
Context `{WorldObjApi}.

Lemma read_view_Ok top_x top_y size s view s' :
  read_view top_x top_y size s = Ok (view, s') <->
  gen_view s top_x top_y size = Some view /\ s' = s.
Proof.
  unfold read_view. destruct (gen_view _ _ _ _).
  - split; [by intros [= <- <-]|by intros [[= <-] ->]].
  - split; [done|by intros [? _]].
Qed.

Lemma keeps_read_view {B} (f : MiniGridEnv -> B) top_x top_y size :
  keeps f (read_view top_x top_y size).
Proof. intros s a s' [_ ->]%read_view_Ok. done. Qed.

(** ** C9: GenImage reads the state *)

(** C9. A run of [GenImage] that returns leaves the environment as it
    found it: grid, agent position and direction, carried object, step
    count and done flag. Its only result is the tensor. *)
Theorem GenImage_keeps_state obs s obs' s' :
  GenImage obs s = Ok (obs', s') ->
  s' = s /\
  grid_ s' = grid_ s /\ agent_pos_ s' = agent_pos_ s /\
  agent_dir_ s' = agent_dir_ s /\ carrying_ s' = carrying_ s /\
  step_count_ s' = step_count_ s /\ done_ s' = done_ s.
Proof.
  intros Hrun.
  assert (keeps (fun s => s) (GenImage obs)) as Hkeeps.
  { unfold GenImage. repeat (keeps_step || apply keeps_read_view). }
  apply Hkeeps in Hrun. cbv beta in Hrun. by subst s'.
Qed.
End RenderFrame.

(** C9 on a world. *)
Lemma GenImage_keeps_state_witness :
  exists obs' s',
    GenImage (fun _ _ _ => 0) Sample.sees_key = Ok (obs', s') /\
    s' = Sample.sees_key.
Proof.
  destruct (GenImage (fun _ _ _ => 0) Sample.sees_key)
    as [[obs' s']| |] eqn:Hrun; [|by vm_compute in Hrun..].
  exists obs', s'. split; [reflexivity|].
  exact (proj1 (GenImage_keeps_state _ _ _ _ Hrun)).
Defined.

Section RenderFacts.
Context `{WorldObjApi}.

(** ** The sub-grid cut out of the world *)

Lemma gen_view_shape s top_x top_y n view :
  gen_view s top_x top_y n = Some view -> grid_shape n n view.
Proof.
  unfold gen_view. intros Hrows%mapM_Some. split.
  - pose proof Hrows as Hlen. apply Forall2_length in Hlen.
    rewrite <- Hlen. apply length_seq.
  - apply Forall_lookup. intros i row Hi.
    destruct (Forall2_lookup_r _ _ _ _ _ Hrows Hi) as (i' & _ & Hcells).
    apply mapM_Some, Forall2_length in Hcells.
    rewrite <- Hcells. apply length_seq.
Qed.

Lemma gen_view_get s top_x top_y n view i j :
  gen_view s top_x top_y n = Some view -> (i < n)%nat -> (j < n)%nat ->
  exists o,
    view_get view i j = Some o /\
    gen_view_cell s (top_x + Z.of_nat j) (top_y + Z.of_nat i) = Some o.
Proof.
  unfold gen_view. intros Hrows%mapM_Some Hi Hj.
  destruct (Forall2_lookup_l _ _ _ i i Hrows) as (row & Hrow & Hcells).
  { by apply lookup_seq_lt. }
  apply mapM_Some in Hcells.
  destruct (Forall2_lookup_l _ _ _ j j Hcells) as (o & Ho & Hcell).
  { by apply lookup_seq_lt. }
  exists o. split; [|done]. apply view_get_Some. by exists row.
Qed.

Lemma gen_view_cell_type s x y o :
  gen_view_cell s x y = Some o ->
  exists t, world_type s x y = Some t /\ o = NewObj t.
Proof.
  unfold gen_view_cell, world_type.
  destruct ((0 <=? x) && (x <? width_ s) && (0 <=? y) && (y <? height_ s)).
  - destruct (grid_get (grid_ s) x y) as [cell|]; [|done].
    intros [= <-]. by exists (GetType cell).
  - intros [= <-]. by exists kWall.
Qed.

(** On a well-formed state the sub-grid is always read. *)
Lemma gen_view_well_formed s top_x top_y n :
  well_formed s -> is_Some (gen_view s top_x top_y n).
Proof.
  intros (Hw & Hh & Hshape). unfold gen_view.
  assert (forall x y, is_Some (gen_view_cell s x y)) as Hcell.
  { intros x y. unfold gen_view_cell.
    destruct ((0 <=? x) && (x <? width_ s) && (0 <=? y) && (y <? height_ s))
      eqn:Hin; [|done].
    destruct (grid_get_in_shape _ _ _ x y Hshape) as [cell ->]; [lia..|].
    done. }
  assert (forall (f : nat -> option WorldObj) l,
            (forall k, is_Some (f k)) -> is_Some (mapM f l)) as HmapM.
  { intros f l Hf. induction l as [|k l [ks IH]]; [done|].
    destruct (Hf k) as [a Ha]. exists (a :: ks).
    apply mapM_Some. constructor; [done|]. by apply mapM_Some. }
  assert (forall (f : nat -> option (list WorldObj)) l,
            (forall k, is_Some (f k)) -> is_Some (mapM f l)) as HmapM2.
  { intros f l Hf. induction l as [|k l [ks IH]]; [done|].
    destruct (Hf k) as [a Ha]. exists (a :: ks).
    apply mapM_Some. constructor; [done|]. by apply mapM_Some. }
  apply HmapM2. intros i. apply HmapM. intros j. apply Hcell.
Qed.

(** ** Hiding and the carried object *)

Lemma hide_invisible_shape st n mask view :
  grid_shape n n view -> grid_shape n n (hide_invisible st n mask view).
Proof.
  intros Hv. unfold hide_invisible. destruct (negb st); [|done].
  rewrite for_each_nested.
  assert (forall l g, grid_shape n n g ->
    grid_shape n n (fold_left (fun acc (p : nat * nat) =>
      if negb (mask_get mask (fst p) (snd p))
      then view_set acc (fst p) (snd p) (NewObj kEmpty) else acc) l g))
    as Hfold.
  { induction l as [|p l IH]; intros g Hg; [done|]. cbn [fold_left].
    apply IH. destruct (negb _); [by apply view_set_shape|done]. }
  by apply Hfold.
Qed.

Lemma hide_invisible_get st n mask view r c :
  grid_shape n n view -> (r < n)%nat -> (c < n)%nat ->
  view_get (hide_invisible st n mask view) r c =
    if negb st && negb (mask_get mask r c) then Some (NewObj kEmpty)
    else view_get view r c.
Proof.
  intros Hv Hr Hc. unfold hide_invisible. destruct (negb st); [|done].
  cbn [andb]. rewrite for_each_nested.
  set (val := fun p : nat * nat =>
    if negb (mask_get mask (fst p) (snd p)) then Some (NewObj kEmpty)
    else None).
  rewrite (fold_left_ext _ (fun acc p =>
    view_put acc (fst (id p)) (snd (id p)) (val p))).
  2: { intros acc p. unfold val, id. by destruct (negb _). }
  destruct (negb (mask_get mask r c)) eqn:Hm.
  - apply (scatter_hit id val _ _ n n); [done..| |].
    + exists (r, c). split; [by apply elem_of_index_pairs|done].
    + intros p _ Hp. unfold id in Hp. subst p.
      unfold val. cbn [fst snd]. by rewrite Hm.
  - apply (scatter_miss id val). intros [y x] _.
    destruct (decide ((y, x) = (r, c))) as [[= -> ->]|Hne]; [|by left].
    right. unfold val. cbn [fst snd]. by rewrite Hm.
Qed.

Lemma show_carrying_shape n carried view :
  grid_shape n n view -> grid_shape n n (show_carrying n carried view).
Proof.
  intros Hv. unfold show_carrying. destruct (negb _); by apply view_set_shape.
Qed.

Lemma show_carrying_get n carried view r c :
  grid_shape n n view -> (0 < n)%nat -> (r < n)%nat -> (c < n)%nat ->
  view_get (show_carrying n carried view) r c =
    if bool_decide ((r, c) = (n - 1, n / 2)%nat)
    then Some (if bool_decide (GetType carried = kEmpty)
               then NewObj kEmpty else carried)
    else view_get view r c.
Proof.
  intros Hv Hn Hr Hc. unfold show_carrying.
  assert (n / 2 < n)%nat as Hhalf by (apply Nat.div_lt; lia).
  destruct (bool_decide ((r, c) = (n - 1, n / 2)%nat)) eqn:Hcell.
  - apply bool_decide_eq_true in Hcell as [= -> ->].
    destruct (bool_decide (GetType carried = kEmpty)); cbn [negb];
      by apply (view_get_set_eq _ n n).
  - apply bool_decide_eq_false in Hcell.
    destruct (negb _); by apply view_get_set_ne.
Qed.

(** ** Writing the tensor *)

Lemma write_obs_cell_get o x y obs k :
  0 <= k <= 2 ->
  write_obs_cell o x y obs (Z.of_nat x) (Z.of_nat y) k =
    if k =? 0 then uint8 (type_code (GetType o))
    else if k =? 1 then uint8 (GetColor o)
    else uint8 (GetState o).
Proof.
  intros Hk. unfold write_obs_cell, array_set. rewrite !Z.eqb_refl.
  cbn [andb].
  destruct (k =? 2) eqn:E2; [by replace k with 2 by lia|].
  destruct (k =? 1) eqn:E1; [by replace k with 1 by lia|].
  destruct (k =? 0) eqn:E0; [done|lia].
Qed.

Lemma write_obs_cell_other o x y obs x' y' k :
  (x', y') <> (Z.of_nat x, Z.of_nat y) \/ ~ 0 <= k <= 2 ->
  write_obs_cell o x y obs x' y' k = obs x' y' k.
Proof.
  intros Hne. unfold write_obs_cell, array_set.
  destruct (x' =? Z.of_nat x) eqn:Ex, (y' =? Z.of_nat y) eqn:Ey;
    cbn [andb]; try done.
  destruct Hne as [Hne|Hk]; [exfalso; apply Hne; f_equal; lia|].
  destruct (k =? 2) eqn:E2; [lia|].
  destruct (k =? 1) eqn:E1; [lia|].
  destruct (k =? 0) eqn:E0; [lia|done].
Qed.

Lemma write_obs_fold n mask view obs :
  write_obs n mask view obs =
  fold_left (fun acc p =>
    match written mask view p with
    | Some o => write_obs_cell o (snd p) (fst p) acc
    | None => acc
    end) (list_prod (seq 0 n) (seq 0 n)) obs.
Proof.
  unfold write_obs. rewrite for_each_nested. apply fold_left_ext.
  intros acc p. unfold written. by destruct (mask_get _ _ _).
Qed.

Lemma write_fold_miss mask view l obs x' y' k :
  (forall p, p ∈ l ->
     (x', y') <> (Z.of_nat (snd p), Z.of_nat (fst p)) \/
     ~ 0 <= k <= 2 \/ written mask view p = None) ->
  fold_left (fun acc p =>
    match written mask view p with
    | Some o => write_obs_cell o (snd p) (fst p) acc
    | None => acc
    end) l obs x' y' k = obs x' y' k.
Proof.
  revert obs. induction l as [|p l IH]; intros obs Hl; [done|].
  cbn [fold_left]. rewrite IH by (intros; apply Hl; by right).
  destruct (Hl p) as [Hne|[Hk|Hw]]; [by left| | |].
  - destruct (written mask view p); [|done].
    apply write_obs_cell_other. by left.
  - destruct (written mask view p); [|done].
    apply write_obs_cell_other. by right.
  - by rewrite Hw.
Qed.

Lemma write_fold_hit mask view l obs y x o k :
  (y, x) ∈ l -> written mask view (y, x) = Some o -> 0 <= k <= 2 ->
  fold_left (fun acc p =>
    match written mask view p with
    | Some o => write_obs_cell o (snd p) (fst p) acc
    | None => acc
    end) l obs (Z.of_nat x) (Z.of_nat y) k =
    if k =? 0 then uint8 (type_code (GetType o))
    else if k =? 1 then uint8 (GetColor o)
    else uint8 (GetState o).
Proof.
  intros Hin Hw Hk. revert obs Hin.
  induction l as [|p l IH]; intros obs Hin.
  { by apply elem_of_nil in Hin. }
  cbn [fold_left].
  destruct (decide ((y, x) ∈ l)) as [Hl|Hnl]; [by apply IH|].
  apply elem_of_cons in Hin as [<-|Hin]; [|done].
  rewrite write_fold_miss.
  - rewrite Hw. cbn [fst snd]. by apply write_obs_cell_get.
  - intros [y' x'] Hp. left. cbn [fst snd]. intros [= ? ?].
    apply Hnl. by replace x with x' by lia; replace y with y' by lia.
Qed.

(** The tensor after [write_obs], cell by cell. *)
Lemma write_obs_get n mask view obs y x k :
  (y < n)%nat -> (x < n)%nat -> 0 <= k <= 2 ->
  write_obs n mask view obs (Z.of_nat x) (Z.of_nat y) k =
    match written mask view (y, x) with
    | Some o =>
        if k =? 0 then uint8 (type_code (GetType o))
        else if k =? 1 then uint8 (GetColor o)
        else uint8 (GetState o)
    | None => obs (Z.of_nat x) (Z.of_nat y) k
    end.
Proof.
  intros Hy Hx Hk. rewrite write_obs_fold.
  destruct (written mask view (y, x)) as [o|] eqn:Hw.
  - apply write_fold_hit; [by apply elem_of_index_pairs|done..].
  - apply write_fold_miss. intros [y' x'] _.
    destruct (decide ((y', x') = (y, x))) as [[= -> ->]|Hne];
      [by right; right|].
    left. cbn [fst snd]. intros [= ? ?]. apply Hne. f_equal; lia.
Qed.
End RenderFacts.

Section Render.
Context `{WorldObjApi}.

(** The element at row [r], column [c] of the turned sub-grid is the one
    read for the world position [view_to_world .. r c]. *)
Lemma rotated_view_get s top extracted r c :
  let size := agent_view_size_ s in
  let n := Z.to_nat size in
  view_top (agent_pos_ s) (agent_dir_ s) size = Some top ->
  gen_view s (fst top) (snd top) n = Some extracted ->
  (r < n)%nat -> (c < n)%nat ->
  exists o,
    view_get (Nat.iter (Z.to_nat (agent_dir_ s + 1)) (rotate_ccw n)
                extracted) r c = Some o /\
    gen_view_cell s
      (fst (view_to_world (agent_pos_ s) (agent_dir_ s) size
              (Z.of_nat r) (Z.of_nat c)))
      (snd (view_to_world (agent_pos_ s) (agent_dir_ s) size
              (Z.of_nat r) (Z.of_nat c))) = Some o.
Proof.
  intros size n Htop Hview Hr Hc.
  pose proof (gen_view_shape _ _ _ _ _ Hview) as Hshape.
  pose proof (rotate_ccw_shape n _ Hshape) as H1.
  pose proof (rotate_ccw_shape n _ H1) as H2.
  pose proof (rotate_ccw_shape n _ H2) as H3.
  assert (Z.of_nat n = size) as Hn by (subst n; lia).
  unfold view_top in Htop. unfold view_to_world. fold size.
  destruct (agent_dir_ s =? 0) eqn:E0.
  { apply Z.eqb_eq in E0. rewrite E0. injection Htop as <-.
    change (Z.to_nat (0 + 1)) with 1%nat. cbn [Nat.iter nat_rect fst snd].
    rewrite rotate_ccw_get by done.
    destruct (gen_view_get _ _ _ _ _ c (n - 1 - r)%nat Hview)
      as (o & Ho & Hcell); [lia..|].
    exists o. split; [done|]. cbn [fst snd] in Hcell.
    rewrite <- Hcell. f_equal; lia. }
  destruct (agent_dir_ s =? 1) eqn:E1.
  { apply Z.eqb_eq in E1. rewrite E1. injection Htop as <-.
    change (Z.to_nat (1 + 1)) with 2%nat. cbn [Nat.iter nat_rect fst snd].
    rewrite !rotate_ccw_get by (done || lia).
    destruct (gen_view_get _ _ _ _ _ (n - 1 - r)%nat (n - 1 - c)%nat Hview)
      as (o & Ho & Hcell); [lia..|].
    exists o. split; [done|]. cbn [fst snd] in Hcell.
    rewrite <- Hcell. f_equal; lia. }
  destruct (agent_dir_ s =? 2) eqn:E2.
  { apply Z.eqb_eq in E2. rewrite E2. injection Htop as <-.
    change (Z.to_nat (2 + 1)) with 3%nat. cbn [Nat.iter nat_rect fst snd].
    rewrite !rotate_ccw_get by (done || lia).
    destruct (gen_view_get _ _ _ _ _ (n - 1 - c)%nat r Hview)
      as (o & Ho & Hcell); [lia..|].
    exists o. split.
    - rewrite <- Ho. f_equal. lia.
    - cbn [fst snd] in Hcell. rewrite <- Hcell. f_equal; lia. }
  destruct (agent_dir_ s =? 3) eqn:E3; [|done].
  apply Z.eqb_eq in E3. rewrite E3. injection Htop as <-.
  change (Z.to_nat (3 + 1)) with 4%nat. cbn [Nat.iter nat_rect].
  rewrite !rotate_ccw_get by (done || lia).
  replace (n - 1 - (n - 1 - r))%nat with r by lia.
  replace (n - 1 - (n - 1 - c))%nat with c by lia.
  destruct (gen_view_get _ _ _ _ _ r c Hview) as (o & Ho & Hcell); [lia..|].
  exists o. split; [done|]. cbn [fst snd] in Hcell.
  rewrite <- Hcell. f_equal; lia.
Qed.

(** The parts of a run of [GenImage] that returns. *)
Lemma GenImage_inv obs s obs' s' :
  GenImage obs s = Ok (obs', s') ->
  let n := Z.to_nat (agent_view_size_ s) in
  exists top extracted,
    view_top (agent_pos_ s) (agent_dir_ s) (agent_view_size_ s) = Some top /\
    gen_view s (fst top) (snd top) n = Some extracted /\
    1 <= agent_view_size_ s /\
    let view := Nat.iter (Z.to_nat (agent_dir_ s + 1)) (rotate_ccw n)
                  extracted in
    let mask := process_vis (see_through_walls_ s) n view in
    vis_mask_of s = Some mask /\
    obs' = write_obs n mask
             (show_carrying n (carrying_ s)
                (hide_invisible (see_through_walls_ s) n mask view)) obs.
Proof.
  intros Hrun n. unfold GenImage in Hrun.
  apply bind_Ok in Hrun as (dir & s1 & [-> ->]%member_Ok & Hrun).
  apply bind_Ok in Hrun as (pos & s1 & [-> ->]%member_Ok & Hrun).
  apply bind_Ok in Hrun as (vs & s1 & [-> ->]%member_Ok & Hrun).
  apply bind_Ok in Hrun as (top & s1 & Htop & Hrun).
  destruct (view_top _ _ _) as [top'|] eqn:Hvt.
  2: { apply bind_Ok in Htop as (? & ? & [? _]%CHECK_Ok & _). done. }
  apply ret_Ok in Htop as [-> ->].
  apply bind_Ok in Hrun as (extracted & s1 & [Hview ->]%read_view_Ok & Hrun).
  destruct (agent_view_size_ s <? 1) eqn:Hvs; [done|].
  apply bind_Ok in Hrun as (st & s1 & [-> ->]%member_Ok & Hrun).
  apply bind_Ok in Hrun as (carried & s1 & [-> ->]%member_Ok & Hrun).
  apply ret_Ok in Hrun as [-> ->].
  exists top', extracted.
  split; [done|]. split; [done|]. split; [lia|]. split; [|done].
  unfold vis_mask_of. rewrite Hvt. subst n. cbv zeta. by rewrite Hview.
Qed.

(** [GenImage] returns on every well-formed state with a direction in
    0..3 and a view size of at least 1. *)
Lemma GenImage_returns obs s :
  well_formed s -> 0 <= agent_dir_ s <= 3 -> 1 <= agent_view_size_ s ->
  exists obs', GenImage obs s = Ok (obs', s).
Proof.
  intros Hwf Hdir Hvs.
  assert (exists top, view_top (agent_pos_ s) (agent_dir_ s)
                        (agent_view_size_ s) = Some top) as [top Htop].
  { unfold view_top.
    destruct (agent_dir_ s =? 0) eqn:E0; [by eexists|].
    destruct (agent_dir_ s =? 1) eqn:E1; [by eexists|].
    destruct (agent_dir_ s =? 2) eqn:E2; [by eexists|].
    destruct (agent_dir_ s =? 3) eqn:E3; [by eexists|lia]. }
  destruct (gen_view_well_formed s (fst top) (snd top)
              (Z.to_nat (agent_view_size_ s)) Hwf) as [view Hview].
  eexists. unfold GenImage, bind, member, ret, read_view.
  rewrite Htop, Hview.
  assert ((agent_view_size_ s <? 1) = false) as -> by lia.
  reflexivity.
Qed.
End Render.

Section RenderClaims.
Context `{WorldObjApi}.

(** The object whose codes [GenImage] writes for a visible cell of the
    viewport: at the agent's cell the carried object, or a fresh Empty
    object when the agent carries an Empty one; elsewhere an object
    constructed from the type read for the world position that the cell
    shows. *)
Lemma GenImage_cell obs s obs' s' mask (r c : nat) k :
  let size := agent_view_size_ s in
  let n := Z.to_nat size in
  GenImage obs s = Ok (obs', s') ->
  vis_mask_of s = Some mask ->
  (r < n)%nat -> (c < n)%nat ->
  mask_get mask r c = true ->
  0 <= k <= 2 ->
  exists o,
    (if bool_decide ((r, c) = (n - 1, n / 2)%nat)
     then o = (if bool_decide (GetType (carrying_ s) = kEmpty)
               then NewObj kEmpty else carrying_ s)
     else exists t,
            world_type s
              (fst (view_to_world (agent_pos_ s) (agent_dir_ s) size
                      (Z.of_nat r) (Z.of_nat c)))
              (snd (view_to_world (agent_pos_ s) (agent_dir_ s) size
                      (Z.of_nat r) (Z.of_nat c))) = Some t /\
            o = NewObj t) /\
    obs' (Z.of_nat c) (Z.of_nat r) k =
      if k =? 0 then uint8 (type_code (GetType o))
      else if k =? 1 then uint8 (GetColor o)
      else uint8 (GetState o).
Proof.
  intros size n Hrun Hmask Hr Hc Hvis Hk.
  apply GenImage_inv in Hrun
    as (top & extracted & Htop & Hview & Hvs & Hmask' & ->).
  cbv zeta in Hmask'. rewrite Hmask in Hmask'. injection Hmask' as Hmask'.
  subst n size. rewrite <- Hmask'.
  pose proof (rotated_view_get s top extracted r c Htop Hview Hr Hc)
    as (o & Ho & Hcell).
  set (n := Z.to_nat (agent_view_size_ s)) in *.
  set (view1 := Nat.iter _ _ extracted) in *.
  pose proof (gen_view_shape _ _ _ _ _ Hview) as Hshape.
  assert (grid_shape n n view1) as Hshape1 by (by apply iter_rotate_shape).
  pose proof (hide_invisible_shape (see_through_walls_ s) n mask view1
                Hshape1) as Hshape2.
  rewrite write_obs_get by done. unfold written. cbn [fst snd].
  rewrite Hvis, show_carrying_get by (done || lia).
  destruct (bool_decide ((r, c) = (n - 1, n / 2)%nat)).
  { by eexists. }
  rewrite hide_invisible_get by done. rewrite Hvis, andb_false_r.
  cbn [andb]. rewrite Ho.
  exists o. split; [|done]. by apply gen_view_cell_type.
Qed.

(** ** C1: what a visible cell of the tensor holds *)

(** C1, as the code has it. For a cell marked visible, at row [r] and
    column [c] of the viewport, [GenImage] writes at [obs(c, r, .)]: at
    the agent's cell (bottom row, middle column) the type, color and
    state codes of the carried object, or of a fresh Empty object when
    nothing is carried; at any other cell, in channel 0, the type code
    of the grid cell at the world position that the cell shows, Wall
    outside of the grid. *)
Theorem GenImage_visible_cell `{!WorldObjLaws} obs s obs' s' mask
    (r c : nat) :
  let size := agent_view_size_ s in
  let n := Z.to_nat size in
  GenImage obs s = Ok (obs', s') ->
  vis_mask_of s = Some mask ->
  (r < n)%nat -> (c < n)%nat ->
  mask_get mask r c = true ->
  if bool_decide ((r, c) = (n - 1, n / 2)%nat) then
    let shown := if bool_decide (GetType (carrying_ s) = kEmpty)
                 then NewObj kEmpty else carrying_ s in
    obs' (Z.of_nat c) (Z.of_nat r) 0 = uint8 (type_code (GetType shown)) /\
    obs' (Z.of_nat c) (Z.of_nat r) 1 = uint8 (GetColor shown) /\
    obs' (Z.of_nat c) (Z.of_nat r) 2 = uint8 (GetState shown)
  else
    exists t,
      world_type s
        (fst (view_to_world (agent_pos_ s) (agent_dir_ s) size
                (Z.of_nat r) (Z.of_nat c)))
        (snd (view_to_world (agent_pos_ s) (agent_dir_ s) size
                (Z.of_nat r) (Z.of_nat c))) = Some t /\
      obs' (Z.of_nat c) (Z.of_nat r) 0 = uint8 (type_code t).
Proof.
  intros size n Hrun Hmask Hr Hc Hvis.
  pose proof (fun k => GenImage_cell obs s obs' s' mask r c k Hrun Hmask
                         Hr Hc Hvis) as Hcell.
  cbv zeta in Hcell. subst n size.
  destruct (bool_decide (_ = _)).
  - cbv zeta.
    destruct (Hcell 0) as (o0 & -> & ->); [lia|].
    destruct (Hcell 1) as (o1 & -> & ->); [lia|].
    destruct (Hcell 2) as (o2 & -> & ->); [lia|]. done.
  - destruct (Hcell 0) as (o & (t & Ht & ->) & ->); [lia|].
    exists t. split; [done|]. cbn [Z.eqb]. by rewrite GetType_NewObj.
Qed.

(** X21. A cell that is not marked visible, and every entry outside of the
    viewport and the three channels, is left as the caller passed it. *)
Lemma GenImage_untouched obs s obs' s' mask x y k :
  let n := Z.to_nat (agent_view_size_ s) in
  GenImage obs s = Ok (obs', s') ->
  vis_mask_of s = Some mask ->
  (~ (0 <= x < agent_view_size_ s /\ 0 <= y < agent_view_size_ s
      /\ 0 <= k <= 2)
   \/ mask_get mask (Z.to_nat y) (Z.to_nat x) = false) ->
  obs' x y k = obs x y k.
Proof.
  intros n Hrun Hmask Hout.
  apply GenImage_inv in Hrun
    as (top & extracted & Htop & Hview & Hvs & Hmask' & ->).
  cbv zeta in Hmask'. rewrite Hmask in Hmask'. injection Hmask' as Hmask'.
  subst n. rewrite <- Hmask'. rewrite write_obs_fold.
  apply write_fold_miss. intros [r c] [Hr Hc]%elem_of_index_pairs.
  cbn [fst snd].
  destruct (decide ((x, y) = (Z.of_nat c, Z.of_nat r))) as [[= -> ->]|Hne];
    [|by left].
  right. destruct Hout as [Hout|Hout].
  - left. lia.
  - right. unfold written. cbn [fst snd].
    rewrite !Nat2Z.id in Hout. by rewrite Hout.
Qed.
End RenderClaims.

(** C1 on a world: the agent faces East with a key ahead; the cell above
    the agent's in the viewport shows the key, type code 5. *)
Lemma GenImage_visible_cell_witness :
  exists obs' s' mask,
    GenImage (fun _ _ _ => 0) Sample.sees_key = Ok (obs', s') /\
    vis_mask_of Sample.sees_key = Some mask /\
    mask_get mask 1 1 = true /\
    world_type Sample.sees_key 2 1 = Some kKey /\
    obs' 1 1 0 = 5.
Proof.
  destruct (GenImage (fun _ _ _ => 0) Sample.sees_key)
    as [[obs' s']| |] eqn:Hrun; [|by vm_compute in Hrun..].
  destruct (vis_mask_of Sample.sees_key) as [mask|] eqn:Hmask;
    [|by vm_compute in Hmask].
  assert (mask_get mask 1 1 = true) as Hvis.
  { vm_compute in Hmask. injection Hmask as <-. reflexivity. }
  exists obs', s', mask. do 3 (split; [reflexivity || exact Hvis|]).
  split; [reflexivity|].
  destruct (GenImage_visible_cell _ _ _ _ _ 1%nat 1%nat Hrun Hmask)
    as (t & Ht & Hobs); [vm_compute; lia..|exact Hvis|].
  vm_compute in Ht. injection Ht as <-. exact Hobs.
Defined.

(** The claim C1 fails at the agent's own cell: the agent stands on a
    Floor tile (type code 3) with nothing in hand, its cell is visible,
    and channel 0 holds 1, the code of Empty. *)
Lemma GenImage_agent_cell_hides_floor :
  match vis_mask_of Sample.on_floor with
  | Some mask => mask_get mask 2 1 = true
  | None => False
  end /\
  view_to_world (agent_pos_ Sample.on_floor) (agent_dir_ Sample.on_floor)
    3 2 1 = (1, 1) /\
  grid_get (grid_ Sample.on_floor) 1 1 = Some Sample.F /\
  uint8 (type_code (GetType Sample.F)) = 3 /\
  match GenImage (fun _ _ _ => 0) Sample.on_floor with
  | Ok (obs', _) => obs' 1 2 0 = 1
  | _ => False
  end.
Proof. repeat split; vm_compute; reflexivity. Qed.

(** The color of a grid cell does not reach the tensor: the key ahead of
    the agent has color 4, and channel 1 of its cell holds 0, the color of
    a freshly constructed key. *)
Lemma GenImage_drops_color :
  grid_get (grid_ Sample.sees_key) 2 1 = Some (Sample.key 4) /\
  match GenImage (fun _ _ _ => 0) Sample.sees_key with
  | Ok (obs', _) => obs' 1 1 0 = 5 /\ obs' 1 1 1 = 0
  | _ => False
  end.
Proof. split; [reflexivity|]. vm_compute. by split. Qed.

(** * More on the stepper *)

Lemma outcome_Ok_or {A} (o : outcome A) :
  (exists a, o = Ok a) \/ o = Abort \/ o = Undef.
Proof. destruct o; eauto. Qed.

Section StepMore.
Context `{WorldObjApi}.

(** The fields that no branch of [MiniGridStep] assigns. *)
Lemma step_action_keeps_config act fwd :
  keeps (fun s => (width_ s, height_ s, max_steps_ s, agent_view_size_ s,
                   see_through_walls_ s, agent_start_dir_ s, step_count_ s))
    (step_action act fwd).
Proof.
  unfold step_action, toggle_door, toggle_box. cbv zeta.
  destruct act; repeat keeps_step.
Qed.

(** X1. Every step that returns has counted itself, has left the configuration
    alone, and has set [done_] when the count reached [max_steps_]. *)
Theorem step_counts act s r s' :
  MiniGridStep act s = Ok (r, s') ->
  step_count_ s' = step_count_ s + 1 /\
  width_ s' = width_ s /\ height_ s' = height_ s /\
  max_steps_ s' = max_steps_ s /\
  agent_view_size_ s' = agent_view_size_ s /\
  (max_steps_ s <= step_count_ s + 1 -> done_ s' = true).
Proof.
  intros (fx & fy & s1 & _ & _ & Ha & ->)%step_inv.
  apply step_action_keeps_config in Ha. cbv beta in Ha. env_simpl.
  injection Ha as Hw Hh Hm Hv _ _ Hc.
  unfold step_epilogue. rewrite Hm, Hc.
  destruct (max_steps_ s <=? step_count_ s + 1) eqn:Hlim; env_simpl;
    repeat split; try done; lia.
Qed.

(** X2. [done_] is a latch: no step clears it. *)
Theorem step_done_latch act s r s' :
  MiniGridStep act s = Ok (r, s') -> done_ s = true -> done_ s' = true.
Proof.
  intros (fx & fy & s1 & _ & _ & Ha & ->)%step_inv Hd.
  apply step_action_done_latch in Ha; [|done].
  unfold step_epilogue. by destruct (_ <=? _).
Qed.

(** No branch but the last fails a [CHECK]. *)
Lemma bind_not_Abort {A B} (m : Method A) (k : A -> Method B) s :
  m s <> Abort -> (forall a s1, k a s1 <> Abort) -> bind m k s <> Abort.
Proof.
  intros Hm Hk. unfold bind. destruct (m s) as [[a s1]| |]; [apply Hk|done..].
Qed.

Lemma read_cell_not_Abort x y s : read_cell x y s <> Abort.
Proof. unfold read_cell. by destruct (grid_get _ _ _). Qed.

Lemma write_cell_not_Abort x y v s : write_cell x y v s <> Abort.
Proof. unfold write_cell. by destruct (grid_get _ _ _). Qed.

Lemma step_action_Abort act fwd s :
  step_action act fwd s = Abort <-> act = kOtherAct.
Proof.
  split; [|by intros ->].
  intros Ha. destruct (decide (act = kOtherAct)) as [|Hact]; [done|].
  exfalso. revert s Ha. unfold step_action, toggle_door, toggle_box.
  cbv zeta. unfold when.
  destruct act; try done; clear Hact; intros s;
    repeat first
      [ apply bind_not_Abort; [|intros ? ?]
      | apply read_cell_not_Abort
      | apply write_cell_not_Abort
      | match goal with
        | |- (if ?b then _ else _) _ <> Abort => destruct b
        | |- (match ?x with Some _ => _ | None => _ end) _ <> Abort =>
            destruct x
        end
      | done ].
Qed.

(** The checks that precede the branches. *)
Lemma step_out_of_bounds act s :
  match forward_pos (agent_pos_ s) (agent_dir_ s) with
  | None => True
  | Some (fx, fy) => ~ (0 <= fx < width_ s /\ 0 <= fy < height_ s)
  end ->
  MiniGridStep act s =
    match forward_pos (agent_pos_ s) (agent_dir_ s) with
    | None => Abort
    | Some _ => Abort
    end.
Proof.
  unfold MiniGridStep, bind, member, assign, CHECK, when, ret. env_simpl.
  destruct (forward_pos (agent_pos_ s) (agent_dir_ s)) as [[fx fy]|];
    [|done].
  env_simpl. intros Hout.
  destruct (0 <=? fx) eqn:E1; [|done].
  destruct (fx <? width_ s) eqn:E2; [|done].
  destruct (0 <=? fy) eqn:E3; [|done].
  destruct (fy <? height_ s) eqn:E4; [|done]. lia.
Qed.

(** X3. [MiniGridStep] fails a [CHECK] exactly when the direction is not one
    of 0..3, or the forward position is outside of the bounds, or the action
    is none of the seven. *)
Theorem step_aborts act s :
  MiniGridStep act s = Abort <->
  match forward_pos (agent_pos_ s) (agent_dir_ s) with
  | None => True
  | Some (fx, fy) =>
      ~ (0 <= fx < width_ s /\ 0 <= fy < height_ s) \/ act = kOtherAct
  end.
Proof.
  destruct (forward_pos (agent_pos_ s) (agent_dir_ s)) as [[fx fy]|] eqn:Hf.
  - destruct (decide (0 <= fx < width_ s /\ 0 <= fy < height_ s))
      as [[Hx Hy]|Hout].
    + rewrite (step_run _ _ _ _ Hf Hx Hy).
      destruct (step_action act (fx, fy) _) as [[r s1]| |] eqn:Ha.
      * split; [done|]. intros [?| ->]; [tauto|].
        by rewrite (proj2 (step_action_Abort _ _ _) eq_refl) in Ha.
      * apply step_action_Abort in Ha. tauto.
      * split; [done|]. intros [?| ->]; [tauto|].
        by rewrite (proj2 (step_action_Abort _ _ _) eq_refl) in Ha.
    + split; [tauto|]. intros _.
      by rewrite (step_out_of_bounds act s), Hf by (rewrite Hf; done).
  - split; [done|]. intros _.
    by rewrite (step_out_of_bounds act s), Hf by (by rewrite Hf).
Qed.

(** ** The grid under a step *)

Lemma write_cell_shape h w x y v :
  preserves (fun s => grid_shape h w (grid_ s)) (write_cell x y v).
Proof.
  intros s u s' Hs [_ ->]%write_cell_Ok. env_simpl. by apply grid_set_shape.
Qed.

Lemma step_action_shape h w act fwd :
  preserves (fun s => grid_shape h w (grid_ s)) (step_action act fwd).
Proof.
  intros s r s' Hs Ha. destruct fwd as [fx fy].
  unfold step_action, toggle_door, toggle_box in Ha.
  destruct act; cbv zeta in Ha; inv_method; env_simpl;
    repeat apply grid_set_shape; done.
Qed.

(** X5. A step keeps the grid in its shape: started on a grid of [height_]
    rows of [width_] cells, a step that returns leaves [width_] and
    [height_] as they were and a grid of the same shape, so the state it
    leaves is well formed again. *)
Theorem step_keeps_well_formed act s r s' :
  well_formed s -> MiniGridStep act s = Ok (r, s') ->
  width_ s' = width_ s /\ height_ s' = height_ s /\
  grid_shape (Z.to_nat (height_ s)) (Z.to_nat (width_ s)) (grid_ s') /\
  well_formed s'.
Proof.
  intros (Hw & Hh & Hshape) Hstep.
  apply step_inv in Hstep as (fx & fy & s1 & _ & _ & Ha & ->).
  pose proof (step_action_keeps_config _ _ _ _ _ Ha) as Hcfg.
  cbv beta in Hcfg. env_simpl. injection Hcfg as Hw' Hh' _ _ _ _ _.
  unfold well_formed.
  destruct (step_epilogue_fields s1) as (-> & _ & _ & _ & -> & -> & _).
  rewrite Hw', Hh'.
  pose proof (step_action_shape _ _ _ _
                (set_step_count (step_count_ s + 1) s) _ _ Hshape Ha)
    as Hshape'.
  done.
Qed.

(** On a grid in its shape no branch reads or writes outside of it. *)
Section Safe.
Context (fx fy : Z).

Let I (s : MiniGridEnv) : Prop := is_Some (grid_get (grid_ s) fx fy).

Lemma safe_ret {A} (a : A) : safe I (ret a).
Proof. intros s Hs. split; [done|]. by intros a' s' [_ ->]%ret_Ok. Qed.

Lemma safe_bind {A B} (m : Method A) (k : A -> Method B) :
  safe I m -> (forall a, safe I (k a)) -> safe I (bind m k).
Proof.
  intros Hm Hk s Hs. destruct (Hm s Hs) as [Hdef Hpost]. split.
  - unfold bind. destruct (m s) as [[a s1]| |]; [|done..].
    apply (Hk a s1). by eapply Hpost.
  - intros b s' (a & s1 & H1 & H2)%bind_Ok.
    apply (Hk a s1 (Hpost _ _ H1)) in H2. done.
Qed.

Lemma safe_member {A} (f : MiniGridEnv -> A) : safe I (member f).
Proof. intros s Hs. split; [done|]. by intros a s' [_ ->]%member_Ok. Qed.

Lemma safe_CHECK b : safe I (CHECK b).
Proof.
  intros s Hs. split; [unfold CHECK; by destruct b|].
  by intros a s' [_ ->]%CHECK_Ok.
Qed.

Lemma safe_assign f :
  (forall s, grid_ (f s) = grid_ s) -> safe I (assign f).
Proof.
  intros Hf s Hs. split; [done|]. intros a s' ->%assign_Ok.
  unfold I. by rewrite Hf.
Qed.

Lemma safe_when b m : safe I m -> safe I (when b m).
Proof. intros Hm. destruct b; [done|apply safe_ret]. Qed.

Lemma safe_read_cell : safe I (read_cell fx fy).
Proof.
  intros s [cell Hs]. split; [unfold read_cell; by rewrite Hs|].
  intros a s' [_ ->]%read_cell_Ok. by exists cell.
Qed.

Lemma safe_write_cell v : safe I (write_cell fx fy v).
Proof.
  intros s [cell Hs]. split; [unfold write_cell; by rewrite Hs|].
  intros a s' [_ ->]%write_cell_Ok. exists v. env_simpl.
  by eapply grid_get_set_eq.
Qed.

Lemma step_action_safe act : safe I (step_action act (fx, fy)).
Proof.
  unfold step_action, toggle_door, toggle_box. cbv zeta. cbn [fst snd].
  destruct act;
    repeat first
      [ apply safe_bind; [|intros ?]
      | apply safe_ret | apply safe_member | apply safe_CHECK
      | apply safe_when | apply safe_read_cell | apply safe_write_cell
      | apply safe_assign; intros; reflexivity
      | match goal with
        | |- safe _ (if ?b then _ else _) => destruct b
        | |- safe _ (match ?x with _ => _ end) => destruct x
        end ].
Qed.
End Safe.

Lemma step_action_defined act fx fy s :
  well_formed s -> 0 <= fx < width_ s -> 0 <= fy < height_ s ->
  step_action act (fx, fy) s <> Undef.
Proof.
  intros (Hw & Hh & Hshape) Hx Hy.
  apply (step_action_safe fx fy act s).
  apply (grid_get_in_shape _ _ _ fx fy Hshape); lia.
Qed.

(** X4. On a grid in its shape [MiniGridStep] has a defined outcome: it
    returns or it fails a [CHECK]. *)
Theorem step_defined act s :
  well_formed s -> MiniGridStep act s <> Undef.
Proof.
  intros Hwf.
  destruct (forward_pos (agent_pos_ s) (agent_dir_ s)) as [[fx fy]|] eqn:Hf.
  - destruct (decide (0 <= fx < width_ s /\ 0 <= fy < height_ s))
      as [[Hx Hy]|Hout].
    + rewrite (step_run _ _ _ _ Hf Hx Hy).
      pose proof (step_action_defined act fx fy
                    (set_step_count (step_count_ s + 1) s)) as Hdef.
      destruct (step_action act (fx, fy) _) as [[r s1]| |]; [done..|].
      exfalso. by apply Hdef.
    + by rewrite (step_out_of_bounds act s), Hf by (rewrite Hf; done).
  - by rewrite (step_out_of_bounds act s), Hf by (by rewrite Hf).
Qed.

Lemma step_action_other_cells act fx fy x y s r s' :
  0 <= fx -> 0 <= fy -> 0 <= x -> 0 <= y -> (x, y) <> (fx, fy) ->
  step_action act (fx, fy) s = Ok (r, s') ->
  grid_get (grid_ s') x y = grid_get (grid_ s) x y.
Proof.
  intros Hfx Hfy Hx Hy Hne Ha.
  unfold step_action, toggle_door, toggle_box in Ha.
  destruct act; cbv zeta in Ha; inv_method; env_simpl;
    rewrite ?grid_get_set_ne by done; done.
Qed.

(** X6. A step that returns has written no cell of the grid other than the
    forward cell. *)
Theorem step_other_cells act s r s' fx fy x y :
  MiniGridStep act s = Ok (r, s') ->
  forward_pos (agent_pos_ s) (agent_dir_ s) = Some (fx, fy) ->
  (x, y) <> (fx, fy) ->
  grid_get (grid_ s') x y = grid_get (grid_ s) x y.
Proof.
  intros (fx' & fy' & s1 & Hf & [Hbx Hby] & Ha & ->)%step_inv Hf' Hne.
  rewrite Hf in Hf'. injection Hf' as -> ->.
  destruct (step_epilogue_fields s1) as (-> & _).
  destruct (decide (0 <= x /\ 0 <= y)) as [[Hx Hy]|Hneg].
  - by rewrite (step_action_other_cells _ _ _ _ _ _ _ _
                  (proj1 Hbx) (proj1 Hby) Hx Hy Hne Ha).
  - unfold grid_get.
    assert ((0 <=? x) && (0 <=? y) = false) as -> by lia. done.
Qed.
End StepMore.

(** * The branches of the stepper *)

Lemma forward_pos_Some pos dir p :
  forward_pos pos dir = Some p -> 0 <= dir <= 3.
Proof.
  unfold forward_pos.
  destruct dir as [|[[| |]|[| |]|]|]; try done; lia.
Qed.

(** On an unlocked door [SetDoorOpen] writes the open flag and nothing
    else. *)
Lemma SetDoorOpen_unlocked b o :
  GetDoorLocked o = false ->
  GetDoorLocked (SetDoorOpen b o) = false /\
  GetDoorOpen (SetDoorOpen b o) = b /\
  SetDoorOpen (GetDoorOpen o) (SetDoorOpen b o) = o.
Proof.
  destruct o as [t c l op x]. unfold GetDoorLocked, GetDoorOpen, SetDoorOpen.
  cbn. intros ->. by destruct b, op.
Qed.

Lemma SetContains_same o : SetContains (GetContains o) o = o.
Proof. by destruct o. Qed.

Section StepBranches.
Context `{WorldObjApi}.

(** X7. What each action may change: the grid is written by Pickup, Drop and
    Toggle alone, the carried object by Pickup and Drop, the position by
    Forward, the direction by Left and Right. *)
Theorem step_frame act s r s' :
  MiniGridStep act s = Ok (r, s') ->
  (act <> kPickup -> act <> kDrop -> act <> kToggle ->
   grid_ s' = grid_ s) /\
  (act <> kPickup -> act <> kDrop -> carrying_ s' = carrying_ s) /\
  (act <> kForward -> agent_pos_ s' = agent_pos_ s) /\
  (act <> kLeft -> act <> kRight -> agent_dir_ s' = agent_dir_ s).
Proof.
  intros (fx & fy & s1 & _ & _ & Ha & ->)%step_inv.
  destruct (step_epilogue_fields s1) as (-> & -> & -> & -> & _).
  unfold step_action, toggle_door, toggle_box in Ha.
  destruct act; cbv zeta in Ha; inv_method; env_simpl; done.
Qed.

(** X8. Left and Right turn the agent by a quarter: the direction becomes [dir
    - 1] and [dir + 1] modulo 4, at no reward. *)
Theorem step_turn act s r s' :
  act = kLeft \/ act = kRight ->
  MiniGridStep act s = Ok (r, s') ->
  r = float_zero /\
  agent_dir_ s' =
    (agent_dir_ s + (if bool_decide (act = kLeft) then 3 else 1)) mod 4 /\
  0 <= agent_dir_ s' <= 3.
Proof.
  intros Hact (fx & fy & s1 & Hf%forward_pos_Some & _ & Ha & ->)%step_inv.
  destruct (step_epilogue_fields s1) as (_ & _ & _ & -> & _).
  unfold step_action in Ha.
  destruct Hact as [-> | ->]; cbv zeta in Ha; inv_method; env_simpl.
  - split; [done|]. cbn [bool_decide decide_rel Act_eq_dec].
    assert (agent_dir_ s = 0) as -> by lia. by vm_compute.
  - split; [done|].
    assert (agent_dir_ s = 1 \/ agent_dir_ s = 2 \/ agent_dir_ s = 3)
      as [-> | [-> | ->]] by lia; by vm_compute.
  - split; [done|].
    assert (agent_dir_ s = 0 \/ agent_dir_ s = 1 \/ agent_dir_ s = 2
            \/ agent_dir_ s = 3) as [-> | [-> | [-> | ->]]] by lia;
      by vm_compute.
Qed.

(** X9. A turn to the left followed by a turn to the right leaves the agent as
    it was: direction, position, carried object and grid. *)
Theorem step_left_then_right s r1 s1 r2 s2 :
  MiniGridStep kLeft s = Ok (r1, s1) ->
  MiniGridStep kRight s1 = Ok (r2, s2) ->
  agent_dir_ s2 = agent_dir_ s /\ agent_pos_ s2 = agent_pos_ s /\
  carrying_ s2 = carrying_ s /\ grid_ s2 = grid_ s.
Proof.
  intros (fx & fy & t1 & Hf%forward_pos_Some & _ & Ha & ->)%step_inv.
  intros (fx' & fy' & t2 & _ & _ & Hb & ->)%step_inv.
  destruct (step_epilogue_fields t2) as (-> & -> & -> & -> & _).
  unfold step_action in Ha, Hb. cbv zeta in Ha, Hb.
  apply bind_Ok in Hb as (d & u & [-> ->]%member_Ok & Hb).
  apply bind_Ok in Hb as (? & u & ->%assign_Ok & [_ ->]%ret_Ok).
  env_simpl.
  destruct (step_epilogue_fields t1) as (-> & -> & -> & -> & _).
  inv_method; env_simpl; (split; [|done]).
  - assert (agent_dir_ s = 0) as -> by lia. by vm_compute.
  - assert (agent_dir_ s = 1 \/ agent_dir_ s = 2 \/ agent_dir_ s = 3)
      as [-> | [-> | ->]] by lia; by vm_compute.
Qed.

(** X10. Forward: the agent moves into the forward cell exactly when the cell
    can be overlapped; a Goal there ends the episode with the goal reward of
    the new step count, Lava ends it with reward 0; nothing else changes but
    the step count and the time limit's [done_]. *)
Theorem step_forward s r s' fx fy cell :
  MiniGridStep kForward s = Ok (r, s') ->
  forward_pos (agent_pos_ s) (agent_dir_ s) = Some (fx, fy) ->
  grid_get (grid_ s) fx fy = Some cell ->
  agent_pos_ s' = (if CanOverlap cell then (fx, fy) else agent_pos_ s) /\
  r = (if bool_decide (GetType cell = kGoal)
       then goal_reward (step_count_ s + 1) (max_steps_ s)
       else float_zero) /\
  done_ s' = (done_ s || bool_decide (GetType cell = kGoal)
              || bool_decide (GetType cell = kLava)
              || (max_steps_ s <=? step_count_ s + 1)).
Proof.
  intros (fx' & fy' & s1 & Hf & _ & Ha & ->)%step_inv Hf' Hcell.
  rewrite Hf in Hf'. injection Hf' as -> ->.
  destruct (step_epilogue_fields s1) as (_ & _ & -> & _).
  assert (step_count_ s1 = step_count_ s + 1 /\ max_steps_ s1 = max_steps_ s)
    as [Hsc Hms].
  { pose proof (step_action_keeps_config _ _ _ _ _ Ha) as Hcfg.
    cbv beta in Hcfg. env_simpl. by injection Hcfg as _ _ -> _ _ _ ->. }
  unfold step_epilogue. rewrite Hsc, Hms. clear Hsc Hms.
  unfold step_action in Ha. cbv zeta in Ha. inv_method; env_simpl;
    repeat match goal with
    | Hc : grid_get (grid_ s) fx fy = Some ?c |- _ =>
        rewrite Hcell in Hc; injection Hc as <-
    end;
    repeat match goal with
    | Hb : bool_decide _ = _ |- _ => rewrite Hb
    | Hb : CanOverlap _ = _ |- _ => rewrite Hb
    end;
    destruct (max_steps_ s <=? step_count_ s + 1); env_simpl;
    rewrite ?orb_true_r, ?orb_false_r; done.
Qed.

Lemma toggle_unlocked_door_run t fx fy cell :
  forward_pos (agent_pos_ t) (agent_dir_ t) = Some (fx, fy) ->
  0 <= fx < width_ t -> 0 <= fy < height_ t ->
  grid_get (grid_ t) fx fy = Some cell ->
  GetType cell = kDoor -> GetDoorLocked cell = false ->
  exists t',
    MiniGridStep kToggle t = Ok (float_zero, t') /\
    grid_ t' = grid_set (grid_ t) fx fy
                 (SetDoorOpen (negb (GetDoorOpen cell)) cell) /\
    agent_pos_ t' = agent_pos_ t /\ agent_dir_ t' = agent_dir_ t /\
    width_ t' = width_ t /\ height_ t' = height_ t.
Proof.
  intros Hft Hxt Hyt Hct Hd Hl.
  rewrite (step_run _ _ _ _ Hft Hxt Hyt).
  unfold step_action, toggle_door, bind, member, when, ret, read_cell,
    write_cell.
  env_simpl. rewrite Hct. env_simpl.
  rewrite (bool_decide_eq_true_2 _ Hd), Hl. env_simpl.
  rewrite Hct. env_simpl. rewrite Hct.
  eexists. split; [reflexivity|].
  unfold step_epilogue. by destruct (_ <=? _).
Qed.

(** X12. Toggle in front of an unlocked door flips its open flag, and a second
    Toggle puts the door, and the grid, back. *)
Theorem toggle_unlocked_door_twice s fx fy door :
  forward_pos (agent_pos_ s) (agent_dir_ s) = Some (fx, fy) ->
  0 <= fx < width_ s -> 0 <= fy < height_ s ->
  grid_get (grid_ s) fx fy = Some door ->
  GetType door = kDoor -> GetDoorLocked door = false ->
  exists s1 s2,
    MiniGridStep kToggle s = Ok (float_zero, s1) /\
    grid_get (grid_ s1) fx fy
      = Some (SetDoorOpen (negb (GetDoorOpen door)) door) /\
    MiniGridStep kToggle s1 = Ok (float_zero, s2) /\
    grid_ s2 = grid_ s.
Proof.
  intros Hf Hx Hy Hc Hdoor Hunlocked.
  destruct (toggle_unlocked_door_run s fx fy door)
    as (s1 & Hs1 & Hg1 & Hp1 & Hd1 & Hw1 & Hh1); [done..|].
  set (door1 := SetDoorOpen (negb (GetDoorOpen door)) door) in *.
  assert (grid_get (grid_ s1) fx fy = Some door1) as Hc1.
  { rewrite Hg1. by eapply grid_get_set_eq. }
  destruct (toggle_unlocked_door_run s1 fx fy door1)
    as (s2 & Hs2 & Hg2 & _); [by rewrite ?Hp1, ?Hd1, ?Hw1, ?Hh1..| | | |].
  - done.
  - done.
  - subst door1. by apply SetDoorOpen_unlocked.
  - exists s1, s2. do 3 (split; [done|]).
    rewrite Hg2, Hg1.
    replace (SetDoorOpen (negb (GetDoorOpen door1)) door1) with door.
    + by eapply grid_set_set_id.
    + subst door1.
      destruct (SetDoorOpen_unlocked (negb (GetDoorOpen door)) door
                  Hunlocked) as (_ & Hopen & Hback).
      by rewrite Hopen, negb_involutive, Hback.
Qed.

(** X13. Toggle in front of a Box opens it: the cell holds what the box
    contained, with its own contents, or a fresh Empty object when the box was
    empty. *)
Theorem toggle_box_opens s fx fy box :
  forward_pos (agent_pos_ s) (agent_dir_ s) = Some (fx, fy) ->
  0 <= fx < width_ s -> 0 <= fy < height_ s ->
  grid_get (grid_ s) fx fy = Some box ->
  GetType box = kBox ->
  exists s',
    MiniGridStep kToggle s = Ok (float_zero, s') /\
    grid_get (grid_ s') fx fy =
      Some (match GetContains box with
            | Some inner => inner
            | None => NewObj kEmpty
            end).
Proof.
  intros Hf Hx Hy Hc Hbox.
  assert (GetType box <> kDoor) as Hnd by (rewrite Hbox; done).
  rewrite (step_run _ _ _ _ Hf Hx Hy).
  unfold step_action, toggle_box, bind, member, when, ret, read_cell,
    write_cell.
  destruct (GetContains box) as [inner|] eqn:Hcont.
  - repeat (progress (env_simpl;
      rewrite ?Hc, ?Hcont, ?(bool_decide_eq_false_2 _ Hnd),
        ?(bool_decide_eq_true_2 _ Hbox),
        ?(grid_get_set_eq _ _ _ _ inner Hc))).
    eexists. split; [reflexivity|].
    rewrite SetContains_same.
    unfold step_epilogue. destruct (_ <=? _); env_simpl;
      (eapply grid_get_set_eq; by eapply grid_get_set_eq).
  - repeat (progress (env_simpl;
      rewrite ?Hc, ?Hcont, ?(bool_decide_eq_false_2 _ Hnd),
        ?(bool_decide_eq_true_2 _ Hbox))).
    eexists. split; [reflexivity|].
    unfold step_epilogue. destruct (_ <=? _); env_simpl;
      by eapply grid_get_set_eq.
Qed.

(** X14. Pickup with a hand that is not Empty, or towards an object that
    cannot be picked up, and Drop with an Empty hand, or towards a cell that
    is not Empty, change neither the grid nor the carried object. *)
Theorem hand_action_blocked act s r s' fx fy cell :
  MiniGridStep act s = Ok (r, s') ->
  forward_pos (agent_pos_ s) (agent_dir_ s) = Some (fx, fy) ->
  grid_get (grid_ s) fx fy = Some cell ->
  (act = kPickup /\
     (GetType (carrying_ s) <> kEmpty \/ CanPickup cell = false)) \/
  (act = kDrop /\
     (GetType (carrying_ s) = kEmpty \/ GetType cell <> kEmpty)) ->
  grid_ s' = grid_ s /\ carrying_ s' = carrying_ s.
Proof.
  intros (fx' & fy' & s1 & Hf & _ & Ha & ->)%step_inv Hf' Hcell Hblocked.
  rewrite Hf in Hf'. injection Hf' as -> ->.
  destruct (step_epilogue_fields s1) as (-> & -> & _).
  unfold step_action in Ha.
  destruct Hblocked as [[-> Hb]|[-> Hb]]; cbv zeta in Ha; inv_method;
    env_simpl; try done;
    repeat match goal with
    | Hc : grid_get (grid_ s) fx fy = Some ?c |- _ =>
        rewrite Hcell in Hc; injection Hc as <-
    end; exfalso.
  - match goal with
    | Hb' : _ && _ = true |- _ =>
        apply andb_true_iff in Hb' as [Ht%bool_decide_eq_true Hp]
    end.
    destruct Hb as [Hb|Hb]; [done|congruence].
  - match goal with
    | Hb' : _ && _ = true |- _ =>
        apply andb_true_iff in Hb'
          as [Ht%negb_true_iff%bool_decide_eq_false Hp%bool_decide_eq_true]
    end.
    destruct Hb as [Hb|Hb]; done.
Qed.
End StepBranches.

(** The branches on the sample worlds. *)
Lemma step_turn_witness :
  exists r s',
    MiniGridStep kLeft Sample.facing_key = Ok (r, s') /\
    r = float_zero /\ agent_dir_ s' = 3.
Proof.
  destruct (MiniGridStep kLeft Sample.facing_key)
    as [[r s']| |] eqn:Hstep; [|by vm_compute in Hstep..].
  exists r, s'. split; [reflexivity|].
  destruct (step_turn kLeft Sample.facing_key r s' (or_introl eq_refl) Hstep)
    as (Hr & Hd & _).
  split; [exact Hr|exact Hd].
Defined.

(** * More on placement *)

Section PlacementMore.
Context {Rng : Type} (draw : Z -> Z -> Rng -> Z * Rng).
Hypothesis draw_range :
  forall a b gen, a <= b -> a <= fst (draw a b gen) <= b.

(** The cell that one iteration looks at lies in the rectangle. *)
Lemma PlaceObject_iter_cases sx sy ex ey s gen :
  sx <= ex -> sy <= ey ->
  exists x y gen',
    (sx <= x <= ex /\ sy <= y <= ey) /\
    PlaceObject_iter draw sx sy ex ey s gen =
      match grid_get (grid_ s) x y with
      | None => Undef
      | Some cell =>
          if negb (bool_decide (GetType cell = kEmpty)) then Ok (inl gen')
          else if (fst (agent_pos_ s) =? x) && (snd (agent_pos_ s) =? y)
               then Ok (inl gen')
               else Ok (inr ((x, y), gen'))
      end.
Proof.
  intros Hx Hy. unfold PlaceObject_iter.
  pose proof (draw_range sx ex gen Hx) as Hdx.
  destruct (draw sx ex gen) as [x gen1]. cbn [fst] in Hdx.
  pose proof (draw_range sy ey gen1 Hy) as Hdy.
  destruct (draw sy ey gen1) as [y gen2]. cbn [fst] in Hdy.
  by exists x, y, gen2.
Qed.

(** More fuel does not change a result. *)
Lemma PlaceObject_loop_mono fuel fuel' sx sy ex ey s gen res :
  (fuel <= fuel')%nat ->
  PlaceObject_loop draw fuel sx sy ex ey s gen = Some res ->
  PlaceObject_loop draw fuel' sx sy ex ey s gen = Some res.
Proof.
  revert fuel' gen. induction fuel as [|fuel IH]; intros fuel' gen Hle;
    [done|].
  destruct fuel' as [|fuel']; [lia|]. cbn [PlaceObject_loop].
  destruct (PlaceObject_iter draw sx sy ex ey s gen)
    as [[gen1|res1]| |]; try done.
  apply IH. lia.
Qed.

(** The loop of [PlaceObject] is the same loop however long it is allowed
    to run: a result found within [fuel] iterations is the result for any
    larger bound. *)
Lemma PlaceObject_fuel_mono fuel fuel' sx sy ex ey s gen res :
  (fuel <= fuel')%nat ->
  PlaceObject draw fuel sx sy ex ey s gen = Some res ->
  PlaceObject draw fuel' sx sy ex ey s gen = Some res.
Proof.
  unfold PlaceObject. intros Hle.
  destruct ((ex <? sx) || (ey <? sy)); [done|].
  by apply PlaceObject_loop_mono.
Qed.

(** X16. The latent hang: on a rectangle of grid cells none of which is free,
    [PlaceObject] does not return, whatever the number of iterations. *)
Theorem PlaceObject_no_free_cell fuel sx sy ex ey s gen :
  sx <= ex -> sy <= ey ->
  (forall x y, sx <= x <= ex -> sy <= y <= ey ->
     exists cell, grid_get (grid_ s) x y = Some cell /\
                  (GetType cell <> kEmpty \/ agent_pos_ s = (x, y))) ->
  PlaceObject draw fuel sx sy ex ey s gen = None.
Proof.
  intros Hx Hy Hfull. unfold PlaceObject.
  assert ((ex <? sx) || (ey <? sy) = false) as -> by lia.
  revert gen. induction fuel as [|fuel IH]; intros gen; [done|].
  cbn [PlaceObject_loop].
  destruct (PlaceObject_iter_cases sx sy ex ey s gen Hx Hy)
    as (x & y & gen' & [Hrx Hry] & ->).
  destruct (Hfull x y Hrx Hry) as (cell & -> & Hocc).
  destruct (bool_decide (GetType cell = kEmpty)) eqn:Ht; cbn [negb];
    [|apply IH].
  destruct Hocc as [Hne|Hpos].
  - by apply bool_decide_eq_true in Ht.
  - rewrite Hpos. cbn [fst snd]. rewrite !Z.eqb_refl. cbn [andb]. apply IH.
Qed.

(** X17. On a rectangle of grid cells [PlaceObject] has no other outcome than
    a position, or the end of the fuel. *)
Theorem PlaceObject_defined fuel sx sy ex ey s gen :
  sx <= ex -> sy <= ey ->
  (forall x y, sx <= x <= ex -> sy <= y <= ey ->
     is_Some (grid_get (grid_ s) x y)) ->
  PlaceObject draw fuel sx sy ex ey s gen = None \/
  exists pos gen', PlaceObject draw fuel sx sy ex ey s gen
                     = Some (Ok (pos, gen')).
Proof.
  intros Hx Hy Hgrid. unfold PlaceObject.
  assert ((ex <? sx) || (ey <? sy) = false) as -> by lia.
  revert gen. induction fuel as [|fuel IH]; intros gen; [by left|].
  cbn [PlaceObject_loop].
  destruct (PlaceObject_iter_cases sx sy ex ey s gen Hx Hy)
    as (x & y & gen' & [Hrx Hry] & ->).
  destruct (Hgrid x y Hrx Hry) as [cell ->].
  destruct (negb _); [apply IH|].
  destruct (_ && _); [apply IH|]. right. by eexists _, _.
Qed.

Lemma PlaceObject_not_Abort fuel sx sy ex ey s gen :
  PlaceObject draw fuel sx sy ex ey s gen <> Some Abort.
Proof.
  unfold PlaceObject. destruct ((ex <? sx) || (ey <? sy)); [done|].
  revert gen. induction fuel as [|fuel IH]; intros gen; [done|].
  cbn [PlaceObject_loop]. unfold PlaceObject_iter.
  destruct (draw sx ex gen) as [x gen1].
  destruct (draw sy ey gen1) as [y gen2].
  destruct (grid_get _ x y) as [cell|]; [|done].
  destruct (negb _); [apply IH|]. destruct (_ && _); [apply IH|done].
Qed.

Lemma PlaceObject_Ok_inv fuel sx sy ex ey s gen x y gen' :
  PlaceObject draw fuel sx sy ex ey s gen = Some (Ok ((x, y), gen')) ->
  sx <= x <= ex /\ sy <= y <= ey /\ free_cell s x y.
Proof.
  unfold PlaceObject.
  destruct (ex <? sx) eqn:Ex; [done|].
  destruct (ey <? sy) eqn:Ey; [done|]. cbn [orb].
  apply PlaceObject_loop_result; (done || lia).
Qed.

(** X18. [PlaceAgent] fails its [CHECK] when the rectangle, with -1 read as
    the last column or row, is empty; when it returns, the agent stands in the
    rectangle on a cell of type Empty, the grid is as before, and the
    direction is one of 0..3 when no start direction is configured and the old
    direction otherwise. *)
Theorem PlaceAgent_result fuel sx sy ex ey s gen :
  let ex' := if ex =? -1 then width_ s - 1 else ex in
  let ey' := if ey =? -1 then height_ s - 1 else ey in
  (PlaceAgent draw fuel sx sy ex ey s gen = Some Abort <->
     ~ (sx <= ex' /\ sy <= ey')) /\
  (forall s' gen',
     PlaceAgent draw fuel sx sy ex ey s gen = Some (Ok (s', gen')) ->
     (sx <= fst (agent_pos_ s') <= ex' /\ sy <= snd (agent_pos_ s') <= ey') /\
     (exists cell,
        grid_get (grid_ s') (fst (agent_pos_ s')) (snd (agent_pos_ s'))
          = Some cell /\ GetType cell = kEmpty) /\
     grid_ s' = grid_ s /\
     (if agent_start_dir_ s =? -1 then 0 <= agent_dir_ s' <= 3
      else agent_dir_ s' = agent_dir_ s)).
Proof.
  intros ex' ey'. unfold PlaceAgent. fold ex' ey'.
  destruct ((sx <=? ex') && (sy <=? ey')) eqn:Hrect; cbn [negb].
  2: { split; [split; [lia|done]|done]. }
  assert (sx <= ex' /\ sy <= ey') as [Hx Hy] by lia.
  pose proof (PlaceObject_Ok_inv fuel sx sy ex' ey'
                (set_agent_pos (-1, -1) s) gen) as Hres.
  pose proof (PlaceObject_not_Abort fuel sx sy ex' ey'
                (set_agent_pos (-1, -1) s) gen) as Hna.
  destruct (PlaceObject draw fuel sx sy ex' ey' (set_agent_pos (-1, -1) s) gen)
    as [[[[x y] gen1]| |]|]; try done.
  - split; [split; [|tauto]|].
    { env_simpl. destruct (agent_start_dir_ s =? -1); [|done].
      by destruct (draw 0 3 gen1). }
    intros s' gen'. env_simpl.
    destruct (Hres x y gen1 eq_refl) as (Hinx & Hiny & Hcell & _). env_simpl.
    destruct (agent_start_dir_ s =? -1) eqn:Hdir.
    + pose proof (draw_range 0 3 gen1 ltac:(lia)) as Hd.
      destruct (draw 0 3 gen1) as [d gen2]. cbn [fst] in Hd.
      intros [= <- <-]. env_simpl. repeat split; (done || lia).
    + intros [= <- <-]. env_simpl. repeat split; (done || lia).
  - split; [split; [done|tauto]|done].
  - split; [split; [done|tauto]|done].
Qed.
End PlacementMore.

(** * More on the observation *)

Lemma for_each_invariant {S} (P : S -> Prop) (l : list nat)
    (body : nat -> S -> S) s :
  (forall i acc, i ∈ l -> P acc -> P (body i acc)) ->
  P s -> P (for_each l body s).
Proof.
  unfold for_each. revert s. induction l as [|i l IH]; intros s Hbody Hs;
    [done|].
  cbn [fold_left]. apply IH.
  - intros j acc Hj. apply Hbody. by right.
  - apply Hbody; [by left|done].
Qed.

Lemma mask_get_set (m : list (list bool)) r c r' c' :
  mask_get (view_set m r c true) r' c' = true <->
  mask_get m r' c' = true \/
  ((r', c') = (r, c) /\ is_Some (view_get m r c)).
Proof.
  unfold mask_get.
  destruct (decide ((r', c') = (r, c))) as [[= -> ->]|Hne].
  - unfold view_set, view_get.
    destruct (m !! r) as [row|] eqn:Hr.
    + rewrite list_lookup_insert_eq by (by eapply lookup_lt_Some).
      destruct (row !! c) as [b|] eqn:Hc.
      * rewrite list_lookup_insert_eq by (by eapply lookup_lt_Some).
        split; [intros _; right; by split|done].
      * rewrite list_insert_ge by (by apply lookup_ge_None).
        rewrite Hc. split; [done|]. intros [?|[_ [? ?]]]; done.
    + rewrite Hr. split; [done|]. intros [?|[_ [? ?]]]; done.
  - rewrite view_get_set_ne by done. split; [by left|].
    intros [?|[? _]]; done.
Qed.

Lemma mask_get_set_mono (m : list (list bool)) r c r' c' :
  mask_get m r' c' = true -> mask_get (view_set m r c true) r' c' = true.
Proof. intros Hm. apply mask_get_set. by left. Qed.

Lemma mask_get_replicate n b r c :
  mask_get (replicate n (replicate n b)) r c =
    if bool_decide (r < n /\ c < n)%nat then b else false.
Proof.
  unfold mask_get, view_get.
  destruct (decide (r < n)%nat) as [Hr|Hr].
  - rewrite lookup_replicate_2 by done.
    destruct (decide (c < n)%nat) as [Hc|Hc].
    + rewrite lookup_replicate_2 by done.
      by rewrite bool_decide_eq_true_2.
    + rewrite (proj1 (lookup_replicate_None _ _ _)) by lia.
      rewrite bool_decide_eq_false_2; [done|lia].
  - rewrite (proj1 (lookup_replicate_None _ _ _)) by lia.
    rewrite bool_decide_eq_false_2; [done|lia].
Qed.

Lemma lookup_map {A B} (f : A -> B) (l : list A) i :
  map f l !! i = f <$> (l !! i).
Proof.
  revert i. induction l as [|a l IH]; intros [|i]; cbn;
    first [done | apply IH].
Qed.

Lemma mask_get_all_true n r c :
  (r < n)%nat -> (c < n)%nat ->
  mask_get (map (map (fun _ => true)) (replicate n (replicate n false))) r c
    = true.
Proof.
  intros Hr Hc. unfold mask_get, view_get.
  rewrite lookup_map, lookup_replicate_2 by done. cbn.
  by rewrite lookup_map, lookup_replicate_2 by done.
Qed.

Section VisFacts.
Context `{WorldObjApi}.

Lemma sweep_right_mono view j i m r c :
  mask_get m r c = true -> mask_get (sweep_right view j i m) r c = true.
Proof.
  intros Hm. unfold sweep_right.
  destruct (negb (mask_get m j i)); [done|].
  destruct (negb (see_behind view j i)); [done|]. cbv zeta.
  destruct (0 <? j)%nat; repeat apply mask_get_set_mono; done.
Qed.

Lemma sweep_left_mono view j i m r c :
  mask_get m r c = true -> mask_get (sweep_left view j i m) r c = true.
Proof.
  intros Hm. unfold sweep_left.
  destruct (negb (mask_get m j i)); [done|].
  destruct (negb (see_behind view j i)); [done|]. cbv zeta.
  destruct (0 <? j)%nat; repeat apply mask_get_set_mono; done.
Qed.

(** A cell once marked stays marked through the sweeps. *)
Lemma sweeps_mono view n m r c :
  mask_get m r c = true ->
  mask_get
    (for_each (rev (seq 0 n)) (fun j vis_mask =>
       let vis_mask :=
         for_each (seq 0 (n - 1)) (sweep_right view j) vis_mask in
       for_each (rev (seq 1 (n - 1))) (sweep_left view j) vis_mask) m)
    r c = true.
Proof.
  intros Hm.
  apply (for_each_invariant (fun m => mask_get m r c = true)); [|done].
  intros j acc _ Hacc. cbv zeta.
  apply (for_each_invariant (fun m => mask_get m r c = true)).
  { intros i acc' _. apply sweep_left_mono. }
  apply (for_each_invariant (fun m => mask_get m r c = true)); [|done].
  intros i acc' _. apply sweep_right_mono.
Qed.

(** The agent's own cell is always marked visible. *)
Lemma process_vis_agent_cell st n view :
  (0 < n)%nat -> mask_get (process_vis st n view) (n - 1) (n / 2) = true.
Proof.
  intros Hn. assert (n / 2 < n)%nat as Hhalf by (apply Nat.div_lt; lia).
  unfold process_vis. destruct st; cbn [negb].
  - apply mask_get_all_true; lia.
  - apply sweeps_mono. apply mask_get_set. right. split; [done|].
    unfold view_get. rewrite lookup_replicate_2 by lia.
    by rewrite lookup_replicate_2 by lia.
Qed.

(** Under [see_through_walls_] every cell of the viewport is marked. *)
Lemma process_vis_see_through n view r c :
  (r < n)%nat -> (c < n)%nat -> mask_get (process_vis true n view) r c = true.
Proof.
  intros Hr Hc. unfold process_vis. cbn [negb]. by apply mask_get_all_true.
Qed.
End VisFacts.

Section RenderMore.
Context `{WorldObjApi}.

(** X19. [GenImage] fails a [CHECK] exactly when the direction is not one of
    0..3; on a grid in its shape, with a direction of 0..3 and a view size of
    at least 1, it returns. *)
Theorem GenImage_outcome obs s :
  (GenImage obs s = Abort <-> ~ 0 <= agent_dir_ s <= 3) /\
  (well_formed s -> 0 <= agent_dir_ s <= 3 -> 1 <= agent_view_size_ s ->
   exists obs', GenImage obs s = Ok (obs', s)).
Proof.
  split; [|apply GenImage_returns].
  unfold GenImage, bind, member, ret, CHECK, read_view, undefined, view_top.
  destruct (agent_dir_ s =? 0) eqn:E0;
    [|destruct (agent_dir_ s =? 1) eqn:E1;
      [|destruct (agent_dir_ s =? 2) eqn:E2;
        [|destruct (agent_dir_ s =? 3) eqn:E3]]].
  5: { split; [lia|done]. }
  all: split; [|lia].
  all: destruct (gen_view _ _ _ _); [|done].
  all: by destruct (agent_view_size_ s <? 1).
Qed.

(** X20. The agent's own cell, at the bottom row and the middle column of the
    viewport, always holds the codes of the carried object, or of a fresh
    Empty object when nothing is carried. *)
Theorem GenImage_agent_cell obs s obs' s' :
  GenImage obs s = Ok (obs', s') ->
  let x := Z.quot (agent_view_size_ s) 2 in
  let y := agent_view_size_ s - 1 in
  let shown := if bool_decide (GetType (carrying_ s) = kEmpty)
               then NewObj kEmpty else carrying_ s in
  obs' x y 0 = uint8 (type_code (GetType shown)) /\
  obs' x y 1 = uint8 (GetColor shown) /\
  obs' x y 2 = uint8 (GetState shown).
Proof.
  intros Hrun x y shown.
  destruct (GenImage_inv _ _ _ _ Hrun)
    as (top & extracted & _ & _ & Hvs & Hmask & _). cbv zeta in Hmask.
  set (n := Z.to_nat (agent_view_size_ s)) in *.
  assert (0 < n)%nat as Hn by (subst n; lia).
  assert (n / 2 < n)%nat as Hhalf by (apply Nat.div_lt; lia).
  assert (x = Z.of_nat (n / 2)) as ->.
  { subst x n. rewrite Nat2Z.inj_div, Z2Nat.id by lia.
    by rewrite Z.quot_div_nonneg by lia. }
  assert (y = Z.of_nat (n - 1)) as -> by (subst y n; lia).
  pose proof (fun k => GenImage_cell obs s obs' s' _ (n - 1) (n / 2) k
                         Hrun Hmask) as Hcell.
  cbv zeta in Hcell. fold n in Hcell.
  rewrite bool_decide_eq_true_2 in Hcell by done.
  assert (forall k, 0 <= k <= 2 ->
            obs' (Z.of_nat (n / 2)) (Z.of_nat (n - 1)) k =
              if k =? 0 then uint8 (type_code (GetType shown))
              else if k =? 1 then uint8 (GetColor shown)
              else uint8 (GetState shown)) as Hk.
  { intros k Hk. destruct (Hcell k) as (o & -> & ->); try (done || lia).
    by apply process_vis_agent_cell. }
  rewrite (Hk 0), (Hk 1), (Hk 2) by lia. done.
Qed.

(** X22. With [see_through_walls_] set every cell of the viewport is marked
    visible. *)
Theorem GenImage_see_through s mask r c :
  see_through_walls_ s = true ->
  vis_mask_of s = Some mask ->
  (r < Z.to_nat (agent_view_size_ s))%nat ->
  (c < Z.to_nat (agent_view_size_ s))%nat ->
  mask_get mask r c = true.
Proof.
  unfold vis_mask_of. intros Hst.
  destruct (view_top _ _ _) as [top|]; [|done].
  destruct (gen_view _ _ _ _) as [extracted|]; [|done].
  intros [= <-] Hr Hc. rewrite Hst. by apply process_vis_see_through.
Qed.

(** X23. What [GenImage] writes for a visible cell is a byte, and for a cell
    other than the agent's it depends on the type of the grid cell alone:
    channels 1 and 2 hold the color and the state code of an object newly
    constructed from that type. *)
Theorem GenImage_from_type_alone obs s obs' s' mask (r c : nat) :
  let size := agent_view_size_ s in
  let n := Z.to_nat size in
  GenImage obs s = Ok (obs', s') ->
  vis_mask_of s = Some mask ->
  (r < n)%nat -> (c < n)%nat ->
  mask_get mask r c = true ->
  (forall k, 0 <= k <= 2 -> 0 <= obs' (Z.of_nat c) (Z.of_nat r) k < 256) /\
  ((r, c) <> (n - 1, n / 2)%nat ->
   exists t,
     world_type s
       (fst (view_to_world (agent_pos_ s) (agent_dir_ s) size
               (Z.of_nat r) (Z.of_nat c)))
       (snd (view_to_world (agent_pos_ s) (agent_dir_ s) size
               (Z.of_nat r) (Z.of_nat c))) = Some t /\
     obs' (Z.of_nat c) (Z.of_nat r) 1 = uint8 (GetColor (NewObj t)) /\
     obs' (Z.of_nat c) (Z.of_nat r) 2 = uint8 (GetState (NewObj t))).
Proof.
  intros size n Hrun Hmask Hr Hc Hvis.
  pose proof (fun k => GenImage_cell obs s obs' s' mask r c k Hrun Hmask
                         Hr Hc Hvis) as Hcell.
  cbv zeta in Hcell. subst size n. split.
  - intros k Hk. destruct (Hcell k Hk) as (o & _ & ->).
    unfold uint8. destruct (k =? 0); [|destruct (k =? 1)];
      by apply Z.mod_pos_bound.
  - intros Hne.
    destruct (Hcell 1) as (o1 & Ho1 & ->); [lia|].
    destruct (Hcell 2) as (o2 & Ho2 & ->); [lia|].
    rewrite bool_decide_eq_false_2 in Ho1, Ho2 by done.
    destruct Ho1 as (t & Ht & ->). destruct Ho2 as (t' & Ht' & ->).
    rewrite Ht in Ht'. injection Ht' as <-. by exists t.
Qed.
End RenderMore.

(** X24. The rotation step moves the element at row [c], column [size - 1 - r]
    to row [r], column [c], and keeps the shape of the grid. *)
Theorem rotate_ccw_spec {A} (n : nat) (g : list (list A)) :
  grid_shape n n g ->
  grid_shape n n (rotate_ccw n g) /\
  forall r c, (r < n)%nat -> (c < n)%nat ->
    view_get (rotate_ccw n g) r c = view_get g c (n - 1 - r).
Proof.
  intros Hg. split; [by apply rotate_ccw_shape|].
  intros r c Hr Hc. by apply rotate_ccw_get.
Qed.

(** * Where visibility comes from *)

Section VisSource.
Context `{WorldObjApi}.
Context (view : list (list WorldObj)) (seed : nat * nat).

(** Every marked cell is the seed or is lit from a neighbour. *)
Let sourced (m : list (list bool)) : Prop :=
  forall r c, mask_get m r c = true -> (r, c) = seed \/ lit_from view m r c.

Lemma lit_from_mono (m m' : list (list bool)) r c :
  (forall r c, mask_get m r c = true -> mask_get m' r c = true) ->
  lit_from view m r c -> lit_from view m' r c.
Proof.
  intros Hmono (r' & c' & Hm & Hsee & Hadj).
  exists r', c'. split; [by apply Hmono|done].
Qed.

(** Marking the three cells that a sweep marks from [(j, i)]. *)
Lemma sourced_spread m j i (targets : list (nat * nat)) :
  sourced m ->
  mask_get m j i = true -> see_behind view j i = true ->
  (forall t, t ∈ targets ->
     (j = fst t /\ (i + 1 = snd t \/ snd t + 1 = i)) \/
     (j = fst t + 1 /\ (i = snd t \/ i + 1 = snd t \/ snd t + 1 = i)))%nat ->
  sourced (fold_left (fun acc t => view_set acc (fst t) (snd t) true)
             targets m).
Proof.
  intros Hsrc Hm Hsee. revert m Hsrc Hm.
  induction targets as [|t targets IH]; intros m Hsrc Hm Hadj; [done|].
  cbn [fold_left]. apply IH.
  - intros r c [Hold|[[= -> ->] _]]%mask_get_set.
    + destruct (Hsrc r c Hold) as [?|Hlit]; [by left|right].
      eapply lit_from_mono; [|done]. intros. by apply mask_get_set_mono.
    + right. exists j, i. split; [by apply mask_get_set_mono|].
      split; [done|]. apply Hadj. by left.
  - by apply mask_get_set_mono.
  - intros t' Ht'. apply Hadj. by right.
Qed.

Lemma sweep_right_sourced j i m :
  sourced m -> sourced (sweep_right view j i m).
Proof.
  intros Hsrc. unfold sweep_right.
  destruct (mask_get m j i) eqn:Hm; [|done]. cbn [negb].
  destruct (see_behind view j i) eqn:Hsee; [|done]. cbn [negb]. cbv zeta.
  destruct (0 <? j)%nat eqn:Hj.
  - apply (sourced_spread m j i
             [(j, i + 1); (j - 1, i + 1); (j - 1, i)]%nat); [done..|].
    apply Nat.ltb_lt in Hj.
    intros t Ht. repeat (apply elem_of_cons in Ht as [->|Ht]);
      [cbn [fst snd]; lia..|by apply elem_of_nil in Ht].
  - apply (sourced_spread m j i [(j, i + 1)%nat]); [done..|].
    intros t ->%list_elem_of_singleton. cbn [fst snd]. lia.
Qed.

Lemma sweep_left_sourced j i m :
  (1 <= i)%nat -> sourced m -> sourced (sweep_left view j i m).
Proof.
  intros Hi Hsrc. unfold sweep_left.
  destruct (mask_get m j i) eqn:Hm; [|done]. cbn [negb].
  destruct (see_behind view j i) eqn:Hsee; [|done]. cbn [negb]. cbv zeta.
  destruct (0 <? j)%nat eqn:Hj.
  - apply (sourced_spread m j i
             [(j, i - 1); (j - 1, i - 1); (j - 1, i)]%nat); [done..|].
    apply Nat.ltb_lt in Hj.
    intros t Ht. repeat (apply elem_of_cons in Ht as [->|Ht]);
      [cbn [fst snd]; lia..|by apply elem_of_nil in Ht].
  - apply (sourced_spread m j i [(j, i - 1)%nat]); [done..|].
    intros t ->%list_elem_of_singleton. cbn [fst snd]. lia.
Qed.

Lemma sweeps_sourced n m :
  sourced m ->
  sourced
    (for_each (rev (seq 0 n)) (fun j vis_mask =>
       let vis_mask :=
         for_each (seq 0 (n - 1)) (sweep_right view j) vis_mask in
       for_each (rev (seq 1 (n - 1))) (sweep_left view j) vis_mask) m).
Proof.
  intros Hm. apply (for_each_invariant sourced); [|done].
  intros j acc _ Hacc. cbv zeta.
  apply (for_each_invariant sourced).
  { intros i acc' Hi. apply sweep_left_sourced.
    apply list_elem_of_In in Hi. rewrite <- in_rev in Hi.
    apply in_seq in Hi. lia. }
  apply (for_each_invariant sourced); [|done].
  intros i acc' _. apply sweep_right_sourced.
Qed.
End VisSource.

(** X25. Without [see_through_walls_], a cell of the viewport is marked
    visible only if it is the agent's cell, or a marked neighbour whose object
    can be seen behind lights it: the neighbour is next to it in its row, or
    in the row below it at most one column away. Walls and closed doors pass
    no visibility on. *)
Theorem vis_has_source `{WorldObjApi} (n : nat)
    (view : list (list WorldObj)) (r c : nat) :
  mask_get (process_vis false n view) r c = true ->
  (r, c) = (n - 1, n / 2)%nat \/
  lit_from view (process_vis false n view) r c.
Proof.
  intros Hvis.
  assert (forall r c,
            mask_get (process_vis false n view) r c = true ->
            (r, c) = (n - 1, n / 2)%nat \/
            lit_from view (process_vis false n view) r c) as Hall;
    [|by apply Hall].
  clear r c Hvis. unfold process_vis. cbn [negb]. cbv zeta.
  apply (sweeps_sourced view (n - 1, n / 2)%nat).
  intros r c [Hold|[Heq _]]%mask_get_set; [|by left].
  rewrite mask_get_replicate in Hold. by destruct (bool_decide _).
Qed.

(** * The further properties on the sample worlds *)

Lemma Sample_env_well_formed a b c pos dir carrying step_count done :
  well_formed (Sample.env (Sample.room a b c) pos dir carrying step_count
                 done).
Proof.
  split; [done|]. split; [done|]. split; [done|]. by repeat constructor.
Qed.

Lemma step_counts_witness :
  exists r s',
    MiniGridStep kForward Sample.done_facing_goal = Ok (r, s') /\
    step_count_ s' = 4 /\ max_steps_ s' = 10.
Proof.
  destruct (MiniGridStep kForward Sample.done_facing_goal)
    as [[r s']| |] eqn:Hstep; [|by vm_compute in Hstep..].
  exists r, s'. split; [reflexivity|].
  destruct (step_counts _ _ _ _ Hstep) as (Hc & _ & _ & Hm & _).
  split; [exact Hc|exact Hm].
Defined.

Lemma step_done_latch_witness :
  exists r s',
    MiniGridStep kDone Sample.done_facing_goal = Ok (r, s') /\
    done_ s' = true.
Proof.
  destruct (MiniGridStep kDone Sample.done_facing_goal)
    as [[r s']| |] eqn:Hstep; [|by vm_compute in Hstep..].
  exists r, s'. split; [reflexivity|].
  exact (step_done_latch _ _ _ _ Hstep eq_refl).
Defined.

Lemma step_keeps_well_formed_witness :
  exists r s',
    MiniGridStep kPickup Sample.facing_key = Ok (r, s') /\
    width_ s' = 5 /\ height_ s' = 5 /\ grid_shape 5 5 (grid_ s') /\
    well_formed s'.
Proof.
  destruct (MiniGridStep kPickup Sample.facing_key)
    as [[r s']| |] eqn:Hstep; [|by vm_compute in Hstep..].
  exists r, s'. split; [reflexivity|].
  exact (step_keeps_well_formed _ _ _ _ (Sample_env_well_formed _ _ _ _ _ _ _ _)
           Hstep).
Defined.

Lemma step_defined_witness :
  MiniGridStep kToggle Sample.at_box <> Undef.
Proof.
  exact (step_defined kToggle _ (Sample_env_well_formed _ _ _ _ _ _ _ _)).
Defined.

Lemma step_other_cells_witness :
  exists r s',
    MiniGridStep kPickup Sample.facing_key = Ok (r, s') /\
    grid_get (grid_ s') 3 1 = Some Sample.E.
Proof.
  destruct (MiniGridStep kPickup Sample.facing_key)
    as [[r s']| |] eqn:Hstep; [|by vm_compute in Hstep..].
  exists r, s'. split; [reflexivity|].
  rewrite (step_other_cells _ _ _ _ 2 1 3 1 Hstep eq_refl); [reflexivity|].
  discriminate.
Defined.

Lemma step_frame_witness :
  exists r s',
    MiniGridStep kForward Sample.done_facing_goal = Ok (r, s') /\
    grid_ s' = grid_ Sample.done_facing_goal /\
    agent_dir_ s' = 0.
Proof.
  destruct (MiniGridStep kForward Sample.done_facing_goal)
    as [[r s']| |] eqn:Hstep; [|by vm_compute in Hstep..].
  exists r, s'. split; [reflexivity|].
  destruct (step_frame _ _ _ _ Hstep) as (Hg & _ & _ & Hd).
  split; [by apply Hg|by apply Hd].
Defined.

Lemma step_left_then_right_witness :
  exists r1 s1 r2 s2,
    MiniGridStep kLeft Sample.facing_key = Ok (r1, s1) /\
    MiniGridStep kRight s1 = Ok (r2, s2) /\
    agent_dir_ s2 = 0 /\ grid_ s2 = grid_ Sample.facing_key.
Proof.
  destruct (MiniGridStep kLeft Sample.facing_key)
    as [[r1 s1]| |] eqn:H1; [|by vm_compute in H1..].
  destruct (MiniGridStep kRight s1) as [[r2 s2]| |] eqn:H2.
  - exists r1, s1, r2, s2. do 2 (split; [done|]).
    destruct (step_left_then_right _ _ _ _ _ H1 H2) as (Hd & _ & _ & Hg).
    split; [exact Hd|exact Hg].
  - exfalso. vm_compute in H1. injection H1 as _ <-. by vm_compute in H2.
  - exfalso. vm_compute in H1. injection H1 as _ <-. by vm_compute in H2.
Defined.

Lemma step_forward_witness :
  exists r s',
    MiniGridStep kForward Sample.done_facing_goal = Ok (r, s') /\
    agent_pos_ s' = (3, 1) /\ r = goal_reward 4 10 /\ done_ s' = true.
Proof.
  destruct (MiniGridStep kForward Sample.done_facing_goal)
    as [[r s']| |] eqn:Hstep; [|by vm_compute in Hstep..].
  exists r, s'. split; [reflexivity|].
  exact (step_forward Sample.done_facing_goal r s' 3 1 Sample.G Hstep
           eq_refl eq_refl).
Defined.

Lemma toggle_unlocked_door_twice_witness :
  exists s1 s2,
    MiniGridStep kToggle Sample.at_unlocked_door = Ok (float_zero, s1) /\
    grid_get (grid_ s1) 2 1 = Some (Sample.door 2 false true) /\
    MiniGridStep kToggle s1 = Ok (float_zero, s2) /\
    grid_ s2 = grid_ Sample.at_unlocked_door.
Proof.
  apply (toggle_unlocked_door_twice Sample.at_unlocked_door 2 1
           (Sample.door 2 false false));
    first [reflexivity | vm_compute; by split].
Defined.

Lemma toggle_box_opens_witness :
  exists s',
    MiniGridStep kToggle Sample.at_box = Ok (float_zero, s') /\
    grid_get (grid_ s') 2 1 = Some (Sample.key 1).
Proof.
  apply (toggle_box_opens Sample.at_box 2 1
           (mkWorldObj kBox 3 false false (Some (Sample.key 1))));
    first [reflexivity | vm_compute; by split].
Defined.

Lemma hand_action_blocked_witness :
  exists r s',
    MiniGridStep kPickup Sample.key_at_locked_door = Ok (r, s') /\
    grid_ s' = grid_ Sample.key_at_locked_door /\
    carrying_ s' = Sample.key 0.
Proof.
  destruct (MiniGridStep kPickup Sample.key_at_locked_door)
    as [[r s']| |] eqn:Hstep; [|by vm_compute in Hstep..].
  exists r, s'. split; [reflexivity|].
  apply (hand_action_blocked kPickup Sample.key_at_locked_door r s' 2 1
           (Sample.door 0 true false) Hstep eq_refl eq_refl).
  left. split; [reflexivity|]. left. discriminate.
Defined.

Lemma PlaceObject_no_free_cell_witness :
  PlaceObject Sample.draw 50 2 1 2 1 Sample.facing_key 0 = None.
Proof.
  apply (PlaceObject_no_free_cell Sample.draw Sample_draw_range);
    [lia..|].
  intros x y Hx Hy. assert (x = 2) as -> by lia. assert (y = 1) as -> by lia.
  exists (Sample.key 4). split; [reflexivity|]. left. discriminate.
Defined.

Lemma PlaceObject_defined_witness :
  PlaceObject Sample.draw 1 1 1 1 1 Sample.facing_key 0 = None \/
  exists pos gen',
    PlaceObject Sample.draw 1 1 1 1 1 Sample.facing_key 0
      = Some (Ok (pos, gen')).
Proof.
  apply (PlaceObject_defined Sample.draw Sample_draw_range); [lia..|].
  intros x y Hx Hy. assert (x = 1) as -> by lia. assert (y = 1) as -> by lia.
  by eexists.
Defined.

Lemma PlaceAgent_result_witness :
  exists s' gen',
    PlaceAgent Sample.draw 5 1 1 (-1) (-1) Sample.facing_key 0
      = Some (Ok (s', gen')) /\
    (1 <= fst (agent_pos_ s') <= 4 /\ 1 <= snd (agent_pos_ s') <= 4) /\
    grid_ s' = grid_ Sample.facing_key /\
    0 <= agent_dir_ s' <= 3.
Proof.
  destruct (PlaceAgent Sample.draw 5 1 1 (-1) (-1) Sample.facing_key 0)
    as [[[s' gen']| |]|] eqn:Hrun; [|by vm_compute in Hrun..].
  exists s', gen'. split; [reflexivity|].
  destruct (PlaceAgent_result Sample.draw Sample_draw_range 5 1 1 (-1) (-1)
              Sample.facing_key 0) as [_ Hok].
  destruct (Hok s' gen' Hrun) as (Hin & _ & Hg & Hd).
  split; [exact Hin|]. split; [exact Hg|exact Hd].
Defined.

Lemma GenImage_untouched_witness :
  exists obs' s',
    GenImage (fun _ _ _ => 77) Sample.on_floor = Ok (obs', s') /\
    obs' 0 0 0 = 77 /\ obs' 5 5 0 = 77.
Proof.
  destruct (GenImage (fun _ _ _ => 77) Sample.on_floor)
    as [[obs' s']| |] eqn:Hrun; [|by vm_compute in Hrun..].
  destruct (vis_mask_of Sample.on_floor) as [mask|] eqn:Hmask;
    [|by vm_compute in Hmask].
  exists obs', s'. split; [reflexivity|]. split.
  - apply (GenImage_untouched _ _ _ _ mask 0 0 0 Hrun Hmask). right.
    vm_compute in Hmask. injection Hmask as <-. reflexivity.
  - apply (GenImage_untouched _ _ _ _ mask 5 5 0 Hrun Hmask). left.
    vm_compute. intros [[_ Hlt] _]. discriminate Hlt.
Defined.

Lemma GenImage_agent_cell_witness :
  exists obs' s',
    GenImage (fun _ _ _ => 0) Sample.key_at_locked_door = Ok (obs', s') /\
    obs' 1 2 0 = 5 /\ obs' 1 2 1 = 0 /\ obs' 1 2 2 = 0.
Proof.
  destruct (GenImage (fun _ _ _ => 0) Sample.key_at_locked_door)
    as [[obs' s']| |] eqn:Hrun; [|by vm_compute in Hrun..].
  exists obs', s'. split; [reflexivity|].
  exact (GenImage_agent_cell _ _ _ _ Hrun).
Defined.

Lemma GenImage_see_through_witness :
  exists mask,
    vis_mask_of Sample.sees_through = Some mask /\ mask_get mask 0 2 = true.
Proof.
  destruct (vis_mask_of Sample.sees_through) as [mask|] eqn:Hmask;
    [|by vm_compute in Hmask].
  exists mask. split; [reflexivity|].
  apply (GenImage_see_through Sample.sees_through mask 0 2 eq_refl Hmask);
    vm_compute; lia.
Defined.

Lemma GenImage_from_type_alone_witness :
  exists obs' s',
    GenImage (fun _ _ _ => 0) Sample.sees_key = Ok (obs', s') /\
    0 <= obs' 1 1 0 < 256 /\
    obs' 1 1 1 = uint8 (GetColor (NewObj kKey)).
Proof.
  destruct (GenImage (fun _ _ _ => 0) Sample.sees_key)
    as [[obs' s']| |] eqn:Hrun; [|by vm_compute in Hrun..].
  destruct (vis_mask_of Sample.sees_key) as [mask|] eqn:Hmask;
    [|by vm_compute in Hmask].
  assert (mask_get mask 1 1 = true) as Hvis.
  { vm_compute in Hmask. injection Hmask as <-. reflexivity. }
  exists obs', s'. split; [reflexivity|].
  destruct (GenImage_from_type_alone _ _ _ _ _ 1%nat 1%nat Hrun Hmask)
    as [Hbyte Htype]; [vm_compute; lia..|exact Hvis|].
  split; [apply (Hbyte 0); lia|].
  destruct Htype as (t & Ht & Hcol & _); [discriminate|].
  vm_compute in Ht. injection Ht as <-. exact Hcol.
Defined.

Lemma rotate_ccw_spec_witness :
  view_get (rotate_ccw 2 [[1; 2]; [3; 4]]%nat) 0 1 = Some 4%nat.
Proof.
  assert (grid_shape 2 2 [[1; 2]; [3; 4]]%nat) as Hshape.
  { split; [reflexivity|]. repeat constructor. }
  destruct (rotate_ccw_spec 2 _ Hshape) as [_ Hget].
  rewrite (Hget 0 1)%nat by lia. reflexivity.
Defined.

Lemma vis_has_source_witness :
  let view := [[Sample.W; Sample.E; Sample.E];
               [Sample.W; Sample.key 4; Sample.E];
               [Sample.W; Sample.E; Sample.E]] in
  mask_get (process_vis false 3 view) 1 1 = true /\
  ((1, 1)%nat = (2, 1)%nat \/
   lit_from view (process_vis false 3 view) 1 1).
Proof.
  intros view. split; [reflexivity|].
  apply (vis_has_source 3 view 1 1). reflexivity.
Defined.

(** * Reward and the hand, once more *)

Section StepLast.
Context `{WorldObjApi}.

(** X11. A reward other than 0 is returned by Forward towards a Goal cell and
    by nothing else. *)
Theorem step_reward act s r s' :
  MiniGridStep act s = Ok (r, s') ->
  r <> float_zero ->
  act = kForward /\
  exists fx fy cell,
    forward_pos (agent_pos_ s) (agent_dir_ s) = Some (fx, fy) /\
    grid_get (grid_ s) fx fy = Some cell /\ GetType cell = kGoal /\
    r = goal_reward (step_count_ s + 1) (max_steps_ s).
Proof.
  intros (fx & fy & s1 & Hf & _ & Ha & ->)%step_inv Hr.
  apply step_action_reward in Ha as [?|(? & cell & ? & ? & ?)]; [done|].
  split; [done|]. by exists fx, fy, cell.
Qed.

(** X15. Drop, then Pickup: an agent that carries an object that can be picked
    up and faces a cell of type Empty has the object in hand again after the
    two steps, and the cell holds a fresh Empty object. *)
Theorem drop_then_pickup `{!WorldObjLaws} s fx fy cell :
  forward_pos (agent_pos_ s) (agent_dir_ s) = Some (fx, fy) ->
  0 <= fx < width_ s -> 0 <= fy < height_ s ->
  grid_get (grid_ s) fx fy = Some cell ->
  GetType cell = kEmpty ->
  CanPickup (carrying_ s) = true ->
  exists s1 s2,
    MiniGridStep kDrop s = Ok (float_zero, s1) /\
    grid_get (grid_ s1) fx fy = Some (carrying_ s) /\
    carrying_ s1 = NewObj kEmpty /\
    MiniGridStep kPickup s1 = Ok (float_zero, s2) /\
    carrying_ s2 = carrying_ s /\
    grid_ s2 = grid_set (grid_ s) fx fy (NewObj kEmpty).
Proof.
  intros Hf Hx Hy Hc Hcell Hpick.
  pose proof (CanPickup_not_Empty _ Hpick) as Hne.
  pose proof (GetType_NewObj kEmpty) as Hnew.
  assert (exists s1, MiniGridStep kDrop s = Ok (float_zero, s1) /\
            grid_ s1 = grid_set (grid_ s) fx fy (carrying_ s) /\
            carrying_ s1 = NewObj kEmpty /\
            agent_pos_ s1 = agent_pos_ s /\ agent_dir_ s1 = agent_dir_ s /\
            width_ s1 = width_ s /\ height_ s1 = height_ s)
    as (s1 & Hs1 & Hg1 & Hc1 & Hp & Hd & Hw & Hh).
  { eexists. split.
    - rewrite (step_run _ _ _ _ Hf Hx Hy).
      unfold step_action, bind, member, assign, when, ret, read_cell,
        write_cell.
      env_simpl. rewrite Hc. env_simpl.
      rewrite (bool_decide_eq_false_2 _ Hne), (bool_decide_eq_true_2 _ Hcell).
      env_simpl. rewrite Hc. reflexivity.
    - unfold step_epilogue. by destruct (_ <=? _). }
  assert (Hget1 : grid_get (grid_ s1) fx fy = Some (carrying_ s))
    by (rewrite Hg1; by eapply grid_get_set_eq).
  exists s1. eexists. do 3 (split; [done|]). split.
  { rewrite (step_run kPickup s1 fx fy) by (rewrite ?Hp, ?Hd, ?Hw, ?Hh; done).
    unfold step_action, bind, member, assign, when, ret, read_cell,
      write_cell.
    env_simpl. rewrite Hget1. env_simpl. rewrite Hc1, Hpick.
    rewrite (bool_decide_eq_true_2 _ Hnew). env_simpl. rewrite Hget1.
    reflexivity. }
  unfold step_epilogue. destruct (_ <=? _); env_simpl.
  all: split; [done|]. all: rewrite Hg1.
  all: unfold grid_set.
  all: destruct (grid_get_Some (grid_ s) fx fy cell) as [Hsome _].
  all: destruct (Hsome Hc) as (_ & _ & row & Hr & _).
  all: rewrite Hr.
  all: rewrite list_lookup_insert_eq by (by eapply lookup_lt_Some).
  all: by rewrite !list_insert_insert_eq.
Qed.
End StepLast.

Lemma step_reward_witness :
  exists r s',
    MiniGridStep kForward Sample.done_facing_goal = Ok (r, s') /\
    r = goal_reward 4 10.
Proof.
  destruct (MiniGridStep kForward Sample.done_facing_goal)
    as [[r s']| |] eqn:Hstep; [|by vm_compute in Hstep..].
  exists r, s'. split; [reflexivity|].
  assert (r <> float_zero) as Hr.
  { vm_compute in Hstep. injection Hstep as <- _. discriminate. }
  destruct (step_reward _ _ _ _ Hstep Hr)
    as (_ & fx & fy & cell & Hf & _ & _ & ->).
  reflexivity.
Defined.

Lemma drop_then_pickup_witness :
  exists s1 s2,
    MiniGridStep kDrop Sample.holding_key = Ok (float_zero, s1) /\
    grid_get (grid_ s1) 2 1 = Some (Sample.key 4) /\
    MiniGridStep kPickup s1 = Ok (float_zero, s2) /\
    carrying_ s2 = Sample.key 4.
Proof.
  destruct (drop_then_pickup Sample.holding_key 2 1 Sample.E)
    as (s1 & s2 & H1 & H2 & _ & H3 & H4 & _);
    first [reflexivity | vm_compute; by split | idtac].
  exists s1, s2. by repeat split.
Defined.

(** * Rounding

    The reward of line 84 is computed in floating point. This part relates
    the operations of [SpecFloat] to the real numbers: away from underflow
    and overflow, each of them returns a number of its format that is as
    near to the exact result as any. *)

(** ** Powers of two *)

Section Bpow.
Local Open Scope R_scope.

Lemma bpow_gt_0 e : 0 < bpow e.
Proof. apply powerRZ_lt. lra. Qed.

Lemma bpow_plus e1 e2 : bpow (e1 + e2) = bpow e1 * bpow e2.
Proof. apply powerRZ_add. lra. Qed.

Lemma bpow_0 : bpow 0 = 1.
Proof. reflexivity. Qed.

Lemma bpow_opp e : bpow (- e) = / bpow e.
Proof. apply powerRZ_neg'. Qed.

Lemma bpow_opp_r e : bpow e * bpow (- e) = 1.
Proof. rewrite <- bpow_plus, Z.add_opp_diag_r. reflexivity. Qed.

Lemma bpow_IZR e : (0 <= e)%Z -> bpow e = IZR (2 ^ e).
Proof.
  intros He. unfold bpow.
  rewrite <- (Z2Nat.id e) by done.
  rewrite <- pow_powerRZ, pow_IZR. reflexivity.
Qed.

Lemma bpow_1 : bpow 1 = 2.
Proof. rewrite bpow_IZR by lia. reflexivity. Qed.

Lemma bpow_lt e1 e2 : (e1 < e2)%Z -> bpow e1 < bpow e2.
Proof.
  intros He. replace e2 with (e1 + (e2 - e1))%Z by lia.
  rewrite bpow_plus, (bpow_IZR (e2 - e1)) by lia.
  assert (2 ^ 1 <= 2 ^ (e2 - e1))%Z as Hp
    by (apply Z.pow_le_mono_r; lia).
  apply IZR_le in Hp. change (IZR (2 ^ 1)) with 2 in Hp.
  pose proof (bpow_gt_0 e1). nra.
Qed.

Lemma bpow_le e1 e2 : (e1 <= e2)%Z -> bpow e1 <= bpow e2.
Proof.
  intros He. destruct (Z.eq_dec e1 e2) as [->|Hne]; [lra|].
  apply Rlt_le, bpow_lt. lia.
Qed.

Lemma bpow_lt_inv e1 e2 : bpow e1 < bpow e2 -> (e1 < e2)%Z.
Proof.
  intros Hlt. destruct (Z_lt_le_dec e1 e2) as [|Hge]; [done|].
  apply bpow_le in Hge. lra.
Qed.

Lemma bpow_le_inv e1 e2 : bpow e1 <= bpow e2 -> (e1 <= e2)%Z.
Proof.
  intros Hle. destruct (Z_le_gt_dec e1 e2) as [|Hgt]; [done|].
  assert (e2 < e1)%Z as Hlt by lia. apply bpow_lt in Hlt. lra.
Qed.

End Bpow.

(** ** Digits *)

Lemma digits2_pos_spec m :
  2 ^ (Z.pos (digits2_pos m) - 1) <= Z.pos m < 2 ^ Z.pos (digits2_pos m).
Proof.
  induction m as [m IH|m IH|]; cbn [digits2_pos].
  - rewrite Pos2Z.inj_succ, (Pos2Z.inj_xI m).
    replace (Z.succ (Z.pos (digits2_pos m)) - 1)
      with (Z.succ (Z.pos (digits2_pos m) - 1)) by lia.
    rewrite !Z.pow_succ_r by lia. lia.
  - rewrite Pos2Z.inj_succ, (Pos2Z.inj_xO m).
    replace (Z.succ (Z.pos (digits2_pos m)) - 1)
      with (Z.succ (Z.pos (digits2_pos m) - 1)) by lia.
    rewrite !Z.pow_succ_r by lia. lia.
  - cbn. lia.
Qed.

Lemma Zdigits2_spec m :
  0 < m -> 2 ^ (Zdigits2 m - 1) <= m < 2 ^ Zdigits2 m.
Proof.
  destruct m as [|p|p]; [lia| |lia]. intros _. apply digits2_pos_spec.
Qed.

Lemma Zdigits2_pos m : 0 < m -> 0 < Zdigits2 m.
Proof. destruct m; cbn; lia. Qed.

Lemma Zdigits2_unique m d :
  2 ^ (d - 1) <= m < 2 ^ d -> 0 < m -> Zdigits2 m = d.
Proof.
  intros [Hlo Hhi] Hm.
  destruct (Zdigits2_spec m Hm) as [Hlo' Hhi'].
  pose proof (Zdigits2_pos m Hm) as Hd'.
  assert (0 < d) as Hd.
  { destruct (Z_lt_le_dec 0 d) as [|Hle]; [assumption|].
    destruct (Z.eq_dec d 0) as [->|]; [cbn in Hhi; lia|].
    rewrite (Z.pow_neg_r 2 d) in Hhi by lia. lia. }
  assert (d - 1 < Zdigits2 m).
  { apply (Z.pow_lt_mono_r_iff 2); lia. }
  assert (Zdigits2 m - 1 < d).
  { apply (Z.pow_lt_mono_r_iff 2); lia. }
  lia.
Qed.

Lemma Zdigits2_ge m k : 0 < m -> 2 ^ (k - 1) <= m -> k <= Zdigits2 m.
Proof.
  intros Hm Hk. destruct (Zdigits2_spec m Hm) as [_ Hhi].
  pose proof (Zdigits2_pos m Hm).
  destruct (Z_le_gt_dec k (Zdigits2 m)) as [|Hgt]; [assumption|].
  assert (2 ^ Zdigits2 m <= 2 ^ (k - 1)) by (apply Z.pow_le_mono_r; lia).
  lia.
Qed.

Lemma Zdigits2_le m k : 0 < m -> 0 <= k -> m < 2 ^ k -> Zdigits2 m <= k.
Proof.
  intros Hm Hk Hlt. destruct (Zdigits2_spec m Hm) as [Hlo _].
  pose proof (Zdigits2_pos m Hm).
  destruct (Z_le_gt_dec (Zdigits2 m) k) as [|Hgt]; [assumption|].
  assert (2 ^ k <= 2 ^ (Zdigits2 m - 1)) by (apply Z.pow_le_mono_r; lia).
  lia.
Qed.

(** ** Shifts *)

Lemma iter_pos_nat {A} (f : A -> A) p x :
  SpecFloat.iter_pos f p x = Nat.iter (Pos.to_nat p) f x.
Proof.
  revert x. induction p as [p IH|p IH|]; intros x; cbn [SpecFloat.iter_pos].
  - rewrite !IH, Pos2Nat.inj_xI.
    replace (S (2 * Pos.to_nat p))
      with (Pos.to_nat p + (Pos.to_nat p + 1))%nat by lia.
    rewrite !Nat.iter_add. reflexivity.
  - rewrite !IH, Pos2Nat.inj_xO.
    replace (2 * Pos.to_nat p)%nat
      with (Pos.to_nat p + Pos.to_nat p)%nat by lia.
    rewrite Nat.iter_add. reflexivity.
  - reflexivity.
Qed.

Lemma iter_xO_nat n m :
  Z.pos (Nat.iter n xO m) = Z.pos m * 2 ^ Z.of_nat n.
Proof.
  induction n as [|n IH]; [cbn; lia|].
  rewrite Nat.iter_succ, Nat2Z.inj_succ, Z.pow_succ_r by lia.
  rewrite (Pos2Z.inj_xO (Nat.iter n xO m)), IH. lia.
Qed.

Lemma iter_xO m d :
  Z.pos (Pos.iter xO m d) = Z.pos m * 2 ^ Z.pos d.
Proof.
  rewrite Pos2Nat.inj_iter.
  change (nat_rect _ m (fun _ => xO) (Pos.to_nat d))
    with (Nat.iter (Pos.to_nat d) xO m).
  rewrite iter_xO_nat, positive_nat_Z. reflexivity.
Qed.

(** What a right shift keeps of the bits that it drops. *)
Section Shr.
Local Open Scope R_scope.

Lemma inbetween_bounds m l y : inbetween m l y -> IZR m <= y < IZR m + 1.
Proof. destruct l as [|[]]; cbn; lra. Qed.

Lemma IZR_xO p : IZR (Z.pos p~0) = 2 * IZR (Z.pos p).
Proof. rewrite (Pos2Z.inj_xO p), mult_IZR. reflexivity. Qed.

Lemma IZR_xI p : IZR (Z.pos p~1) = 2 * IZR (Z.pos p) + 1.
Proof. rewrite (Pos2Z.inj_xI p), plus_IZR, mult_IZR. reflexivity. Qed.

Lemma shr_1_repr mrs y : shr_repr mrs y -> shr_repr (shr_1 mrs) (y / 2).
Proof.
  destruct mrs as [m r s]. unfold shr_repr. cbn [shr_m]. intros [Hm Hy].
  destruct m as [|[p|p|]|p]; [| | | |lia].
  - destruct r, s; cbn [shr_1 shr_m loc_of_shr_record inbetween orb] in *;
      (split; [lia|]); lra.
  - pose proof (IZR_xI p).
    destruct r, s; cbn [shr_1 shr_m loc_of_shr_record inbetween orb] in *;
      (split; [lia|]); lra.
  - pose proof (IZR_xO p).
    destruct r, s; cbn [shr_1 shr_m loc_of_shr_record inbetween orb] in *;
      (split; [lia|]); lra.
  - destruct r, s; cbn [shr_1 shr_m loc_of_shr_record inbetween orb] in *;
      (split; [lia|]); lra.
Qed.

Lemma bpow_m1 : bpow (-1) = / 2.
Proof.
  change (bpow (-1)) with (bpow (Z.opp 1)). rewrite bpow_opp, bpow_1.
  reflexivity.
Qed.

Lemma iter_shr_1_repr n mrs y :
  shr_repr mrs y ->
  shr_repr (Nat.iter n shr_1 mrs) (y * bpow (- Z.of_nat n)).
Proof.
  intros Hy. induction n as [|n IH].
  - cbn [Nat.iter]. change (- Z.of_nat 0)%Z with 0%Z.
    rewrite bpow_0, Rmult_1_r. exact Hy.
  - rewrite Nat.iter_succ.
    replace (- Z.of_nat (S n))%Z with (- Z.of_nat n + -1)%Z by lia.
    rewrite bpow_plus, bpow_m1, <- Rmult_assoc. by apply shr_1_repr.
Qed.

Lemma shr_correct mrs e n y :
  (0 <= n)%Z -> shr_repr mrs y ->
  snd (shr mrs e n) = (e + n)%Z /\
  shr_repr (fst (shr mrs e n)) (y * bpow (- n)).
Proof.
  intros Hn Hy. destruct n as [|p|p]; [| |lia].
  - cbn [shr fst snd]. split; [lia|].
    change (- 0)%Z with 0%Z. rewrite bpow_0, Rmult_1_r. exact Hy.
  - cbn [shr fst snd]. split; [reflexivity|].
    rewrite iter_pos_nat, <- (positive_nat_Z p).
    by apply iter_shr_1_repr.
Qed.

Lemma shr_repr_of_loc m l y :
  (0 <= m)%Z -> inbetween m l y -> shr_repr (shr_record_of_loc m l) y.
Proof. intros Hm Hy. split; destruct l as [|[]]; done. Qed.

Lemma round_nearest_even_correct m l y :
  inbetween m l y ->
  (round_nearest_even m l = m /\ y - IZR m <= / 2) \/
  (round_nearest_even m l = (m + 1)%Z /\ IZR m + 1 - y <= / 2).
Proof.
  destruct l as [|[]]; cbn [inbetween round_nearest_even]; intros Hy.
  - left. split; [done|lra].
  - destruct (Z.even m); [left|right]; (split; [done|lra]).
  - left. split; [done|lra].
  - right. split; [done|lra].
Qed.

End Shr.

(** ** Nearest numbers of a format *)

Section Nearest.
Context (prec : Z) (Hprec : 0 < prec).
Local Open Scope R_scope.

Lemma F2R_bounds m e :
  canonic prec m -> bpow (prec - 1 + e) <= F2R m e < bpow (prec + e).
Proof.
  intros [Hlo Hhi]. unfold F2R. rewrite !bpow_plus.
  rewrite (bpow_IZR (prec - 1)), (bpow_IZR prec) by lia.
  apply IZR_le in Hlo. apply IZR_lt in Hhi.
  pose proof (bpow_gt_0 e). nra.
Qed.

Lemma in_format_pos g : in_format prec g -> 0 < g.
Proof.
  intros (m & e & Hm & ->). pose proof (F2R_bounds m e Hm) as [Hlo _].
  pose proof (bpow_gt_0 (prec - 1 + e)). lra.
Qed.

Lemma in_format_bpow e : in_format prec (bpow e).
Proof.
  exists (2 ^ (prec - 1))%Z, (e - (prec - 1))%Z. split.
  - split; [lia|]. apply Z.pow_lt_mono_r; lia.
  - unfold F2R. rewrite <- bpow_IZR by lia. rewrite <- bpow_plus.
    f_equal. lia.
Qed.

Lemma no_float_between m e mg eg :
  canonic prec m -> canonic prec mg ->
  F2R mg eg <= F2R m e \/ F2R (m + 1) e <= F2R mg eg.
Proof.
  intros Hm Hg. destruct (Z_lt_le_dec eg e) as [Hlt|Hge].
  - left. pose proof (F2R_bounds mg eg Hg) as [_ Hhi].
    pose proof (F2R_bounds m e Hm) as [Hlo _].
    assert (bpow (prec + eg) <= bpow (prec - 1 + e)) by (apply bpow_le; lia).
    lra.
  - assert (F2R mg eg = F2R (mg * 2 ^ (eg - e)) e) as ->.
    { unfold F2R. rewrite mult_IZR, <- bpow_IZR by lia.
      rewrite Rmult_assoc, <- bpow_plus. do 2 f_equal. lia. }
    unfold F2R. pose proof (bpow_gt_0 e).
    destruct (Z_le_gt_dec (mg * 2 ^ (eg - e)) m) as [Hle|Hgt].
    + left. apply IZR_le in Hle. nra.
    + right. assert (m + 1 <= mg * 2 ^ (eg - e))%Z as Hle by lia.
      apply IZR_le in Hle. nra.
Qed.

(** Rounding to a nearest number is monotone on distinct arguments. *)
Lemma nearest_monotone x1 x2 f1 f2 :
  nearest prec x1 f1 -> nearest prec x2 f2 -> x1 < x2 -> f1 <= f2.
Proof.
  intros [Hf1 H1] [Hf2 H2] Hlt.
  specialize (H1 f2 Hf2). specialize (H2 f1 Hf1).
  revert H1 H2. unfold Rabs.
  repeat destruct (Rcase_abs _); lra.
Qed.

Lemma nearest_le x f c :
  nearest prec x f -> in_format prec c -> x <= c -> f <= c.
Proof.
  intros [_ H] Hc Hle. specialize (H c Hc). revert H. unfold Rabs.
  repeat destruct (Rcase_abs _); lra.
Qed.

Lemma nearest_ge x f c :
  nearest prec x f -> in_format prec c -> c <= x -> c <= f.
Proof.
  intros [_ H] Hc Hle. specialize (H c Hc). revert H. unfold Rabs.
  repeat destruct (Rcase_abs _); lra.
Qed.

(** A number of the format has one mantissa and one exponent. *)
Lemma canonic_unique m1 e1 m2 e2 :
  canonic prec m1 -> canonic prec m2 -> F2R m1 e1 = F2R m2 e2 ->
  m1 = m2 /\ e1 = e2.
Proof.
  intros H1 H2 Heq.
  pose proof (F2R_bounds m1 e1 H1) as [Hlo1 Hhi1].
  pose proof (F2R_bounds m2 e2 H2) as [Hlo2 Hhi2].
  assert (e1 = e2) as ->.
  { assert (prec - 1 + e1 < prec + e2)%Z by (apply bpow_lt_inv; lra).
    assert (prec - 1 + e2 < prec + e1)%Z by (apply bpow_lt_inv; lra).
    lia. }
  split; [|done]. unfold F2R in Heq. pose proof (bpow_gt_0 e2).
  apply eq_IZR. nra.
Qed.

End Nearest.

(** ** The rounding function *)

Section RoundAux.
Context (prec emax : Z) (Hprec : 0 < prec).
Local Open Scope R_scope.

(** The second shift of [binary_round_aux]: it renormalises a mantissa that
    rounding up has carried to [2 ^ prec]. *)
Lemma shr_fexp_exact m1 e1 :
  canonic prec m1 \/ m1 = (2 ^ prec)%Z ->
  (emin prec emax <= e1)%Z ->
  exists m e,
    shr_m (fst (shr_fexp prec emax m1 e1 loc_Exact)) = Z.pos m /\
    snd (shr_fexp prec emax m1 e1 loc_Exact) = e /\
    canonic prec (Z.pos m) /\
    F2R (Z.pos m) e = F2R m1 e1 /\ (e <= e1 + 1)%Z.
Proof.
  intros Hm1 He1. unfold shr_fexp.
  destruct Hm1 as [Hcan | ->].
  - assert (0 < m1)%Z as Hpos.
    { destruct Hcan as [Hlo _].
      assert (0 < 2 ^ (prec - 1))%Z by (apply Z.pow_pos_nonneg; lia). lia. }
    rewrite (Zdigits2_unique m1 prec Hcan Hpos).
    replace (fexp prec emax (prec + e1) - e1)%Z with 0%Z
      by (unfold fexp; lia).
    cbn [shr shr_record_of_loc fst snd shr_m].
    destruct m1 as [|p|p]; [lia| |lia].
    exists p, e1. split; [done|]. split; [done|]. split; [exact Hcan|].
    split; [done|lia].
  - assert (0 < 2 ^ prec)%Z as Hpos by (apply Z.pow_pos_nonneg; lia).
    rewrite (Zdigits2_unique (2 ^ prec) (prec + 1)); [| |done].
    2: { replace (prec + 1 - 1)%Z with prec by lia. split; [lia|].
         apply Z.pow_lt_mono_r; lia. }
    replace (fexp prec emax (prec + 1 + e1) - e1)%Z with 1%Z
      by (unfold fexp; lia).
    destruct (shr_correct (shr_record_of_loc (2 ^ prec) loc_Exact) e1 1
                (IZR (2 ^ prec))) as [Hsnd [Hm0 Hin]]; [lia| |].
    { apply shr_repr_of_loc; [lia|done]. }
    destruct (shr (shr_record_of_loc (2 ^ prec) loc_Exact) e1 1)
      as [mrs e] eqn:Hshr.
    cbn [fst snd] in *. subst e.
    apply inbetween_bounds in Hin.
    change (bpow (- (1))) with (bpow (-1)) in Hin. rewrite bpow_m1 in Hin.
    assert (shr_m mrs = 2 ^ (prec - 1))%Z as Hm.
    { assert (IZR (2 ^ prec) = 2 * IZR (2 ^ (prec - 1))) as Hp.
      { rewrite <- mult_IZR. f_equal.
        rewrite <- Z.pow_succ_r by lia. f_equal. lia. }
      rewrite Hp in Hin.
      assert (IZR (shr_m mrs) < IZR (2 ^ (prec - 1) + 1)) as H1
        by (rewrite plus_IZR; lra).
      assert (IZR (2 ^ (prec - 1) - 1) < IZR (shr_m mrs)) as H2
        by (rewrite minus_IZR; lra).
      apply lt_IZR in H1, H2. lia. }
    assert (0 < 2 ^ (prec - 1))%Z as Hpos' by (apply Z.pow_pos_nonneg; lia).
    destruct (shr_m mrs) as [|p|p] eqn:Hp; [lia| |lia].
    exists p, (e1 + 1)%Z. rewrite Hm. repeat split; try lia.
    + apply Z.pow_lt_mono_r; lia.
    + unfold F2R. rewrite bpow_plus, bpow_1.
      replace (2 ^ prec)%Z with (2 * 2 ^ (prec - 1))%Z.
      * rewrite mult_IZR. lra.
      * rewrite <- Z.pow_succ_r by lia. f_equal. lia.
Qed.

(** [binary_round_aux] on a positive mantissa of at least [prec] digits,
    away from underflow and overflow: the result is a number of the format
    nearest to the real [x] that the mantissa and the location stand
    for. *)
Theorem binary_round_aux_correct mx ex lx x :
  (0 < mx)%Z ->
  inbetween mx lx (x * bpow (- ex)) ->
  (prec <= Zdigits2 mx)%Z ->
  (emin prec emax <= Zdigits2 mx + ex - prec)%Z ->
  (Zdigits2 mx + ex < emax)%Z ->
  exists m e,
    binary_round_aux prec emax false mx ex lx = S754_finite false m e /\
    canonic prec (Z.pos m) /\
    nearest prec x (F2R (Z.pos m) e).
Proof.
  intros Hmx Hin Hd Hmin Hmax.
  destruct (Zdigits2_spec mx Hmx) as [Hlo Hhi].
  set (d := Zdigits2 mx) in *.
  set (n := (d - prec)%Z).
  set (e' := (ex + n)%Z).
  unfold binary_round_aux, shr_fexp at 1. fold d.
  replace (fexp prec emax (d + ex) - ex)%Z with n
    by (unfold fexp; lia).
  destruct (shr_correct (shr_record_of_loc mx lx) ex n (x * bpow (- ex)))
    as [Hsnd [Hm0 Hin']]; [lia|apply shr_repr_of_loc; [lia|done]|].
  destruct (shr (shr_record_of_loc mx lx) ex n) as [mrs' e1] eqn:Hshr.
  cbn [fst snd] in *. subst e1. fold e'. cbv beta iota.
  set (m' := shr_m mrs') in *. set (l' := loc_of_shr_record mrs') in *.
  set (y := x * bpow (- e')).
  assert (x * bpow (- ex) * bpow (- n) = y) as Hy.
  { unfold y. rewrite Rmult_assoc, <- bpow_plus. do 2 f_equal.
    unfold e'. lia. }
  rewrite Hy in Hin'.
  assert (x = y * bpow e') as Hx.
  { unfold y. rewrite Rmult_assoc, (Rmult_comm (bpow (- e'))), bpow_opp_r.
    lra. }
  pose proof (bpow_gt_0 e') as Hu.
  (* the truncated mantissa has [prec] digits *)
  assert (canonic prec m') as Hcan.
  { pose proof (inbetween_bounds _ _ _ Hin) as [Hy1 Hy2].
    pose proof (inbetween_bounds _ _ _ Hin') as [Hz1 Hz2].
    rewrite <- Hy in Hz1, Hz2.
    assert (bpow (d - 1) <= x * bpow (- ex)) as Hb1.
    { rewrite (bpow_IZR (d - 1)) by lia. apply IZR_le in Hlo. lra. }
    assert (x * bpow (- ex) < bpow d) as Hb2.
    { rewrite (bpow_IZR d) by lia.
      assert (mx + 1 <= 2 ^ d)%Z as Hle by lia.
      apply IZR_le in Hle. rewrite plus_IZR in Hle. lra. }
    pose proof (bpow_gt_0 (- n)) as Hn.
    assert (bpow (d - 1) * bpow (- n) = bpow (prec - 1)) as E1.
    { rewrite <- bpow_plus. f_equal. unfold n. lia. }
    assert (bpow d * bpow (- n) = bpow prec) as E2.
    { rewrite <- bpow_plus. f_equal. unfold n. lia. }
    rewrite (bpow_IZR (prec - 1)) in E1 by lia.
    rewrite (bpow_IZR prec) in E2 by lia.
    assert (bpow (d - 1) * bpow (- n) <= x * bpow (- ex) * bpow (- n))
      by (apply Rmult_le_compat_r; lra).
    assert (x * bpow (- ex) * bpow (- n) < bpow d * bpow (- n))
      by (apply Rmult_lt_compat_r; lra).
    split.
    - assert (IZR (2 ^ (prec - 1) - 1) < IZR m') as H1.
      { rewrite minus_IZR. lra. }
      apply lt_IZR in H1. lia.
    - apply lt_IZR. lra. }
  assert (emin prec emax <= e')%Z as He' by (unfold e'; lia).
  (* rounding, and the renormalisation *)
  set (m1 := round_nearest_even m' l').
  assert (canonic prec m1 \/ m1 = (2 ^ prec)%Z) as Hm1.
  { destruct (round_nearest_even_correct m' l' y Hin') as [[Hr _]|[Hr _]];
      fold m1 in Hr; rewrite Hr.
    - by left.
    - destruct Hcan as [Hc1 Hc2].
      destruct (Z.eq_dec (m' + 1)%Z (2 ^ prec)%Z) as [|Hne]; [by right|].
      left. split; lia. }
  destruct (shr_fexp_exact m1 e' Hm1 He') as (m & e & Hfst & Hsnd & Hcm & Hval & Hle).
  destruct (shr_fexp prec emax m1 e' loc_Exact) as [mrs'' e''].
  cbn [fst snd] in Hfst, Hsnd. subst e''. cbv beta iota. rewrite Hfst.
  assert ((e <=? emax - prec)%Z = true) as -> by (unfold e', n in *; lia).
  exists m, e. split; [done|]. split; [done|].
  (* nearest *)
  rewrite Hval. split.
  - exists (Z.pos m), e. by split.
  - intros g (mg & eg & Hg & ->).
    pose proof (inbetween_bounds _ _ _ Hin') as [Hz1 Hz2].
    destruct (no_float_between prec Hprec m' e' mg eg Hcan Hg) as [Hgl|Hgr].
    + unfold F2R in *. 
      destruct (round_nearest_even_correct m' l' y Hin') as [[Hr Hh]|[Hr Hh]];
        fold m1 in Hr; rewrite Hr, Hx, ?plus_IZR; unfold Rabs;
        repeat destruct (Rcase_abs _); nra.
    + unfold F2R in *. rewrite plus_IZR in Hgr.
      destruct (round_nearest_even_correct m' l' y Hin') as [[Hr Hh]|[Hr Hh]];
        fold m1 in Hr; rewrite Hr, Hx, ?plus_IZR; unfold Rabs;
        repeat destruct (Rcase_abs _); nra.
Qed.

End RoundAux.

(** ** The operations *)

Section Operations.
Context (prec emax : Z) (Hprec : 0 < prec).
Local Open Scope R_scope.

(** The same, with the range of [x] given by powers of two. *)
Theorem binary_round_aux_range mx ex lx x L H :
  (0 < mx)%Z ->
  inbetween mx lx (x * bpow (- ex)) ->
  (prec <= Zdigits2 mx)%Z ->
  bpow L <= x < bpow H ->
  (emin prec emax + prec <= L + 1)%Z -> (H < emax)%Z ->
  exists m e,
    binary_round_aux prec emax false mx ex lx = S754_finite false m e /\
    canonic prec (Z.pos m) /\
    nearest prec x (F2R (Z.pos m) e).
Proof.
  intros Hmx Hin Hd [HL HH] Hmin Hmax.
  destruct (Zdigits2_spec mx Hmx) as [Hlo Hhi].
  pose proof (Zdigits2_pos mx Hmx) as Hdpos.
  pose proof (inbetween_bounds _ _ _ Hin) as [Hy1 Hy2].
  pose proof (bpow_gt_0 ex) as Hex.
  assert (x = x * bpow (- ex) * bpow ex) as Hx.
  { rewrite Rmult_assoc, (Rmult_comm (bpow (- ex))), bpow_opp_r. lra. }
  assert (bpow (Zdigits2 mx - 1 + ex) <= x) as Hb1.
  { rewrite bpow_plus, (bpow_IZR (Zdigits2 mx - 1)) by lia.
    apply IZR_le in Hlo. rewrite Hx. apply Rmult_le_compat_r; lra. }
  assert (x < bpow (Zdigits2 mx + ex)) as Hb2.
  { rewrite bpow_plus, (bpow_IZR (Zdigits2 mx)) by lia.
    assert (mx + 1 <= 2 ^ Zdigits2 mx)%Z as Hle by lia.
    apply IZR_le in Hle. rewrite plus_IZR in Hle. rewrite Hx at 1.
    apply Rmult_lt_compat_r; lra. }
  assert (L < Zdigits2 mx + ex)%Z by (apply bpow_lt_inv; lra).
  assert (Zdigits2 mx - 1 + ex < H)%Z by (apply bpow_lt_inv; lra).
  apply binary_round_aux_correct; try done; lia.
Qed.

Lemma shl_align_correct m e ez :
  (ez <= e)%Z ->
  Z.pos (fst (shl_align m e ez)) = (Z.pos m * 2 ^ (e - ez))%Z /\
  snd (shl_align m e ez) = ez.
Proof.
  intros Hle. unfold shl_align.
  destruct (ez - e)%Z as [|p|p] eqn:Hd; [|lia|]; cbn [fst snd].
  - replace (e - ez)%Z with 0%Z by lia. split; lia.
  - rewrite iter_xO. replace (e - ez)%Z with (Z.pos p) by lia. done.
Qed.

Lemma shl_align_id m e ez :
  (e <= ez)%Z -> shl_align m e ez = (m, e).
Proof.
  intros Hle. unfold shl_align.
  destruct (ez - e)%Z as [|p|p] eqn:Hd; [done|done|lia].
Qed.

(** [binary_round] rounds the number [m * 2 ^ e]. *)
Theorem binary_round_correct m e L H :
  bpow L <= F2R (Z.pos m) e < bpow H ->
  (emin prec emax + prec <= L + 1)%Z -> (H < emax)%Z ->
  exists m' e',
    binary_round prec emax false m e = S754_finite false m' e' /\
    canonic prec (Z.pos m') /\
    nearest prec (F2R (Z.pos m) e) (F2R (Z.pos m') e').
Proof.
  intros [HL HH] Hmin Hmax.
  destruct (digits2_pos_spec m) as [Hlo Hhi].
  set (d := Z.pos (digits2_pos m)) in *.
  assert (0 < d)%Z as Hdpos by done.
  pose proof (bpow_gt_0 e) as Hex.
  assert (L < d + e)%Z as HLd.
  { apply bpow_lt_inv. eapply Rle_lt_trans; [exact HL|].
    unfold F2R. rewrite bpow_plus, (bpow_IZR d) by lia.
    apply IZR_lt in Hhi. apply Rmult_lt_compat_r; lra. }
  unfold binary_round. fold d.
  replace (fexp prec emax (d + e)) with (d + e - prec)%Z
    by (unfold fexp; lia).
  destruct (Z_le_gt_dec prec d) as [Hge|Hlt].
  - rewrite shl_align_id by lia.
    apply (binary_round_aux_range _ _ _ _ L H); try done.
    + cbn [inbetween]. unfold F2R. rewrite Rmult_assoc, bpow_opp_r. lra.
  - destruct (shl_align_correct m e (d + e - prec)) as [Hm He]; [lia|].
    destruct (shl_align m e (d + e - prec)) as [mz ez].
    cbn [fst snd] in Hm, He. subst ez.
    replace (e - (d + e - prec))%Z with (prec - d)%Z in Hm by lia.
    assert (bpow (- (d + e - prec)) = bpow (- e) * IZR (2 ^ (prec - d)))
      as Hb.
    { rewrite <- bpow_IZR, <- bpow_plus by lia. f_equal. lia. }
    apply (binary_round_aux_range _ _ _ _ L H); try done.
    + cbn [inbetween]. unfold F2R. rewrite Hm, mult_IZR, Hb.
      rewrite <- Rmult_assoc, (Rmult_assoc (IZR (Z.pos m))), bpow_opp_r.
      lra.
    + rewrite (Zdigits2_unique (Z.pos mz) prec); [lia| |done].
      rewrite Hm.
      assert (2 ^ (prec - 1) = 2 ^ (d - 1) * 2 ^ (prec - d))%Z as ->.
      { rewrite <- Z.pow_add_r by lia. f_equal. lia. }
      assert (2 ^ prec = 2 ^ d * 2 ^ (prec - d))%Z as ->.
      { rewrite <- Z.pow_add_r by lia. f_equal. lia. }
      assert (0 < 2 ^ (prec - d))%Z by (apply Z.pow_pos_nonneg; lia).
      split; nia.
Qed.

End Operations.

Section Operations2.
Context (prec emax : Z) (Hprec : 0 < prec).
Local Open Scope R_scope.

Lemma F2R_pos m e : 0 < F2R (Z.pos m) e.
Proof.
  unfold F2R. apply Rmult_lt_0_compat; [|apply bpow_gt_0].
  by apply IZR_lt.
Qed.

(** The product of two positive numbers. *)
Theorem SFmul_correct mx ex my ey L H :
  canonic prec (Z.pos mx) ->
  bpow L <= F2R (Z.pos mx) ex * F2R (Z.pos my) ey < bpow H ->
  (emin prec emax + prec <= L + 1)%Z -> (H < emax)%Z ->
  exists m e,
    SFmul prec emax (S754_finite false mx ex) (S754_finite false my ey)
      = S754_finite false m e /\
    canonic prec (Z.pos m) /\
    nearest prec (F2R (Z.pos mx) ex * F2R (Z.pos my) ey) (F2R (Z.pos m) e).
Proof.
  intros [Hcx _] Hrange Hmin Hmax. unfold SFmul. cbn [xorb].
  apply (binary_round_aux_range _ _ Hprec _ _ _ _ L H); try done.
  - cbn [inbetween]. unfold F2R.
    rewrite Pos2Z.inj_mul, mult_IZR, Z.opp_add_distr, bpow_plus.
    replace (IZR (Z.pos mx) * bpow ex * (IZR (Z.pos my) * bpow ey) *
             (bpow (- ex) * bpow (- ey)))
      with (IZR (Z.pos mx) * IZR (Z.pos my) *
            (bpow ex * bpow (- ex)) * (bpow ey * bpow (- ey))) by ring.
    rewrite !bpow_opp_r. ring.
  - apply Zdigits2_ge; [done|]. rewrite Pos2Z.inj_mul. nia.
Qed.

(** The difference of two positive numbers, when it is positive. *)
Theorem SFsub_correct mx ex my ey L H :
  bpow L <= F2R (Z.pos mx) ex - F2R (Z.pos my) ey < bpow H ->
  (emin prec emax + prec <= L + 1)%Z -> (H < emax)%Z ->
  exists m e,
    SFsub prec emax (S754_finite false mx ex) (S754_finite false my ey)
      = S754_finite false m e /\
    canonic prec (Z.pos m) /\
    nearest prec (F2R (Z.pos mx) ex - F2R (Z.pos my) ey) (F2R (Z.pos m) e).
Proof.
  intros Hrange Hmin Hmax. unfold SFsub. cbn [cond_Zopp].
  set (ez := Z.min ex ey).
  destruct (shl_align_correct mx ex ez) as [Hx _]; [unfold ez; lia|].
  destruct (shl_align_correct my ey ez) as [Hy _]; [unfold ez; lia|].
  rewrite Hx, Hy.
  assert (forall (m : positive) e, (ez <= e)%Z ->
            IZR (Z.pos m * 2 ^ (e - ez)) * bpow ez = F2R (Z.pos m) e)
    as Hal.
  { intros m e He. unfold F2R.
    rewrite mult_IZR, <- bpow_IZR, Rmult_assoc, <- bpow_plus by lia.
    do 2 f_equal. lia. }
  set (D := (Z.pos mx * 2 ^ (ex - ez) - Z.pos my * 2 ^ (ey - ez))%Z).
  assert (IZR D * bpow ez = F2R (Z.pos mx) ex - F2R (Z.pos my) ey) as HD.
  { unfold D. rewrite minus_IZR, Rmult_minus_distr_r.
    rewrite !Hal by (unfold ez; lia). reflexivity. }
  rewrite <- HD in *.
  assert (0 < D)%Z as HDpos.
  { apply lt_IZR. pose proof (bpow_gt_0 ez). pose proof (bpow_gt_0 L).
    nra. }
  destruct D as [|p|p]; [lia| |lia].
  cbn [binary_normalize].
  by apply (binary_round_correct _ _ Hprec _ _ L H).
Qed.

Lemma new_location_correct d r q :
  (0 < d)%Z -> (0 <= r < d)%Z ->
  inbetween q (new_location d r) (IZR q + IZR r / IZR d).
Proof.
  intros Hd [Hr0 Hrd].
  assert (0 < IZR d) as Hd' by (by apply IZR_lt).
  set (t := IZR r / IZR d).
  assert (t * IZR d = IZR r) as Ht by (unfold t; field; apply Rgt_not_eq; lra).
  assert (r = 0%Z -> t = 0) as Ht0.
  { intros ->. unfold t, Rdiv. apply Rmult_0_l. }
  unfold new_location.
  destruct (Z.even d) eqn:Heven;
    unfold new_location_even, new_location_odd;
    (destruct (Z.eqb_spec r 0) as [Hr|Hne];
       [rewrite (Ht0 Hr); cbn [inbetween]; lra|]).
  - assert (0 < IZR r) as Hr' by (apply IZR_lt; lia).
    destruct (Z.compare_spec (2 * r) d) as [Heq|Hlt|Hgt]; cbn [inbetween].
    + apply (f_equal IZR) in Heq. rewrite mult_IZR in Heq. nra.
    + apply IZR_lt in Hlt. rewrite mult_IZR in Hlt. nra.
    + apply IZR_lt in Hgt, Hrd. rewrite mult_IZR in Hgt. nra.
  - assert (0 < IZR r) as Hr' by (apply IZR_lt; lia).
    assert (2 * r <> d)%Z as Hodd.
    { intros <-. rewrite Z.even_mul in Heven. done. }
    destruct (Z.compare_spec (2 * r + 1) d) as [Heq|Hlt|Hgt];
      cbn [inbetween].
    + assert (2 * r < d)%Z as Hlt by lia.
      apply IZR_lt in Hlt. rewrite mult_IZR in Hlt. nra.
    + assert (2 * r < d)%Z as Hlt' by lia.
      apply IZR_lt in Hlt'. rewrite mult_IZR in Hlt'. nra.
    + assert (d < 2 * r)%Z as Hgt' by lia.
      apply IZR_lt in Hgt', Hrd. rewrite mult_IZR in Hgt'. nra.
Qed.

(** The quotient of two positive numbers of the format. *)
Theorem SFdiv_correct mx ex my ey L H :
  canonic prec (Z.pos mx) -> canonic prec (Z.pos my) ->
  bpow L <= F2R (Z.pos mx) ex / F2R (Z.pos my) ey < bpow H ->
  (emin prec emax + prec <= L)%Z -> (H < emax)%Z ->
  exists m e,
    SFdiv prec emax (S754_finite false mx ex) (S754_finite false my ey)
      = S754_finite false m e /\
    canonic prec (Z.pos m) /\
    nearest prec (F2R (Z.pos mx) ex / F2R (Z.pos my) ey) (F2R (Z.pos m) e).
Proof.
  intros Hcx Hcy [HL HH] Hmin Hmax.
  set (x := F2R (Z.pos mx) ex / F2R (Z.pos my) ey) in *.
  pose proof (F2R_bounds prec Hprec _ ex Hcx) as [Hx1 Hx2].
  pose proof (F2R_bounds prec Hprec _ ey Hcy) as [Hy1 Hy2].
  pose proof (F2R_pos my ey) as Hypos.
  pose proof (bpow_gt_0 ey) as Hey. pose proof (bpow_gt_0 ex) as Hex.
  assert (x * F2R (Z.pos my) ey = F2R (Z.pos mx) ex) as Hxy
    by (unfold x; field; apply Rgt_not_eq; lra).
  assert (L <= ex - ey)%Z as HLe.
  { assert (L < ex - ey + 1)%Z; [|lia]. apply bpow_lt_inv.
    eapply Rle_lt_trans; [exact HL|].
    replace (ex - ey + 1)%Z with (prec + ex - (prec - 1 + ey))%Z by lia.
    unfold Z.sub at 1. rewrite bpow_plus, bpow_opp.
    pose proof (bpow_gt_0 (prec - 1 + ey)) as Hb.
    apply (Rmult_lt_reg_r (bpow (prec - 1 + ey))); [done|].
    rewrite Rmult_assoc, Rinv_l, Rmult_1_r by lra.
    pose proof (bpow_gt_0 L). nra. }
  unfold SFdiv, SFdiv_core_binary. cbn [xorb].
  rewrite (Zdigits2_unique (Z.pos mx) prec Hcx),
    (Zdigits2_unique (Z.pos my) prec Hcy) by done.
  replace (prec + ex - (prec + ey))%Z with (ex - ey)%Z by lia.
  replace (Z.min (fexp prec emax (ex - ey)) (ex - ey))
    with (ex - ey - prec)%Z by (unfold fexp; lia).
  replace (ex - ey - (ex - ey - prec))%Z with prec by lia.
  assert (match prec with
          | Z.pos _ => Z.shiftl (Z.pos mx) prec
          | 0%Z => Z.pos mx
          | Z.neg _ => 0%Z
          end = (Z.pos mx * 2 ^ prec)%Z) as ->.
  { destruct prec eqn:Hp; [lia| |lia]. apply Z.shiftl_mul_pow2. lia. }
  set (N := (Z.pos mx * 2 ^ prec)%Z).
  pose proof (Z.div_mod N (Z.pos my) ltac:(done)) as Hdm.
  pose proof (Z.mod_pos_bound N (Z.pos my) ltac:(done)) as Hmod.
  unfold Z.div, Z.modulo in Hdm, Hmod.
  destruct (Z.div_eucl N (Z.pos my)) as [q r]. cbn [fst snd] in Hdm, Hmod.
  assert (0 < 2 ^ (prec - 1))%Z as Hp1 by (apply Z.pow_pos_nonneg; lia).
  assert (2 ^ prec = 2 * 2 ^ (prec - 1))%Z as Hp2.
  { rewrite <- Z.pow_succ_r by lia. f_equal. lia. }
  assert (2 ^ (prec - 1) <= q)%Z as Hq.
  { destruct Hcx as [Hcx1 Hcx2], Hcy as [Hcy1 Hcy2]. unfold N in Hdm.
    nia. }
  apply (binary_round_aux_range _ _ Hprec _ _ _ _ L H); try done.
  - lia.
  - assert (x * bpow (- (ex - ey - prec)) = IZR q + IZR r / IZR (Z.pos my))
      as ->; [|apply new_location_correct; [done|lia]].
    assert (0 < IZR (Z.pos my)) as Hmy by (by apply IZR_lt).
    assert (IZR N = IZR (Z.pos my) * IZR q + IZR r) as HN.
    { rewrite Hdm at 1. by rewrite plus_IZR, mult_IZR. }
    apply (Rmult_eq_reg_r (IZR (Z.pos my))); [|lra].
    replace ((IZR q + IZR r / IZR (Z.pos my)) * IZR (Z.pos my))
      with (IZR N) by (rewrite HN; field; apply Rgt_not_eq; lra).
    unfold N. rewrite mult_IZR, <- bpow_IZR by lia.
    replace (- (ex - ey - prec))%Z with (- ex + ey + prec)%Z by lia.
    rewrite !bpow_plus.
    unfold F2R in Hxy. pose proof (bpow_opp_r ex) as Hoe.
    assert (x * IZR (Z.pos my) * bpow ey * bpow (- ex) = IZR (Z.pos mx))
      as <-.
    { rewrite <- Rmult_assoc in Hxy. rewrite Hxy, Rmult_assoc, Hoe. lra. }
    ring.
  - apply Zdigits2_ge; lia.
  - lia.
Qed.

End Operations2.

(** ** The reward of a step onto the goal *)

Section Reward.
Local Open Scope R_scope.

Lemma bpow_neg_num k : (0 <= k)%Z -> bpow (- k) = / IZR (2 ^ k).
Proof. intros Hk. rewrite bpow_opp, bpow_IZR by done. reflexivity. Qed.

Ltac bpow_num :=
  repeat match goal with
  | |- context [bpow (Z.neg ?p)] =>
      change (bpow (Z.neg p)) with (bpow (- Z.pos p));
      rewrite (bpow_neg_num (Z.pos p)) by done;
      let v := eval vm_compute in (2 ^ Z.pos p)%Z in
      change (2 ^ Z.pos p)%Z with v
  | |- context [bpow (Z.pos ?p)] =>
      rewrite (bpow_IZR (Z.pos p)) by done;
      let v := eval vm_compute in (2 ^ Z.pos p)%Z in
      change (2 ^ Z.pos p)%Z with v
  | |- context [bpow 0] => rewrite bpow_0
  end.

Lemma good_in_format p f : good p f -> in_format p (SF2R f).
Proof. intros (m & e & -> & Hm). by exists (Z.pos m), e. Qed.

Lemma good_intro p f m e v :
  f = S754_finite false m e -> canonic p (Z.pos m) ->
  nearest p v (F2R (Z.pos m) e) ->
  good p f /\ nearest p v (SF2R f).
Proof. intros -> Hm Hn. split; [by exists m, e|done]. Qed.

Lemma good_cases p f1 f2 :
  (0 < p)%Z -> good p f1 -> good p f2 -> SF2R f1 <= SF2R f2 ->
  f1 = f2 \/ SF2R f1 < SF2R f2.
Proof.
  intros Hp (m1 & e1 & -> & H1) (m2 & e2 & -> & H2) [Hlt|Heq];
    [by right|left].
  cbn [SF2R cond_Zopp] in Heq.
  destruct (canonic_unique p Hp _ _ _ _ H1 H2 Heq) as [[= ->] ->]. done.
Qed.

Lemma rounds_increasing p p' dom g op f1 f2 :
  (0 < p)%Z -> rounds p p' dom g op ->
  (forall v1 v2, dom v1 -> dom v2 -> v1 < v2 -> g v1 < g v2) ->
  good p f1 -> good p f2 -> dom (SF2R f1) -> dom (SF2R f2) ->
  SF2R f1 <= SF2R f2 -> SF2R (op f1) <= SF2R (op f2).
Proof.
  intros Hp Hop Hg H1 H2 Hd1 Hd2 Hle.
  destruct (good_cases p f1 f2 Hp H1 H2 Hle) as [->|Hlt]; [lra|].
  destruct (Hop f1 H1 Hd1) as [_ Hn1]. destruct (Hop f2 H2 Hd2) as [_ Hn2].
  eapply nearest_monotone; [exact Hn1|exact Hn2|]. by apply Hg.
Qed.

Lemma rounds_decreasing p p' dom g op f1 f2 :
  (0 < p)%Z -> rounds p p' dom g op ->
  (forall v1 v2, dom v1 -> dom v2 -> v1 < v2 -> g v2 < g v1) ->
  good p f1 -> good p f2 -> dom (SF2R f1) -> dom (SF2R f2) ->
  SF2R f1 <= SF2R f2 -> SF2R (op f2) <= SF2R (op f1).
Proof.
  intros Hp Hop Hg H1 H2 Hd1 Hd2 Hle.
  destruct (good_cases p f1 f2 Hp H1 H2 Hle) as [->|Hlt]; [lra|].
  destruct (Hop f1 H1 Hd1) as [_ Hn1]. destruct (Hop f2 H2 Hd2) as [_ Hn2].
  eapply nearest_monotone; [exact Hn2|exact Hn1|]. by apply Hg.
Qed.

(** The conversion of a step count. *)
Lemma float_of_int_correct z :
  (1 <= z < 2 ^ 31)%Z ->
  good 24 (float_of_int z) /\ nearest 24 (IZR z) (SF2R (float_of_int z)) /\
  1 <= SF2R (float_of_int z) <= bpow 31.
Proof.
  intros [Hz1 Hz2]. destruct z as [|p|p]; [lia| |lia].
  unfold float_of_int. cbn [binary_normalize].
  assert (F2R (Z.pos p) 0 = IZR (Z.pos p)) as Hv.
  { unfold F2R. rewrite bpow_0. lra. }
  destruct (binary_round_correct 24 128 ltac:(done) p 0 0 31)
    as (m & e & Hr & Hm & Hn); [|done|done|].
  { rewrite Hv, bpow_0, (bpow_IZR 31) by done.
    apply IZR_le in Hz1. apply IZR_lt in Hz2. lra. }
  rewrite Hv in Hn.
  destruct (good_intro 24 _ m e _ Hr Hm Hn) as [Hg Hn'].
  split; [done|]. split; [done|]. split.
  - apply (nearest_ge 24 (IZR (Z.pos p))); [done| |by apply IZR_le].
    rewrite <- bpow_0. by apply in_format_bpow.
  - apply (nearest_le 24 (IZR (Z.pos p))); [done|by apply in_format_bpow|].
    rewrite (bpow_IZR 31) by done. apply IZR_le. lia.
Qed.

(** The quotient [static_cast<float>(step_count_) / max_steps_]. *)
Lemma quotient_rounds b :
  good 24 b -> 1 <= SF2R b <= bpow 31 ->
  rounds 24 24 (fun v => 1 <= v <= SF2R b) (fun v => v / SF2R b)
    (fun a => SFdiv 24 128 a b).
Proof.
  intros (mb & eb & -> & Hb) [Hb1 Hb2] a (ma & ea & -> & Ha) [Ha1 Ha2].
  cbn [SF2R cond_Zopp] in *.
  set (A := F2R (Z.pos ma) ea) in *. set (B := F2R (Z.pos mb) eb) in *.
  assert (A / B * B = A) as Hq by (field; apply Rgt_not_eq; lra).
  assert (bpow (-31) * bpow 31 = 1) as H31.
  { rewrite <- bpow_plus. reflexivity. }
  pose proof (bpow_gt_0 (-31)) as Hpos.
  destruct (SFdiv_correct 24 128 ltac:(done) ma ea mb eb (-31) 1)
    as (m & e & Hr & Hm & Hn); [done|done| |done|done|].
  { fold A B. rewrite bpow_1. split; nra. }
  fold A B in Hn. by apply (good_intro 24 _ m e).
Qed.

Lemma quotient_range b a :
  good 24 b -> 1 <= SF2R b <= bpow 31 ->
  good 24 a -> 1 <= SF2R a <= SF2R b ->
  bpow (-31) <= SF2R (SFdiv 24 128 a b) <= 1.
Proof.
  intros Hb Hbr Ha Har.
  destruct (quotient_rounds b Hb Hbr a Ha Har) as [_ Hn].
  set (A := SF2R a) in *. set (B := SF2R b) in *.
  assert (A / B * B = A) as Hq by (field; apply Rgt_not_eq; lra).
  assert (bpow (-31) * bpow 31 = 1) as H31.
  { rewrite <- bpow_plus. reflexivity. }
  pose proof (bpow_gt_0 (-31)) as Hpos.
  split.
  - apply (nearest_ge 24 (A / B)); [done|by apply in_format_bpow|nra].
  - apply (nearest_le 24 (A / B)); [done| |nra].
    rewrite <- bpow_0. by apply in_format_bpow.
Qed.

Lemma double_0_9_canonic : canonic 53 8106479329266893.
Proof. split; by vm_compute. Qed.

Lemma double_0_9_value : / 2 < SF2R double_0_9 < 1.
Proof. cbn [SF2R double_0_9 cond_Zopp]. unfold F2R. bpow_num. lra. Qed.

(** The product [0.9 * q]. *)
Lemma product_rounds :
  rounds 24 53 (fun v => bpow (-31) <= v <= 1)
    (fun v => SF2R double_0_9 * v) (SFmul 53 1024 double_0_9).
Proof.
  intros q (mq & eq & -> & Hq) [Hq1 Hq2].
  pose proof double_0_9_value as [Hc1 Hc2].
  cbn [SF2R double_0_9 cond_Zopp] in *.
  set (C := F2R 8106479329266893 (-53)) in *.
  set (Q := F2R (Z.pos mq) eq) in *.
  assert (bpow (-32) = / 2 * bpow (-31)) as H32.
  { change (-32)%Z with (-1 + -31)%Z. by rewrite bpow_plus, bpow_m1. }
  pose proof (bpow_gt_0 (-31)) as Hpos.
  destruct (SFmul_correct 53 1024 ltac:(done) 8106479329266893 (-53) mq eq
              (-32) 0) as (m & e & Hr & Hm & Hn);
    [exact double_0_9_canonic| |done|done|].
  { fold C Q. rewrite bpow_0, H32. split; nra. }
  fold C Q in Hn. by apply (good_intro 53 _ m e).
Qed.

Lemma product_range q :
  good 24 q -> bpow (-31) <= SF2R q <= 1 ->
  SF2R (SFmul 53 1024 double_0_9 q) <= SF2R double_0_9.
Proof.
  intros Hq Hqr. destruct (product_rounds q Hq Hqr) as [_ Hn].
  pose proof double_0_9_value as [Hc1 Hc2].
  apply (nearest_le 53 _ _ _ Hn); [|nra].
  exists 8106479329266893%Z, (-53)%Z. split; [exact double_0_9_canonic|done].
Qed.

Lemma good_pos p f : (0 < p)%Z -> good p f -> 0 < SF2R f.
Proof. intros Hp Hf. apply (in_format_pos p Hp). by apply good_in_format. Qed.

(** The difference [1 - r]. *)
Lemma difference_rounds :
  rounds 53 53 (fun v => v <= SF2R double_0_9) (fun v => 1 - v)
    (SFsub 53 1024 (double_of_int 1)).
Proof.
  intros r Hr Hr1. pose proof (good_pos 53 r ltac:(done) Hr) as Hr0.
  destruct Hr as (mr & er & -> & Hr).
  pose proof double_0_9_value as [Hc1 Hc2].
  change (double_of_int 1) with (S754_finite false 4503599627370496 (-52)).
  assert (F2R 4503599627370496 (-52) = 1) as H1.
  { unfold F2R. bpow_num. lra. }
  assert (bpow (-4) <= 1 - SF2R double_0_9) as H4.
  { cbn [SF2R double_0_9 cond_Zopp]. unfold F2R. bpow_num. lra. }
  cbn [SF2R cond_Zopp] in Hr0, Hr1 |- *.
  destruct (SFsub_correct 53 1024 ltac:(done) 4503599627370496 (-52) mr er
              (-4) 0) as (m & e & Hs & Hm & Hn); [|done|done|].
  { rewrite H1, bpow_0. lra. }
  rewrite H1 in Hn. by apply (good_intro 53 _ m e).
Qed.

Lemma difference_range r :
  good 53 r -> SF2R r <= SF2R double_0_9 ->
  1 - SF2R double_0_9 <= SF2R (SFsub 53 1024 (double_of_int 1) r) <= 1.
Proof.
  intros Hr Hr1. pose proof (good_pos 53 r ltac:(done) Hr) as Hr0.
  destruct (difference_rounds r Hr Hr1) as [_ Hn]. split.
  - apply (nearest_ge 53 _ _ _ Hn); [|lra].
    exists 7205759403792792%Z, (-56)%Z. split; [split; by vm_compute|].
    cbn [SF2R double_0_9 cond_Zopp]. unfold F2R. bpow_num. lra.
  - apply (nearest_le 53 _ _ _ Hn); [|lra].
    rewrite <- bpow_0. by apply in_format_bpow.
Qed.

(** The assignment to the [float] [reward]. *)
Lemma assignment_rounds :
  rounds 53 24 (fun v => 1 - SF2R double_0_9 <= v <= 1) (fun v => v)
    float_of_double.
Proof.
  intros t (mt & et & -> & Ht) [Ht1 Ht2].
  assert (bpow (-4) <= 1 - SF2R double_0_9) as H4.
  { cbn [SF2R double_0_9 cond_Zopp]. unfold F2R. bpow_num. lra. }
  cbn [SF2R cond_Zopp float_of_double] in *.
  destruct (binary_round_correct 24 128 ltac:(done) mt et (-4) 1)
    as (m & e & Hr & Hm & Hn); [|done|done|].
  { rewrite bpow_1. lra. }
  by apply (good_intro 24 _ m e).
Qed.

Lemma assignment_range t :
  good 53 t -> 1 - SF2R double_0_9 <= SF2R t <= 1 ->
  SF2R least_reward <= SF2R (float_of_double t) <= 1.
Proof.
  intros Ht Htr. destruct (assignment_rounds t Ht Htr) as [_ Hn]. split.
  - set (t0 := S754_finite false 7205759403792792 (-56)).
    assert (SF2R t0 = 1 - SF2R double_0_9) as Ht0.
    { cbn [SF2R t0 double_0_9 cond_Zopp]. unfold F2R. bpow_num. lra. }
    assert (good 53 t0) as Hg0.
    { exists 7205759403792792%positive, (-56)%Z.
      split; [done|split; by vm_compute]. }
    change least_reward with (float_of_double t0).
    apply (rounds_increasing 53 24
             (fun v => 1 - SF2R double_0_9 <= v <= 1) (fun v => v));
      try done; try lra.
    exact assignment_rounds.
  - apply (nearest_le 24 _ _ _ Hn); [|lra].
    rewrite <- bpow_0. by apply in_format_bpow.
Qed.

Lemma float_of_int_monotone z1 z2 :
  (1 <= z1 <= z2)%Z -> (z2 < 2 ^ 31)%Z ->
  SF2R (float_of_int z1) <= SF2R (float_of_int z2).
Proof.
  intros [H1 H12] H2.
  destruct (Z.eq_dec z1 z2) as [->|Hne]; [lra|].
  destruct (float_of_int_correct z1) as (_ & Hn1 & _); [lia|].
  destruct (float_of_int_correct z2) as (_ & Hn2 & _); [lia|].
  apply (nearest_monotone 24 (IZR z1) (IZR z2)); [done..|].
  apply IZR_lt. lia.
Qed.

Lemma reward_of_range a b :
  good 24 b -> 1 <= SF2R b <= bpow 31 ->
  good 24 a -> 1 <= SF2R a <= SF2R b ->
  good 24 (reward_of a b) /\
  SF2R least_reward <= SF2R (reward_of a b) <= 1.
Proof.
  intros Hb Hbr Ha Har. unfold reward_of.
  destruct (quotient_rounds b Hb Hbr a Ha Har) as [Hq _].
  pose proof (quotient_range b a Hb Hbr Ha Har) as Hqr.
  destruct (product_rounds _ Hq Hqr) as [Hr _].
  pose proof (product_range _ Hq Hqr) as Hrr.
  destruct (difference_rounds _ Hr Hrr) as [Ht _].
  pose proof (difference_range _ Hr Hrr) as Htr.
  destruct (assignment_rounds _ Ht Htr) as [Hw _].
  pose proof (assignment_range _ Ht Htr) as Hwr.
  done.
Qed.

Lemma reward_of_monotone a1 a2 b :
  good 24 b -> 1 <= SF2R b <= bpow 31 ->
  good 24 a1 -> good 24 a2 ->
  1 <= SF2R a1 -> SF2R a1 <= SF2R a2 -> SF2R a2 <= SF2R b ->
  SF2R (reward_of a2 b) <= SF2R (reward_of a1 b).
Proof.
  intros Hb Hbr Ha1 Ha2 H1 H12 H2. unfold reward_of.
  assert (1 <= SF2R a1 <= SF2R b) as Har1 by lra.
  assert (1 <= SF2R a2 <= SF2R b) as Har2 by lra.
  destruct (quotient_rounds b Hb Hbr a1 Ha1 Har1) as [Hq1 _].
  destruct (quotient_rounds b Hb Hbr a2 Ha2 Har2) as [Hq2 _].
  pose proof (quotient_range b a1 Hb Hbr Ha1 Har1) as Hqr1.
  pose proof (quotient_range b a2 Hb Hbr Ha2 Har2) as Hqr2.
  destruct (product_rounds _ Hq1 Hqr1) as [Hr1 _].
  destruct (product_rounds _ Hq2 Hqr2) as [Hr2 _].
  pose proof (product_range _ Hq1 Hqr1) as Hrr1.
  pose proof (product_range _ Hq2 Hqr2) as Hrr2.
  destruct (difference_rounds _ Hr1 Hrr1) as [Ht1 _].
  destruct (difference_rounds _ Hr2 Hrr2) as [Ht2 _].
  pose proof (difference_range _ Hr1 Hrr1) as Htr1.
  pose proof (difference_range _ Hr2 Hrr2) as Htr2.
  pose proof double_0_9_value as [Hc1 Hc2].
  apply (rounds_increasing 53 24 _ _ _ _ _ ltac:(done) assignment_rounds);
    [intros; lra|done..|].
  apply (rounds_decreasing 53 53 _ _ _ _ _ ltac:(done) difference_rounds);
    [intros; lra|done..|].
  apply (rounds_increasing 24 53 _ _ _ _ _ ltac:(done) product_rounds);
    [intros; nra|done..|].
  apply (rounds_increasing 24 24 _ _ _ _ _ ltac:(done)
           (quotient_rounds b Hb Hbr)); [|done..].
  intros v1 v2 _ _ Hlt. unfold Rdiv. apply Rmult_lt_compat_r; [|done].
  apply Rinv_0_lt_compat. lra.
Qed.

(** The reward in real numbers: for step counts [s1 <= s2] up to the limit
    [M], the later reward is no greater than the earlier one, and both lie
    between the least reward and 1. *)
Lemma goal_reward_real s1 s2 M :
  (1 <= s1 <= s2)%Z -> (s2 <= M < 2 ^ 31)%Z ->
  good 24 (goal_reward s1 M) /\ good 24 (goal_reward s2 M) /\
  SF2R least_reward <= SF2R (goal_reward s2 M) /\
  SF2R (goal_reward s2 M) <= SF2R (goal_reward s1 M) /\
  SF2R (goal_reward s1 M) <= 1.
Proof.
  intros Hs HM.
  destruct (float_of_int_correct M) as (Hb & _ & Hbr); [lia|].
  destruct (float_of_int_correct s1) as (Ha1 & _ & Har1); [lia|].
  destruct (float_of_int_correct s2) as (Ha2 & _ & Har2); [lia|].
  pose proof (float_of_int_monotone s1 s2 Hs ltac:(lia)) as H12.
  pose proof (float_of_int_monotone s2 M ltac:(lia) ltac:(lia)) as H2M.
  change (goal_reward s1 M)
    with (reward_of (float_of_int s1) (float_of_int M)).
  change (goal_reward s2 M)
    with (reward_of (float_of_int s2) (float_of_int M)).
  destruct (reward_of_range (float_of_int s1) (float_of_int M))
    as [Hg1 Hr1]; [done|done|done|lra|].
  destruct (reward_of_range (float_of_int s2) (float_of_int M))
    as [Hg2 Hr2]; [done|done|done|lra|].
  pose proof (reward_of_monotone (float_of_int s1) (float_of_int s2)
                (float_of_int M) Hb Hbr Ha1 Ha2 ltac:(lra) H12 H2M).
  repeat split; try done; lra.
Qed.

Lemma float_ratio_good f :
  good 24 f -> SF2R f <= 1 ->
  exists n d,
    float_ratio f = Some (n, d) /\ (0 < n)%Z /\ (0 < d)%Z /\
    SF2R f * IZR d = IZR n.
Proof.
  intros (m & e & -> & Hm) Hle. cbn [SF2R cond_Zopp] in Hle.
  pose proof (F2R_bounds 24 ltac:(done) _ e Hm) as [Hlo _].
  assert (23 + e <= 0)%Z as He.
  { apply bpow_le_inv. rewrite bpow_0. change (23 + e)%Z with (24 - 1 + e)%Z.
    lra. }
  exists (Z.pos m), (2 ^ (- e))%Z. cbn [float_ratio].
  assert ((0 <=? e)%Z = false) as -> by lia.
  split; [done|]. split; [done|].
  split; [apply Z.pow_pos_nonneg; lia|].
  cbn [SF2R cond_Zopp]. unfold F2R.
  rewrite <- bpow_IZR, Rmult_assoc, bpow_opp_r by lia. lra.
Qed.

End Reward.

(** The same in integers: with the rewards at the step counts [s1 <= s2]
    written as quotients [n1 / d1] and [n2 / d2], both quotients lie in
    (1/10, 1], and the later one is no greater than the earlier one. *)
Lemma goal_reward_ratio s1 s2 M :
  1 <= s1 <= s2 -> s2 <= M < 2 ^ 31 ->
  exists n1 d1 n2 d2,
    float_ratio (goal_reward s1 M) = Some (n1, d1) /\
    float_ratio (goal_reward s2 M) = Some (n2, d2) /\
    0 < d1 /\ 0 < d2 /\
    d1 < 10 * n1 /\ n1 <= d1 /\
    d2 < 10 * n2 /\ n2 <= d2 /\
    n2 * d1 <= n1 * d2.
Proof.
  intros Hs HM.
  destruct (goal_reward_real s1 s2 M Hs HM) as (Hg1 & Hg2 & Hlo & Hmono & Hhi).
  destruct (float_ratio_good _ Hg1 Hhi) as (n1 & d1 & Hf1 & Hn1 & Hd1 & Hv1).
  destruct (float_ratio_good _ Hg2 ltac:(lra)) as (n2 & d2 & Hf2 & Hn2 & Hd2 & Hv2).
  exists n1, d1, n2, d2. split; [done|]. split; [done|].
  split; [done|]. split; [done|].
  assert (/ 10 < SF2R least_reward)%R as Hleast.
  { cbn [SF2R least_reward cond_Zopp]. unfold F2R.
    change (bpow (-27)) with (bpow (- (27))).
    rewrite bpow_opp, (bpow_IZR 27) by done.
    change (2 ^ 27)%Z with 134217728%Z. lra. }
  apply IZR_lt in Hd1, Hd2.
  set (v1 := SF2R (goal_reward s1 M)) in *.
  set (v2 := SF2R (goal_reward s2 M)) in *.
  repeat split.
  - apply lt_IZR. rewrite mult_IZR. nra.
  - apply le_IZR. nra.
  - apply lt_IZR. rewrite mult_IZR. nra.
  - apply le_IZR. nra.
  - apply le_IZR. rewrite !mult_IZR. rewrite <- Hv1, <- Hv2.
    assert (0 <= (v1 - v2) * (IZR d1 * IZR d2))%R as Hprod.
    { apply Rmult_le_pos; [lra|]. apply Rmult_le_pos; lra. }
    lra.
Qed.

(** ** C4: the reward on reaching the goal *)

Section RewardClaim.
Context `{WorldObjApi}.

(** C4, as the code has it. A step forward onto a Goal, counted as step [s]
    of at most [M] steps ([s] is [step_count_] after its increment, [M] is
    [max_steps_], an [int]), returns the [float] that line 84 computes for
    [1 - 0.9 * (s / M)] in floating point, [goal_reward s M]. As a quotient
    of integers this reward lies in (1/10, 1], and so does the reward of
    any later step count [s'] up to [M], which is no greater. *)
Theorem goal_reward_range st r st' fx fy cell s' :
  MiniGridStep kForward st = Ok (r, st') ->
  forward_pos (agent_pos_ st) (agent_dir_ st) = Some (fx, fy) ->
  grid_get (grid_ st) fx fy = Some cell -> GetType cell = kGoal ->
  1 <= step_count_ st + 1 <= s' -> s' <= max_steps_ st < 2 ^ 31 ->
  r = goal_reward (step_count_ st + 1) (max_steps_ st) /\
  exists n d n' d',
    float_ratio r = Some (n, d) /\
    float_ratio (goal_reward s' (max_steps_ st)) = Some (n', d') /\
    0 < d /\ 0 < d' /\
    d < 10 * n /\ n <= d /\
    d' < 10 * n' /\ n' <= d' /\
    n' * d <= n * d'.
Proof.
  intros (fx' & fy' & s1 & Hf & _ & Ha & ->)%step_inv Hf' Hcell Hgoal Hs HM.
  rewrite Hf in Hf'. injection Hf' as -> ->.
  apply (step_action_goal_reward _ _ _ _ _ cell) in Ha; [|done..].
  env_simpl. split; [exact Ha|]. rewrite Ha.
  destruct (goal_reward_ratio (step_count_ st + 1) s' (max_steps_ st) Hs HM)
    as (n & d & n' & d' & Hall).
  by exists n, d, n', d'.
Qed.

End RewardClaim.

(** C4 at a world: the second step of an episode of ten steps reaches the
    goal. *)
Lemma goal_reward_range_witness :
  exists r st',
    MiniGridStep kForward Sample.facing_goal = Ok (r, st') /\
    r = goal_reward 2 10 /\
    exists n d n' d',
      float_ratio r = Some (n, d) /\
      float_ratio (goal_reward 4 10) = Some (n', d') /\
      d < 10 * n /\ n <= d /\ n' * d <= n * d'.
Proof.
  destruct (MiniGridStep kForward Sample.facing_goal)
    as [[r st']| |] eqn:Hstep; [|by vm_compute in Hstep..].
  exists r, st'. split; [reflexivity|].
  destruct (goal_reward_range Sample.facing_goal r st' 3 1 Sample.G 4 Hstep)
    as (Hr & n & d & n' & d' & H1 & H2 & _ & _ & H3 & H4 & _ & _ & H5);
    [reflexivity|reflexivity|reflexivity|vm_compute; by split
    |vm_compute; by split|].
  split; [exact Hr|]. exists n, d, n', d'. by repeat split.
Defined.

(** The claim C4 fails where it equates the reward with the real number
    [1 - 0.9 * (s / M)]: the second step of an episode of ten steps earns
    13757317 / 2^24, which is not 82 / 100. It fails where it has the reward
    decrease with every step: in an episode of 2^25 steps the steps 2^24 and
    2^24 + 1 earn the same reward. *)
Lemma goal_reward_not_exact :
  (exists st',
     MiniGridStep kForward Sample.facing_goal
       = Ok (S754_finite false 13757317 (-24), st')) /\
  float_ratio (S754_finite false 13757317 (-24))
    = Some (13757317, 16777216) /\
  13757317 * 100 <> 82 * 16777216 /\
  (exists r st1 st2,
     MiniGridStep kForward (Sample.long_episode 16777215) = Ok (r, st1) /\
     MiniGridStep kForward (Sample.long_episode 16777216) = Ok (r, st2)).
Proof.
  split; [eexists; by vm_compute|]. split; [done|]. split; [done|].
  do 3 eexists. split; by vm_compute.
Qed.
